(** * Session gateway: a shallow embedding of the persistent service variant

    The development follows the source file of the persistent variant of the
    gateway (the one with [persistent-sessions.json]): the phone number
    normaliser, the per-session queue drain, the client life-cycle handlers,
    the registry, the persistence snapshot and the reaper.

    JavaScript values are rendered as follows.
    - Strings are [string] (bytes).  The only character classes the code
      looks at are ASCII ones ([\D], [_]), so bytes and UTF-16 code units
      agree on everything that is computed here.
    - Numbers are [Z]; every number that occurs is an integer far below 2^53.
    - [null]/[undefined] are [None].
    - The [sessions] Map is a [gmap] from session key to the reference of a
      session object; session objects live in a heap, because the handlers
      registered on a client close over the object, not over the key. *)

From Stdlib Require Import ZArith Ascii String.
From stdpp Require Import base option list gmap strings fin_maps pretty.

Local Open Scope Z_scope.

(** ** JavaScript string helpers *)

Module JsString.

(** [\d] without the [u] flag: the ten ASCII digits. *)
Definition is_digit (c : ascii) : bool :=
  match c with
  | "0" | "1" | "2" | "3" | "4" | "5" | "6" | "7" | "8" | "9" => true
  | _ => false
  end%char.

(** [s.replace(/\D/g, '')] *)
Fixpoint strip_non_digits (s : string) : string :=
  match s with
  | EmptyString => EmptyString
  | String c s' =>
      if is_digit c then String c (strip_non_digits s') else strip_non_digits s'
  end.

(** [s.startsWith(p)] *)
Fixpoint startsWith (p s : string) : bool :=
  match p, s with
  | EmptyString, _ => true
  | String a p', String b s' => if Ascii.eqb a b then startsWith p' s' else false
  | String _ _, EmptyString => false
  end.

(** [s.slice(n)] for [0 <= n]. *)
Fixpoint drop (n : nat) (s : string) : string :=
  match n, s with
  | O, _ => s
  | S n', String _ s' => drop n' s'
  | S _, EmptyString => EmptyString
  end.

(** [s.slice(0, n)] for [0 <= n]. *)
Fixpoint take (n : nat) (s : string) : string :=
  match n, s with
  | O, _ => EmptyString
  | S n', String c s' => String c (take n' s')
  | S _, EmptyString => EmptyString
  end.

(** [s.slice(-k)]: the start index is [max (length - k) 0]; truncated
    subtraction on [nat] is exactly that clamp. *)
Definition slice_last (k : nat) (s : string) : string :=
  drop (String.length s - k) s.

(** [s.includes(needle)] *)
Fixpoint includes (needle s : string) : bool :=
  startsWith needle s ||
  match s with
  | EmptyString => false
  | String _ s' => includes needle s'
  end.

(** Every character satisfies [p]. *)
Fixpoint all (p : ascii -> bool) (s : string) : bool :=
  match s with
  | EmptyString => true
  | String c s' => p c && all p s'
  end.

End JsString.

(** ** Phone number normalisation *)

(** [formatPhoneNumber]:
<<
  const digits = phone.replace(/\D/g, '');
  if (digits.startsWith('91') && digits.length === 12) return digits;
  if (digits.length === 10) return '91' + digits;
  if (digits.length >= 10) return '91' + digits.slice(-10);
  return digits;
>> *)
Definition formatPhoneNumber (phone : string) : string :=
  let digits := JsString.strip_non_digits phone in
  if JsString.startsWith "91" digits && (String.length digits =? 12)%nat then digits
  else if (String.length digits =? 10)%nat then "91" +:+ digits
  else if (10 <=? String.length digits)%nat then "91" +:+ JsString.slice_last 10 digits
  else digits.

(** ** Data model *)

(** The values the code stores in [session.status]. *)
Inductive Status :=
| disconnected | restoring | initializing | qr_ready | qr_failed | ready
| authenticated | auth_failed | max_attempts_reached | resetting
| manually_disconnected.

Global Instance Status_eq_dec : EqDecision Status.
Proof. solve_decision. Defined.

(** The classification the event and task routes attach to a message. *)
Inductive MessageKind :=
| Plain
| ForEvent (event_id staff_id : string) (day_number : Z)
| ForTask (task_id : string).

(** An element of [session.messageQueue]. *)
Record QueuedMessage := {
  messageId : string;
  number : string;
  message : string;
  timestamp : Z;
  kind : MessageKind
}.

(** A session object.  [client] holds the handle of the client object
    ([None] is [null]); [lastLinked] holds the instant of the ISO date string
    the code stores ([None] is [null], the only falsy value it ever takes). *)
Record Session := {
  firmId : string;
  client : option nat;
  qrCode : option string;
  isReady : bool;
  status : Status;
  messageQueue : list QueuedMessage;
  isProcessingQueue : bool;
  lastActivity : Z;
  createdAt : Z;
  reconnectAttempts : Z;
  maxReconnectAttempts : Z;
  isPersistent : bool;
  lastLinked : option Z
}.

(** Field assignments [session.f = v]. *)
Definition set_client (v : option nat) (s : Session) : Session :=
  {| firmId := firmId s; client := v; qrCode := qrCode s;
     isReady := isReady s; status := status s;
     messageQueue := messageQueue s;
     isProcessingQueue := isProcessingQueue s;
     lastActivity := lastActivity s; createdAt := createdAt s;
     reconnectAttempts := reconnectAttempts s;
     maxReconnectAttempts := maxReconnectAttempts s;
     isPersistent := isPersistent s; lastLinked := lastLinked s |}.

Definition set_qrCode (v : option string) (s : Session) : Session :=
  {| firmId := firmId s; client := client s; qrCode := v;
     isReady := isReady s; status := status s;
     messageQueue := messageQueue s;
     isProcessingQueue := isProcessingQueue s;
     lastActivity := lastActivity s; createdAt := createdAt s;
     reconnectAttempts := reconnectAttempts s;
     maxReconnectAttempts := maxReconnectAttempts s;
     isPersistent := isPersistent s; lastLinked := lastLinked s |}.

Definition set_isReady (v : bool) (s : Session) : Session :=
  {| firmId := firmId s; client := client s; qrCode := qrCode s;
     isReady := v; status := status s; messageQueue := messageQueue s;
     isProcessingQueue := isProcessingQueue s;
     lastActivity := lastActivity s; createdAt := createdAt s;
     reconnectAttempts := reconnectAttempts s;
     maxReconnectAttempts := maxReconnectAttempts s;
     isPersistent := isPersistent s; lastLinked := lastLinked s |}.

Definition set_status (v : Status) (s : Session) : Session :=
  {| firmId := firmId s; client := client s; qrCode := qrCode s;
     isReady := isReady s; status := v; messageQueue := messageQueue s;
     isProcessingQueue := isProcessingQueue s;
     lastActivity := lastActivity s; createdAt := createdAt s;
     reconnectAttempts := reconnectAttempts s;
     maxReconnectAttempts := maxReconnectAttempts s;
     isPersistent := isPersistent s; lastLinked := lastLinked s |}.

Definition set_messageQueue (v : list QueuedMessage) (s : Session) : Session :=
  {| firmId := firmId s; client := client s; qrCode := qrCode s;
     isReady := isReady s; status := status s; messageQueue := v;
     isProcessingQueue := isProcessingQueue s;
     lastActivity := lastActivity s; createdAt := createdAt s;
     reconnectAttempts := reconnectAttempts s;
     maxReconnectAttempts := maxReconnectAttempts s;
     isPersistent := isPersistent s; lastLinked := lastLinked s |}.

Definition set_isProcessingQueue (v : bool) (s : Session) : Session :=
  {| firmId := firmId s; client := client s; qrCode := qrCode s;
     isReady := isReady s; status := status s;
     messageQueue := messageQueue s; isProcessingQueue := v;
     lastActivity := lastActivity s; createdAt := createdAt s;
     reconnectAttempts := reconnectAttempts s;
     maxReconnectAttempts := maxReconnectAttempts s;
     isPersistent := isPersistent s; lastLinked := lastLinked s |}.

Definition set_lastActivity (v : Z) (s : Session) : Session :=
  {| firmId := firmId s; client := client s; qrCode := qrCode s;
     isReady := isReady s; status := status s;
     messageQueue := messageQueue s;
     isProcessingQueue := isProcessingQueue s; lastActivity := v;
     createdAt := createdAt s; reconnectAttempts := reconnectAttempts s;
     maxReconnectAttempts := maxReconnectAttempts s;
     isPersistent := isPersistent s; lastLinked := lastLinked s |}.

Definition set_reconnectAttempts (v : Z) (s : Session) : Session :=
  {| firmId := firmId s; client := client s; qrCode := qrCode s;
     isReady := isReady s; status := status s;
     messageQueue := messageQueue s;
     isProcessingQueue := isProcessingQueue s;
     lastActivity := lastActivity s; createdAt := createdAt s;
     reconnectAttempts := v; maxReconnectAttempts := maxReconnectAttempts s;
     isPersistent := isPersistent s; lastLinked := lastLinked s |}.

Definition set_isPersistent (v : bool) (s : Session) : Session :=
  {| firmId := firmId s; client := client s; qrCode := qrCode s;
     isReady := isReady s; status := status s;
     messageQueue := messageQueue s;
     isProcessingQueue := isProcessingQueue s;
     lastActivity := lastActivity s; createdAt := createdAt s;
     reconnectAttempts := reconnectAttempts s;
     maxReconnectAttempts := maxReconnectAttempts s; isPersistent := v;
     lastLinked := lastLinked s |}.

Definition set_lastLinked (v : option Z) (s : Session) : Session :=
  {| firmId := firmId s; client := client s; qrCode := qrCode s;
     isReady := isReady s; status := status s;
     messageQueue := messageQueue s;
     isProcessingQueue := isProcessingQueue s;
     lastActivity := lastActivity s; createdAt := createdAt s;
     reconnectAttempts := reconnectAttempts s;
     maxReconnectAttempts := maxReconnectAttempts s;
     isPersistent := isPersistent s; lastLinked := v |}.

(** A record of [persistent-sessions.json].  On load a field may be missing:
    [pr_lastLinked] and [pr_createdAt] are [None] then. *)
Record PersistedRecord := {
  pr_firmId : string;
  pr_isPersistent : bool;
  pr_lastLinked : option Z;
  pr_createdAt : option Z;
  pr_status : Status
}.

(** Callbacks handed to [setTimeout]. *)
Inductive Timer :=
| TimerInitialize (sessionKey : string)
    (** [() => initializeClient(sessionKey)] (restore, reset) *)
| TimerReconnect (sessionKey : string) (session : nat).
    (** [() => { if (sessions.has(sessionKey) &&
                     session.status !== 'manually_disconnected')
                   initializeClient(sessionKey); }] *)

(** What [await session.client.sendMessage(..)] does: it returns, or it
    throws an error with the given [message]. *)
Inductive SendResult :=
| Sent
| Threw (errorMessage : string).

(** What the service does to the outside: commands to client objects, waits,
    timers and file writes, in the order they are issued. *)
Inductive Effect :=
| NewClient (c : nat) (dataPath : string)
| ClientInitialize (c : nat)
| ClientLogout (c : nat)
| ClientDestroy (c : nat)
| ClientSendMessage (c : option nat) (chatId text : string) (r : SendResult)
| Sleep (ms : Z)
| SetTimeout (t : Timer) (ms : Z)
| WriteFile (data : gmap string PersistedRecord).

(** The events a client object emits.  The QR handler renders the payload
    with [QRCode.toDataURL]; [rendered] is the data URL, or [None] when the
    rendering reports an error. *)
Inductive ClientEvent :=
| EvQr (qr : string) (rendered : option string)
| EvReady
| EvAuthenticated
| EvAuthFailure (msg : string)
| EvDisconnected (reason : string).

(** ** The queue drain ([processMessageQueue]) *)

(** [error.message.includes('rate') || error.message.includes('limit')] *)
Definition is_rate_limited (errorMessage : string) : bool :=
  JsString.includes "rate" errorMessage || JsString.includes "limit" errorMessage.

(** The call [session.client.sendMessage(chatId, text)] of iteration [i].
    With a client the outcome is the environment's ([send i]); on [null] the
    property access throws the engine's TypeError. *)
Definition sendMessage (send : nat -> SendResult) (i : nat) (c : option nat)
  : SendResult :=
  match c with
  | Some _ => send i
  | None => Threw "Cannot read properties of null (reading 'sendMessage')"
  end.

(** The [for] loop of a drain, [n] iterations before [i] reaches [batchSize].
    The result is the session, the effects, and whether the loop ended
    normally.  It does not when [shift()] finds the queue empty: then
    [messageData] is [undefined], reading [messageData.number] throws inside
    [try], and the [catch] block throws again when it formats its log line, so
    the async function rejects before it clears [isProcessingQueue]. *)
Fixpoint drain_loop (n i : nat) (send : nat -> SendResult) (s : Session)
  : Session * list Effect * bool :=
  match n with
  | O => (s, [], true)
  | S n' =>
      if isReady s then
        match messageQueue s with
        | [] => (s, [], false)
        | messageData :: rest =>
            let s1 := set_messageQueue rest s in
            let formattedNumber := formatPhoneNumber (number messageData) in
            let chatId := formattedNumber +:+ "@c.us" in
            let r := sendMessage send i (client s1) in
            let attempt := ClientSendMessage (client s1) chatId (message messageData) r in
            match r with
            | Sent =>
                let '(s2, l, ok) := drain_loop n' (S i) send s1 in
                (s2, attempt :: Sleep 3000 :: l, ok)
            | Threw e =>
                if is_rate_limited e then
                  (set_messageQueue (messageData :: messageQueue s1) s1,
                   [attempt; Sleep 10000], true)
                else
                  let '(s2, l, ok) := drain_loop n' (S i) send s1 in
                  (s2, attempt :: l, ok)
            end
        end
      else (s, [], true)
  end.

(** The guard of [processMessageQueue] on an existing session:
    [session.isProcessingQueue || session.messageQueue.length === 0 ||
     !session.isReady]. *)
Definition drain_blocked (s : Session) : bool :=
  isProcessingQueue s || (length (messageQueue s) =? 0)%nat || negb (isReady s).

(** [session.isProcessingQueue = true], the statement that follows the
    guard: from here to the end of the function a drain is in flight. *)
Definition drain_enter (s : Session) : Session :=
  set_isProcessingQueue true s.

(** [processMessageQueue] on the session object it found, run from the
    guard to the end without anything else in between.  What other handlers
    do while the function is suspended in an [await] is the subject of
    [drain_start] and [drain_resume] below. *)
Definition drain (send : nat -> SendResult) (s : Session)
  : Session * list Effect :=
  if drain_blocked s then (s, [])
  else
    let s0 := drain_enter s in
    let batchSize := Nat.min 5 (length (messageQueue s0)) in
    let '(s1, l, ok) := drain_loop batchSize 0 send s0 in
    (if ok then set_isProcessingQueue false s1 else s1, l).

(** ** A drain with its suspension points *)

(** [processMessageQueue] is an async function: a call runs up to the first
    [await] it reaches, is suspended there while other handlers run, and
    goes on when what it awaits is settled.  The points where a drain is
    suspended: in [await session.client.sendMessage(..)] of iteration [i] on
    client [c] for [messageData], with [n] iterations to follow; in the 3 s
    pause after the message of iteration [i] was sent; in the 10 s pause
    after a rate-limited message went back to the queue. *)
Inductive DrainPoint :=
| AwaitSend (n i : nat) (c : nat) (messageData : QueuedMessage)
| AwaitPause (n i : nat)
| AwaitCooldown.

(** Where a drain is: suspended, returned, or rejected (the exception of
    the [catch] block left the function before it cleared
    [isProcessingQueue]). *)
Inductive DrainStatus :=
| Suspended (p : DrainPoint)
| Returned
| Rejected.

(** The loop from its test [i < batchSize && session.isReady], with [n]
    iterations before [i] reaches [batchSize], run up to the next [await]
    or to the end of the function, on the session as it is now.  With no
    client, [session.client.sendMessage] throws inside [try] before anything
    is awaited, and the loop goes on at once. *)
Fixpoint drain_iterate (n i : nat) (s : Session)
  : Session * list Effect * DrainStatus :=
  match n with
  | O => (set_isProcessingQueue false s, [], Returned)
  | S n' =>
      if isReady s then
        match messageQueue s with
        | [] => (s, [], Rejected)
        | messageData :: rest =>
            let s1 := set_messageQueue rest s in
            let formattedNumber := formatPhoneNumber (number messageData) in
            let chatId := formattedNumber +:+ "@c.us" in
            match client s1 with
            | Some c => (s1, [], Suspended (AwaitSend n' i c messageData))
            | None =>
                let e := "Cannot read properties of null (reading 'sendMessage')" in
                let attempt :=
                  ClientSendMessage None chatId (message messageData) (Threw e) in
                if is_rate_limited e then
                  (set_messageQueue (messageData :: messageQueue s1) s1,
                   [attempt; Sleep 10000], Suspended AwaitCooldown)
                else
                  let '(s2, l, st) := drain_iterate n' (S i) s1 in
                  (s2, attempt :: l, st)
            end
        end
      else (set_isProcessingQueue false s, [], Returned)
  end.

(** A call of [processMessageQueue] on the session object it found, up to
    its first [await]. *)
Definition drain_start (s : Session) : Session * list Effect * DrainStatus :=
  if drain_blocked s then (s, [], Returned)
  else
    let s0 := drain_enter s in
    let batchSize := Nat.min 5 (length (messageQueue s0)) in
    drain_iterate batchSize 0 s0.

(** A suspended drain goes on, on the session as it is by then, up to its
    next [await] or to its end; [r] is how the awaited [sendMessage] was
    settled (it is not looked at after a pause). *)
Definition drain_resume (p : DrainPoint) (r : SendResult) (s : Session)
  : Session * list Effect * DrainStatus :=
  match p with
  | AwaitSend n i c messageData =>
      let formattedNumber := formatPhoneNumber (number messageData) in
      let chatId := formattedNumber +:+ "@c.us" in
      let attempt := ClientSendMessage (Some c) chatId (message messageData) r in
      match r with
      | Sent => (s, [attempt; Sleep 3000], Suspended (AwaitPause n i))
      | Threw e =>
          if is_rate_limited e then
            (set_messageQueue (messageData :: messageQueue s) s,
             [attempt; Sleep 10000], Suspended AwaitCooldown)
          else
            let '(s2, l, st) := drain_iterate n (S i) s in
            (s2, attempt :: l, st)
      end
  | AwaitPause n i => drain_iterate n (S i) s
  | AwaitCooldown => (set_isProcessingQueue false s, [], Returned)
  end.

(** The outcome [send] gives to what a suspended drain awaits. *)
Definition awaited (send : nat -> SendResult) (p : DrainPoint) : SendResult :=
  match p with
  | AwaitSend _ i _ _ => send i
  | _ => Sent
  end.

(** A drain resumed [fuel] times in a row with the outcomes of [send], with
    nothing else in between. *)
Fixpoint drain_finish (fuel : nat) (send : nat -> SendResult)
    (d : Session * list Effect * DrainStatus)
  : Session * list Effect * DrainStatus :=
  match fuel with
  | O => d
  | S fuel' =>
      match d with
      | (s, l, Suspended p) =>
          let '(s1, l1, st) := drain_resume p (awaited send p) s in
          drain_finish fuel' send (s1, l ++ l1, st)
      | _ => d
      end
  end.

(** ** Client event handlers, on the session object they closed over *)

Definition on_qr (rendered : option string) (s : Session) : Session :=
  let s1 := set_status qr_ready s in
  match rendered with
  | Some url => set_qrCode (Some url) s1
  | None => set_status qr_failed s1
  end.

Definition on_ready (now : Z) (s : Session) : Session :=
  set_lastLinked (Some now)
    (set_isPersistent true
      (set_reconnectAttempts 0
        (set_qrCode None (set_status ready (set_isReady true s))))).

Definition on_authenticated (s : Session) : Session :=
  set_status authenticated s.

Definition on_auth_failure (s : Session) : Session :=
  set_qrCode None (set_status auth_failed s).

(** [Math.min(60000, 10000 * session.reconnectAttempts)], the
    [reconnectDelay] of a persistent session, in milliseconds. *)
Definition persistent_reconnectDelay (reconnectAttempts : Z) : Z :=
  Z.min 60000 (10000 * reconnectAttempts).

(** [Math.min(30000, 5000 * session.reconnectAttempts)], the
    [reconnectDelay] of the other sessions. *)
Definition temporary_reconnectDelay (reconnectAttempts : Z) : Z :=
  Z.min 30000 (5000 * reconnectAttempts).

(** The [disconnected] handler: the updated session and the delay of the
    reconnect it schedules, if it schedules one. *)
Definition on_disconnected (reason : string) (s : Session)
  : Session * option Z :=
  let s1 := set_qrCode None (set_status disconnected (set_isReady false s)) in
  if isPersistent s1 && negb (bool_decide (status s1 = manually_disconnected)) then
    (s1, Some (persistent_reconnectDelay (reconnectAttempts s1)))
  else if negb (isPersistent s1) && negb (String.eqb reason "NAVIGATION")
          && negb (String.eqb reason "LOGOUT") then
    (s1, Some (temporary_reconnectDelay (reconnectAttempts s1)))
  else (s1, None).

(** The part of a handler that only touches the session object. *)
Definition handle_event (now : Z) (ev : ClientEvent) (s : Session) : Session :=
  match ev with
  | EvQr _ rendered => on_qr rendered s
  | EvReady => on_ready now s
  | EvAuthenticated => on_authenticated s
  | EvAuthFailure _ => on_auth_failure s
  | EvDisconnected reason => (on_disconnected reason s).1
  end.

(** ** The process state *)

(** [sessions] is the module-level Map, from session key to session object.
    [heap] holds the session objects ever allocated (a reference is an index),
    [clients] the closure of the handlers of every client ever constructed
    (the [sessionKey] and the [session] of the [initializeClient] call that
    built it), [timers] the pending [setTimeout] callbacks and [effects] what
    the process did to the outside so far. *)
Record World := {
  sessions : gmap string nat;
  heap : list Session;
  clients : list (string * nat);
  timers : list Timer;
  effects : list Effect
}.

Definition with_sessions (m : gmap string nat) (w : World) : World :=
  {| sessions := m; heap := heap w; clients := clients w;
     timers := timers w; effects := effects w |}.

Definition with_heap (h : list Session) (w : World) : World :=
  {| sessions := sessions w; heap := h; clients := clients w;
     timers := timers w; effects := effects w |}.

Definition with_clients (cs : list (string * nat)) (w : World) : World :=
  {| sessions := sessions w; heap := heap w; clients := cs;
     timers := timers w; effects := effects w |}.

Definition with_timers (ts : list Timer) (w : World) : World :=
  {| sessions := sessions w; heap := heap w; clients := clients w;
     timers := ts; effects := effects w |}.

Definition with_effects (es : list Effect) (w : World) : World :=
  {| sessions := sessions w; heap := heap w; clients := clients w;
     timers := timers w; effects := es |}.

(** Mutation of the session object behind reference [r]. *)
Definition modify (r : nat) (f : Session -> Session) (w : World) : World :=
  with_heap (alter f r (heap w)) w.

Definition emit (es : list Effect) (w : World) : World :=
  with_effects (effects w ++ es) w.

(** [setTimeout(t, ms)] *)
Definition schedule (t : Timer) (ms : Z) (w : World) : World :=
  emit [SetTimeout t ms] (with_timers (timers w ++ [t]) w).

(** The state of a process that has just started. *)
Definition init : World :=
  {| sessions := ∅; heap := []; clients := []; timers := []; effects := [] |}.

(** The template literal [`firm_${firmId}`]. *)
Definition session_key (firmId : string) : string := "firm_" +:+ firmId.

(** ** Persistence *)

(** [session.isPersistent && session.lastLinked] *)
Definition persistable (s : Session) : bool :=
  isPersistent s && match lastLinked s with Some _ => true | None => false end.

(** The record [savePersistedSessions] writes for a session. *)
Definition persisted_record (s : Session) : PersistedRecord :=
  {| pr_firmId := firmId s; pr_isPersistent := true;
     pr_lastLinked := lastLinked s; pr_createdAt := Some (createdAt s);
     pr_status := status s |}.

(** The body of the loop of [savePersistedSessions]. *)
Definition save_entry (h : list Session)
    (persistedData : gmap string PersistedRecord) (e : string * nat)
  : gmap string PersistedRecord :=
  match h !! e.2 with
  | Some session =>
      if persistable session
      then <[firmId session := persisted_record session]> persistedData
      else persistedData
  | None => persistedData
  end.

(** The object [savePersistedSessions] hands to [fs.writeFile]. *)
Definition persistedData (w : World) : gmap string PersistedRecord :=
  foldl (save_entry (heap w)) ∅ (map_to_list (sessions w)).

(** [savePersistedSessions]: the snapshot is taken synchronously; the write
    itself, whose failure is only logged, is the [WriteFile] effect. *)
Definition savePersistedSessions (w : World) : World :=
  emit [WriteFile (persistedData w)] w.

(** The session object [loadPersistedSessions] builds for a record;
    [sessionData.createdAt || Date.now()] takes the clock when the field is
    missing or zero. *)
Definition restored_session (firmId : string) (sessionData : PersistedRecord)
    (now : Z) : Session :=
  {| firmId := firmId; client := None; qrCode := None; isReady := false;
     status := restoring; messageQueue := []; isProcessingQueue := false;
     lastActivity := now;
     createdAt := match pr_createdAt sessionData with
                  | Some c => if c =? 0 then now else c
                  | None => now
                  end;
     reconnectAttempts := 0; maxReconnectAttempts := 5;
     isPersistent := true; lastLinked := pr_lastLinked sessionData |}.

(** [sessionData.isPersistent && sessionData.lastLinked] *)
Definition restorable (sessionData : PersistedRecord) : bool :=
  pr_isPersistent sessionData
  && match pr_lastLinked sessionData with Some _ => true | None => false end.

(** The body of the loop of [loadPersistedSessions]. *)
Definition restore_entry (now : Z) (w : World) (e : string * PersistedRecord)
  : World :=
  if restorable e.2 then
    let sessionKey := session_key e.1 in
    schedule (TimerInitialize sessionKey) 2000
      (with_sessions (<[sessionKey := length (heap w)]> (sessions w))
         (with_heap (heap w ++ [restored_session e.1 e.2 now]) w))
  else w.

(** [loadPersistedSessions] on a parsed file every value of which is a
    record: the argument is [Object.entries(persistedSessions)], in the order
    of [Object.entries] ([None] when reading or parsing throws).  For a file
    with [null] values see [loadPersistedFile] below. *)
Definition loadPersistedSessions (now : Z)
    (file : option (list (string * PersistedRecord))) (w : World) : World :=
  match file with
  | Some persistedSessions => foldl (restore_entry now) w persistedSessions
  | None => w
  end.

(** The loop of [loadPersistedSessions] on the entries of any parsed file.
    A value of the file may be [null] ([None] here): reading
    [sessionData.isPersistent] then throws, and the [catch] around the loop
    ends the load there, with what was restored before still in place.
    Every other value is a record for the loop (a number, string or array
    reads as a record without the two fields). *)
Fixpoint restore_entries (now : Z)
    (entries : list (string * option PersistedRecord)) (w : World) : World :=
  match entries with
  | [] => w
  | (firmId, Some sessionData) :: rest =>
      restore_entries now rest (restore_entry now w (firmId, sessionData))
  | (_, None) :: _ => w
  end.

(** [loadPersistedSessions] on any file: the argument is
    [Object.entries(persistedSessions)], in the order of [Object.entries]
    (integer-like keys first, in ascending order, then the other keys in the
    order of the file), or [None] when reading or parsing throws or the
    parsed value is [null]. *)
Definition loadPersistedFile (now : Z)
    (file : option (list (string * option PersistedRecord))) (w : World)
  : World :=
  match file with
  | Some entries => restore_entries now entries w
  | None => w
  end.

(** ** The registry *)

Definition fresh_session (firmId : string) (now : Z) : Session :=
  {| firmId := firmId; client := None; qrCode := None; isReady := false;
     status := disconnected; messageQueue := []; isProcessingQueue := false;
     lastActivity := now; createdAt := now; reconnectAttempts := 0;
     maxReconnectAttempts := 5; isPersistent := false; lastLinked := None |}.

(** [getOrCreateSession]: the reference of the session object it returns
    ([None] for [null]) and the new state. *)
Definition getOrCreateSession (now : Z) (firmId : string) (w : World)
  : option nat * World :=
  if bool_decide (firmId = "") then (None, w)
  else
    let sessionKey := session_key firmId in
    let w1 :=
      match sessions w !! sessionKey with
      | Some _ => w
      | None =>
          with_sessions (<[sessionKey := length (heap w)]> (sessions w))
            (with_heap (heap w ++ [fresh_session firmId now]) w)
      end in
    match sessions w1 !! sessionKey with
    | Some r => (Some r, modify r (set_lastActivity now) w1)
    | None => (None, w1)
    end.

(** The longest prefix without an underscore, and the rest: [[^_]+] is
    greedy and what follows it in the pattern is an underscore, so no shorter
    run can match. *)
Fixpoint span_no_underscore (s : string) : string * string :=
  match s with
  | EmptyString => (EmptyString, EmptyString)
  | String c s' =>
      if Ascii.eqb c "_" then (EmptyString, s)
      else let '(a, b) := span_no_underscore s' in (String c a, b)
  end.

(** [sessionId.match(/^firm_([^_]+)_/)]: the captured group, if it matches. *)
Definition firmMatch (sessionId : string) : option string :=
  if JsString.startsWith "firm_" sessionId then
    let '(firmId, rest) := span_no_underscore (JsString.drop 5 sessionId) in
    if negb (bool_decide (firmId = "")) && JsString.startsWith "_" rest
    then Some firmId else None
  else None.

(** [getSession] *)
Definition getSession (now : Z) (sessionId : string) (w : World)
  : option nat * World :=
  match firmMatch sessionId with
  | Some firmId => getOrCreateSession now firmId w
  | None => (None, w)
  end.

(** ** Client initialisation *)

(** The statements of [initializeClient] up to the constructor call, on the
    session object: the updated session and whether a client is to be
    constructed. *)
Definition begin_initialize (s : Session) : Session * bool :=
  let s1 := set_status initializing s in
  let s2 := set_reconnectAttempts (reconnectAttempts s1 + 1) s1 in
  if maxReconnectAttempts s2 <? reconnectAttempts s2
  then (set_status max_attempts_reached s2, false)
  else (s2, true).

(** [initializeClient] *)
Definition initializeClient (sessionKey : string) (w : World) : World :=
  match sessions w !! sessionKey with
  | None => w
  | Some r =>
      match heap w !! r with
      | None => w
      | Some session =>
          match client session with
          | Some _ => w
          | None =>
              let '(s1, construct) := begin_initialize session in
              if construct then
                let c := length (clients w) in
                emit [NewClient c ("./whatsapp-session-firm-" +:+ firmId s1);
                      ClientInitialize c]
                  (with_clients (clients w ++ [(sessionKey, r)])
                     (modify r (fun _ => set_client (Some c) s1) w))
              else modify r (fun _ => s1) w
          end
      end
  end.

(** [processMessageQueue] *)
Definition processMessageQueue (sessionKey : string)
    (send : nat -> SendResult) (w : World) : World :=
  match sessions w !! sessionKey with
  | None => w
  | Some r =>
      match heap w !! r with
      | None => w
      | Some session =>
          let '(s1, l) := drain send session in
          emit l (modify r (fun _ => s1) w)
      end
  end.

(** ** Events and timers *)

(** A client event reaches the handlers registered on client [c]. *)
Definition client_event (c : nat) (now : Z) (ev : ClientEvent) (w : World)
  : World :=
  match clients w !! c with
  | None => w
  | Some (sessionKey, r) =>
      match heap w !! r with
      | None => w
      | Some session =>
          match ev with
          | EvReady =>
              savePersistedSessions (modify r (fun _ => on_ready now session) w)
          | EvDisconnected reason =>
              let '(s1, delay) := on_disconnected reason session in
              let w1 := modify r (fun _ => s1) w in
              match delay with
              | Some reconnectDelay =>
                  schedule (TimerReconnect sessionKey r) reconnectDelay w1
              | None => w1
              end
          | _ => modify r (fun _ => handle_event now ev session) w
          end
      end
  end.

(** The callback of a timer runs. *)
Definition run_timer (t : Timer) (w : World) : World :=
  match t with
  | TimerInitialize sessionKey => initializeClient sessionKey w
  | TimerReconnect sessionKey r =>
      match sessions w !! sessionKey, heap w !! r with
      | Some _, Some session =>
          if bool_decide (status session = manually_disconnected) then w
          else initializeClient sessionKey w
      | _, _ => w
      end
  end.

(** The [i]-th pending timer fires. *)
Definition fire_timer (i : nat) (w : World) : World :=
  match timers w !! i with
  | Some t => run_timer t (with_timers (delete i (timers w)) w)
  | None => w
  end.

(** ** Heartbeat and reaper *)

Definition SESSION_TIMEOUT : Z := 30 * 24 * 60 * 60 * 1000.

Definition heartbeat_entry (now : Z) (w : World) (e : string * nat) : World :=
  modify e.2
    (fun session =>
       if isReady session
          && match client session with Some _ => true | None => false end
       then set_lastActivity now session else session) w.

(** [sessionHeartbeat] *)
Definition sessionHeartbeat (now : Z) (w : World) : World :=
  foldl (heartbeat_entry now) w (map_to_list (sessions w)).

(** Whether [cleanupOldSessions] deletes this session. *)
Definition evicts (now : Z) (session : Session) : bool :=
  let isOld := SESSION_TIMEOUT <? now - lastActivity session in
  let isVeryStale := SESSION_TIMEOUT * 3 <? now - createdAt session in
  if isPersistent session then
    isVeryStale && negb (isReady session)
    && bool_decide (status session = disconnected)
  else isOld || isVeryStale.

(** The body of the loop of [cleanupOldSessions], with [cleanedCount]. *)
Definition cleanup_entry (now : Z) (acc : World * nat) (e : string * nat)
  : World * nat :=
  let '(w, cleanedCount) := acc in
  match heap w !! e.2 with
  | Some session =>
      if evicts now session then
        let w1 := match client session with
                  | Some c => emit [ClientDestroy c] w
                  | None => w
                  end in
        (with_sessions (delete e.1 (sessions w1)) w1, S cleanedCount)
      else acc
  | None => acc
  end.

(** [cleanupOldSessions] *)
Definition cleanupOldSessions (now : Z) (w : World) : World :=
  let '(w1, cleanedCount) :=
    foldl (cleanup_entry now) (w, O) (map_to_list (sessions w)) in
  if (0 <? cleanedCount)%nat then savePersistedSessions w1 else w1.

(** ** Routes *)

(** The rest of a route handler once [getSession] has answered: nothing more
    happens to the state on [null]. *)
Definition on_session (res : option nat * World)
    (k : nat -> Session -> World -> World) : World :=
  match res.1 with
  | Some r =>
      match heap res.2 !! r with
      | Some session => k r session res.2
      | None => res.2
      end
  | None => res.2
  end.

(** [GET /api/status/:sessionId] and [GET /api/queue/:sessionId]: they only
    resolve the token. *)
Definition route_status (now : Z) (sessionId : string) (w : World) : World :=
  (getSession now sessionId w).2.

(** [POST /api/qr/:sessionId] *)
Definition route_qr (now : Z) (sessionId : string) (w : World) : World :=
  on_session (getSession now sessionId w) (fun r session w1 =>
    match client session with
    | None => initializeClient (session_key (firmId session)) w1
    | Some _ => w1
    end).

(** [try { session.client.destroy(); session.client = null; } catch ..]:
    [destroy_throws] tells whether the call throws. *)
Definition destroy_client (r : nat) (c : nat) (destroy_throws : bool)
    (w : World) : World :=
  let w1 := emit [ClientDestroy c] w in
  if destroy_throws then w1 else modify r (set_client None) w1.

(** [POST /api/reset/:sessionId] *)
Definition route_reset (now : Z) (sessionId : string) (destroy_throws : bool)
    (w : World) : World :=
  on_session (getSession now sessionId w) (fun r session w1 =>
    let w2 :=
      modify r (fun s =>
        set_messageQueue []
          (set_status resetting (set_isReady false (set_qrCode None s)))) w1 in
    let w3 := match client session with
              | Some c => destroy_client r c destroy_throws w2
              | None => w2
              end in
    schedule (TimerInitialize (session_key (firmId session))) 2000 w3).

(** The assignments of the disconnect route. *)
Definition unlink (s : Session) : Session :=
  set_lastLinked None
    (set_isPersistent false
      (set_messageQueue []
        (set_status manually_disconnected
          (set_isReady false (set_qrCode None s))))).

(** [POST /api/disconnect/:sessionId]; [logout_throws] and [destroy_throws]
    tell whether the two calls in the [try] block throw. *)
Definition route_disconnect (now : Z) (sessionId : string)
    (logout_throws destroy_throws : bool) (w : World) : World :=
  on_session (getSession now sessionId w) (fun r session w1 =>
    let w2 := modify r unlink w1 in
    let w3 := match client session with
              | Some c =>
                  let w' := emit [ClientLogout c] w2 in
                  if logout_throws then w'
                  else destroy_client r c destroy_throws w'
              | None => w2
              end in
    savePersistedSessions w3).

(** [!msg.number || !msg.message] *)
Definition incomplete (m : QueuedMessage) : bool :=
  bool_decide (number m = "") || bool_decide (message m = "").

(** The three send routes.  [messages] are the queue entries the route
    builds (identifier and time stamp included); the bulk route
    ([validate = true]) skips incomplete ones, the event and task routes
    queue every message they format. *)
Definition route_send (now : Z) (sessionId : string) (validate : bool)
    (messages : list QueuedMessage) (send : nat -> SendResult) (w : World)
  : World :=
  match messages with
  | [] => w
  | _ =>
      on_session (getSession now sessionId w) (fun r session w1 =>
        if isReady session then
          let queued :=
            if validate then filter (fun m => incomplete m = false) messages
            else messages in
          processMessageQueue (session_key (firmId session)) send
            (modify r (fun s => set_messageQueue (messageQueue s ++ queued) s) w1)
        else w1)
  end.

(** [POST /api/clear-queue/:sessionId] *)
Definition route_clear_queue (now : Z) (sessionId : string) (w : World)
  : World :=
  on_session (getSession now sessionId w) (fun r _ w1 =>
    modify r (set_messageQueue []) w1).

(** ** Runs of the process *)

(** What can happen to the process, with everything the environment decides:
    the clock, the file content, the outcome of calls into the client
    library.  [OpLoad] is the start-up load of the sessions file; the next
    six are requests; [OpClientEvent] is an event of a constructed client;
    [OpTimer] is a pending [setTimeout] callback that fires; [OpDrain] is the
    45 second interval reaching one session (the guard of the interval is the
    guard of [processMessageQueue] again); the last three are the heartbeat,
    reaper and save intervals. *)
Inductive Op :=
| OpLoad (now : Z) (file : option (list (string * PersistedRecord)))
| OpStatus (now : Z) (sessionId : string)
| OpQr (now : Z) (sessionId : string)
| OpReset (now : Z) (sessionId : string) (destroy_throws : bool)
| OpDisconnect (now : Z) (sessionId : string)
    (logout_throws destroy_throws : bool)
| OpSend (now : Z) (sessionId : string) (validate : bool)
    (messages : list QueuedMessage) (send : nat -> SendResult)
| OpClearQueue (now : Z) (sessionId : string)
| OpClientEvent (c : nat) (now : Z) (ev : ClientEvent)
| OpTimer (i : nat)
| OpDrain (sessionKey : string) (send : nat -> SendResult)
| OpHeartbeat (now : Z)
| OpCleanup (now : Z)
| OpSave.

Definition step (w : World) (op : Op) : World :=
  match op with
  | OpLoad now file => loadPersistedSessions now file w
  | OpStatus now sessionId => route_status now sessionId w
  | OpQr now sessionId => route_qr now sessionId w
  | OpReset now sessionId dt => route_reset now sessionId dt w
  | OpDisconnect now sessionId lt dt => route_disconnect now sessionId lt dt w
  | OpSend now sessionId v ms send => route_send now sessionId v ms send w
  | OpClearQueue now sessionId => route_clear_queue now sessionId w
  | OpClientEvent c now ev => client_event c now ev w
  | OpTimer i => fire_timer i w
  | OpDrain sessionKey send => processMessageQueue sessionKey send w
  | OpHeartbeat now => sessionHeartbeat now w
  | OpCleanup now => cleanupOldSessions now w
  | OpSave => savePersistedSessions w
  end.

(** The state after a run, from the start of the process. *)
Definition run (ops : list Op) : World := foldl step init ops.

(** ** A drain in flight among the other handlers *)

(** What happens while the drain of session object [r] is in flight: another
    handler runs, or the drain goes on with the outcome of what it awaited. *)
Inductive Move :=
| Elsewhere (op : Op)
| GoOn (res : SendResult).

(** The drain of session object [r] starts: the call runs up to its first
    [await] on the object. *)
Definition start_at (r : nat) (w : World) : World * DrainStatus :=
  match heap w !! r with
  | Some session =>
      let '(s1, l, st) := drain_start session in
      (emit l (modify r (fun _ => s1) w), st)
  | None => (w, Returned)
  end.

(** The suspended drain of session object [r] goes on. *)
Definition resume_at (r : nat) (p : DrainPoint) (res : SendResult) (w : World)
  : World * DrainStatus :=
  match heap w !! r with
  | Some session =>
      let '(s1, l, st) := drain_resume p res session in
      (emit l (modify r (fun _ => s1) w), st)
  | None => (w, Suspended p)
  end.

Definition move (r : nat) (d : World * DrainStatus) (m : Move)
  : World * DrainStatus :=
  match m with
  | Elsewhere op => (step d.1 op, d.2)
  | GoOn res =>
      match d.2 with
      | Suspended p => resume_at r p res d.1
      | _ => d
      end
  end.

(** ** Ordinals of day numbers ([getOrdinalNumber] of [formatEventMessage]) *)

(** [const suffixes = ['th', 'st', 'nd', 'rd']] *)
Definition suffixes : list string := ["th"; "st"; "nd"; "rd"].

(** [suffixes[i]] for an integer [i]: [undefined] outside the array. *)
Definition suffix_at (i : Z) : option string :=
  if i <? 0 then None else suffixes !! Z.to_nat i.

(** [suffixes[(v - 20) % 10] || suffixes[v] || suffixes[0]] with
    [v = num % 100]; the remainder of JavaScript takes the sign of the
    dividend ([Z.rem]), and every suffix is a non-empty string, hence
    truthy. *)
Definition ordinal_suffix (num : Z) : string :=
  let v := Z.rem num 100 in
  match suffix_at (Z.rem (v - 20) 10) with
  | Some s => s
  | None =>
      match suffix_at v with
      | Some s => s
      | None => default "" (suffix_at 0)
      end
  end.

(** The integers a JavaScript number holds exactly
    ([Number.isSafeInteger]): those below 2^53 in absolute value. *)
Definition safe_integer (num : Z) : Prop :=
  - 9007199254740992 < num < 9007199254740992.

(** [getOrdinalNumber] on a safe integer: there the number is the integer
    itself, [%] is the remainder of integers, and [num + suffix] is the
    decimal numeral followed by the suffix.  Beyond the safe integers a
    JavaScript number is rounded, and printed with an exponent from 1e21 on;
    this definition says nothing about the code there. *)
Definition getOrdinalNumber (num : Z) : string :=
  pretty num +:+ ordinal_suffix num.

(** The English ordinal suffix of a natural number: by its last digit,
    except for the numbers that end in 11, 12 or 13. *)
Definition expected_suffix (num : Z) : string :=
  if bool_decide (num `mod` 10 = 1 ∧ num `mod` 100 ≠ 11) then "st"
  else if bool_decide (num `mod` 10 = 2 ∧ num `mod` 100 ≠ 12) then "nd"
  else if bool_decide (num `mod` 10 = 3 ∧ num `mod` 100 ≠ 13) then "rd"
  else "th".

(** ** Vocabulary of the statements about drains *)

(** An outcome the drain classifies as rate limiting. *)
Definition rate_limited (r : SendResult) : bool :=
  match r with
  | Sent => false
  | Threw e => is_rate_limited e
  end.

(** The send attempts among some effects: destination, text and outcome. *)
Definition sends (l : list Effect) : list (string * string * SendResult) :=
  omap (fun e => match e with
                 | ClientSendMessage _ chatId text r => Some (chatId, text, r)
                 | _ => None
                 end) l.

(** The attempt iteration [i] makes for message [m]. *)
Definition attempt_of (send : nat -> SendResult) (c : option nat) (i : nat)
    (m : QueuedMessage) : string * string * SendResult :=
  (formatPhoneNumber (number m) +:+ "@c.us", message m, sendMessage send i c).

(** The effect of that attempt. *)
Definition attempt_effect (send : nat -> SendResult) (c : option nat) (i : nat)
    (m : QueuedMessage) : Effect :=
  ClientSendMessage c (formatPhoneNumber (number m) +:+ "@c.us") (message m)
    (sendMessage send i c).

(** ** Vocabulary of the statements about runs *)

(** What every session object of a run satisfies: status [ready] comes with
    the persistence mark and the readiness flag, and a manually disconnected
    session is not persistent. *)
Definition good (s : Session) : Prop :=
  (status s = ready → isPersistent s = true ∧ isReady s = true) ∧
  (status s = manually_disconnected → isPersistent s = false).

(** What a session update must keep for a step to leave the persistence
    marks alone. *)
Definition framed (s s' : Session) : Prop :=
  firmId s' = firmId s ∧ isPersistent s' = isPersistent s ∧
  (good s → good s').

(** Every entry of the registry points to a session object, filed under the
    key of its tenant. *)
Definition registered (w : World) : Prop :=
  ∀ k r, sessions w !! k = Some r →
         ∃ s, heap w !! r = Some s ∧ k = session_key (firmId s).

(** The handlers of every client closed over an existing session object. *)
Definition closures_valid (w : World) : Prop :=
  ∀ c k r, clients w !! c = Some (k, r) → is_Some (heap w !! r).

Definition Inv (w : World) : Prop :=
  registered w ∧ closures_valid w ∧ ∀ r s, heap w !! r = Some s → good s.

(** What a step may do to the session objects and the registry.  [mark r]
    tells whether the step sets ([Some true]) or clears ([Some false]) the
    persistence mark of object [r]; on all other objects the mark is kept,
    and new objects come without it.  Objects are never freed and keep their
    tenant; registry entries are old ones or point to new objects. *)
Definition evolves (mark : nat → option bool) (w w' : World) : Prop :=
  (∀ r s, heap w !! r = Some s →
     ∃ s', heap w' !! r = Some s' ∧ firmId s' = firmId s ∧
           isPersistent s' = default (isPersistent s) (mark r) ∧
           (good s → good s')) ∧
  (∀ r s', heap w !! r = None → heap w' !! r = Some s' →
     isPersistent s' = default false (mark r) ∧ good s') ∧
  (∀ r b, mark r = Some b → is_Some (heap w' !! r)) ∧
  (∀ k r, sessions w' !! k = Some r →
     sessions w !! k = Some r ∨
     (heap w !! r = None ∧
      ∃ s', heap w' !! r = Some s' ∧ k = session_key (firmId s'))) ∧
  (∀ c k r, clients w' !! c = Some (k, r) →
     clients w !! c = Some (k, r) ∨ is_Some (heap w' !! r)).

Definition unmarked : nat → option bool := fun _ => None.

(** The steps that set or clear the persistence mark of object [r]: a
    [ready] event of a client whose handlers closed over [r] sets it; the
    disconnect route clears it on the object its token resolves to; and,
    when [restore_counts], the objects [loadPersistedSessions] creates count
    as marked. *)
Definition marks (restore_counts : bool) (w : World) (op : Op) (r : nat)
  : option bool :=
  match op with
  | OpClientEvent c _ EvReady =>
      match clients w !! c with
      | Some (_, r') => if bool_decide (r' = r) then Some true else None
      | None => None
      end
  | OpDisconnect now sessionId _ _ =>
      if bool_decide ((getSession now sessionId w).1 = Some r)
      then Some false else None
  | OpLoad now file =>
      if restore_counts
         && bool_decide (length (heap w) ≤ r
                         < length (heap (loadPersistedSessions now file w)))%nat
      then Some true else None
  | _ => None
  end.

(** Whether object [r] was marked since it was last cleared, along a run
    that starts in [w] with the marks [g]. *)
Fixpoint linked_from (restore_counts : bool) (w : World) (g : nat → bool)
    (ops : list Op) : nat → bool :=
  match ops with
  | [] => g
  | op :: ops' =>
      linked_from restore_counts (step w op)
        (fun r => default (g r) (marks restore_counts w op r)) ops'
  end.

(** [linked false ops r]: in the run [ops] a [ready] event was observed for
    [r] after the last permanent disconnect of [r].  [linked true ops r]:
    the same, where being restored from the file counts like a [ready]
    event. *)
Definition linked (restore_counts : bool) (ops : list Op) : nat → bool :=
  linked_from restore_counts init (fun _ => false) ops.

(** ** Vocabulary of the statements about tokens *)

(** No character of the string is an underscore. *)
Definition no_underscore (s : string) : Prop :=
  JsString.all (fun c => negb (Ascii.eqb c "_")) s = true.

(** ** Sample data *)

Module Sample.

Definition msg (n : string) : QueuedMessage :=
  {| messageId := n; number := "+91-98765-43210"; message := "hello " +:+ n;
     timestamp := 0; kind := Plain |}.

(** A linked session with three queued messages. *)
Definition busy : Session :=
  {| firmId := "acme"; client := Some O; qrCode := None; isReady := true;
     status := ready; messageQueue := [msg "a"; msg "b"; msg "c"];
     isProcessingQueue := false; lastActivity := 0; createdAt := 0;
     reconnectAttempts := 0; maxReconnectAttempts := 5;
     isPersistent := true; lastLinked := Some 0 |}.

(** The second attempt hits the rate limit. *)
Definition throttled (i : nat) : SendResult :=
  match i with
  | 1%nat => Threw "Evaluation failed: rate-overlimit"
  | _ => Sent
  end.

(** The second attempt fails for another reason. *)
Definition unreachable (i : nat) : SendResult :=
  match i with
  | 1%nat => Threw "Evaluation failed: invalid wid"
  | _ => Sent
  end.

Definition always_sent (_ : nat) : SendResult := Sent.

(** A session that used up its reconnect attempts. *)
Definition parked : Session :=
  {| firmId := "acme"; client := None; qrCode := None; isReady := false;
     status := max_attempts_reached; messageQueue := [];
     isProcessingQueue := false; lastActivity := 0; createdAt := 0;
     reconnectAttempts := 6; maxReconnectAttempts := 5;
     isPersistent := false; lastLinked := None |}.

(** A record of the sessions file, as [savePersistedSessions] writes it. *)
Definition linked_record : PersistedRecord :=
  {| pr_firmId := "acme"; pr_isPersistent := true;
     pr_lastLinked := Some 1700000000000;
     pr_createdAt := Some 1690000000000; pr_status := ready |}.

Definition six : list QueuedMessage :=
  [msg "a"; msg "b"; msg "c"; msg "d"; msg "e"; msg "f"].

(** A token of tenant [acme]. *)
Definition token : string := "firm_acme_1700000000000_x7".

(** The QR route asks for a client, then five times the session is reset
    and the timer of the reset fires: the sixth [initializeClient] that
    finds no client is the one that gives up. *)
Definition exhausting : list Op :=
  OpQr 0 token :: concat (replicate 5 [OpReset 0 token false; OpTimer 0]).

(** The session at the end of the run [reauthenticated] below. *)
Definition leftover : Session :=
  {| firmId := "acme"; client := Some O; qrCode := None; isReady := true;
     status := authenticated; messageQueue := [msg "f"];
     isProcessingQueue := false; lastActivity := 6; createdAt := 0;
     reconnectAttempts := 0; maxReconnectAttempts := 5;
     isPersistent := true; lastLinked := Some 5 |}.

(** The tenant links a device and queues six messages, of which the
    drain of the send route delivers five; then the client emits
    [authenticated] once more. *)
Definition reauthenticated : list Op :=
  [OpQr 0 token; OpClientEvent 0 5 EvReady;
   OpSend 6 token true six always_sent;
   OpClientEvent 0 7 EvAuthenticated].

End Sample.

(** ** Vocabulary of the statements about timers, objects and requests *)

(** The entries of a parsed file in front of its first [null] value. *)
Fixpoint records_before_null (entries : list (string * option PersistedRecord))
  : list (string * PersistedRecord) :=
  match entries with
  | (firmId, Some sessionData) :: rest =>
      (firmId, sessionData) :: records_before_null rest
  | _ => []
  end.

(** Every session object is still there after a step, related to what it
    was by [R]. *)
Definition follows (R : Session → Session → Prop) (w w' : World) : Prop :=
  ∀ r s, heap w !! r = Some s → ∃ s', heap w' !! r = Some s' ∧ R s s'.

(** A set [isProcessingQueue] stays set. *)
Definition flag_stays (s s' : Session) : Prop :=
  isProcessingQueue s = true → isProcessingQueue s' = true.

(** The session key a timer callback closed over. *)
Definition timer_key (t : Timer) : string :=
  match t with
  | TimerInitialize sessionKey => sessionKey
  | TimerReconnect sessionKey _ => sessionKey
  end.

(** The assignments of the reset route to the session object. *)
Definition cleared (s : Session) : Session :=
  set_messageQueue []
    (set_status resetting (set_isReady false (set_qrCode None s))).

(** What holds of every session object of a run: the budget of attempts is
    five; the persistence mark and the link time come and go together; a
    session with the readiness flag is persistent; the attempts are never
    negative, at most five while the session holds a client and zero while
    its status is [ready]; a session parked in [max_attempts_reached] holds
    no client and has used up its budget. *)
Definition sound (s : Session) : Prop :=
  maxReconnectAttempts s = 5 ∧
  (isPersistent s = true ↔ is_Some (lastLinked s)) ∧
  (isReady s = true → isPersistent s = true) ∧
  0 ≤ reconnectAttempts s ∧
  (is_Some (client s) → reconnectAttempts s ≤ 5) ∧
  (status s = ready → reconnectAttempts s = 0) ∧
  (status s = max_attempts_reached →
   client s = None ∧ 5 < reconnectAttempts s).

(** A step that leaves the registry and every session object but [r] as
    they were. *)
Definition only_touches (r : nat) (w w' : World) : Prop :=
  sessions w' = sessions w ∧ ∀ r', r' ≠ r → heap w' !! r' = heap w !! r'.

(** Ownership of clients.  A session that holds client [c] is the session
    the handlers of [c] closed over, filed under its own key; and every
    client was constructed for an existing session, on the credential path
    of the tenant of that session. *)
Definition owned (w : World) : Prop :=
  (∀ r s c, heap w !! r = Some s → client s = Some c →
     clients w !! c = Some (session_key (firmId s), r)) ∧
  (∀ c k r, clients w !! c = Some (k, r) →
     ∃ s, heap w !! r = Some s ∧ k = session_key (firmId s) ∧
          NewClient c ("./whatsapp-session-firm-" +:+ firmId s) ∈ effects w).

(** A step that constructs no client: no session object gets a client it
    did not hold, objects stay and keep their tenant, the closures are the
    same and the effects so far are still there. *)
Definition quiet (w w' : World) : Prop :=
  (∀ r s' c, heap w' !! r = Some s' → client s' = Some c →
     ∃ s, heap w !! r = Some s ∧ client s = Some c) ∧
  (∀ r s, heap w !! r = Some s →
     ∃ s', heap w' !! r = Some s' ∧ firmId s' = firmId s) ∧
  clients w' = clients w ∧
  (∀ e, e ∈ effects w → e ∈ effects w').

(** Every client ever constructed is still held by the session object it
    was constructed for, or its [destroy] was called. *)
Definition leakfree (w : World) : Prop :=
  ∀ c k r, clients w !! c = Some (k, r) →
    (∃ s, heap w !! r = Some s ∧ client s = Some c) ∨
    ClientDestroy c ∈ effects w.

(** A step that drops no client without [destroy]: a client that a session
    object held is still held by it or its [destroy] was called, the effects
    so far are still there, and a new closure belongs to a client that is
    held by the object it closed over or was destroyed. *)
Definition tidy (w w' : World) : Prop :=
  (∀ r s c, heap w !! r = Some s → client s = Some c →
     (∃ s', heap w' !! r = Some s' ∧ client s' = Some c) ∨
     ClientDestroy c ∈ effects w') ∧
  (∀ e, e ∈ effects w → e ∈ effects w') ∧
  (∀ c k r, clients w' !! c = Some (k, r) →
     clients w !! c = Some (k, r) ∨
     (∃ s', heap w' !! r = Some s' ∧ client s' = Some c) ∨
     ClientDestroy c ∈ effects w').

(** The token of a request. *)
Definition token_of (op : Op) : option string :=
  match op with
  | OpStatus _ sessionId | OpQr _ sessionId | OpReset _ sessionId _
  | OpDisconnect _ sessionId _ _ | OpSend _ sessionId _ _ _
  | OpClearQueue _ sessionId => Some sessionId
  | _ => None
  end.

(** * Properties *)

(** ** Strings *)

Module JsStringFacts.
Import JsString.

Lemma all_strip_non_digits s : all is_digit (strip_non_digits s) = true.
Proof.
  induction s as [|c s IH]; [done|]. simpl.
  destruct (is_digit c) eqn:Hc; [|done]. simpl. by rewrite Hc.
Qed.

Lemma strip_non_digits_id s :
  all is_digit s = true → strip_non_digits s = s.
Proof.
  induction s as [|c s IH]; [done|]. simpl.
  intros [Hc Hs]%andb_true_iff. rewrite Hc. f_equal. auto.
Qed.

Lemma strip_non_digits_app s t :
  strip_non_digits (s +:+ t) = strip_non_digits s +:+ strip_non_digits t.
Proof.
  induction s as [|c s IH]; [done|].
  change (String c s +:+ t) with (String c (s +:+ t)). simpl.
  destruct (is_digit c); [|done].
  change (String c (strip_non_digits s) +:+ strip_non_digits t)
    with (String c (strip_non_digits s +:+ strip_non_digits t)).
  by rewrite IH.
Qed.

Lemma take_drop n s : take n s +:+ drop n s = s.
Proof.
  revert s. induction n as [|n IH]; intros [|c s]; try done.
  simpl. change (String c (take n s) +:+ drop n s)
    with (String c (take n s +:+ drop n s)). by rewrite IH.
Qed.

Lemma length_drop n s : String.length (drop n s) = (String.length s - n)%nat.
Proof.
  revert s. induction n as [|n IH]; intros [|c s]; simpl; auto with lia.
Qed.

Lemma length_slice_last k s :
  (k ≤ String.length s)%nat → String.length (slice_last k s) = k.
Proof. intros. unfold slice_last. rewrite length_drop. lia. Qed.

Lemma slice_last_suffix k s : ∃ front, s = front +:+ slice_last k s.
Proof. eexists. unfold slice_last. symmetry. apply take_drop. Qed.

Lemma startsWith_app p s : startsWith p s = true → p +:+ drop (String.length p) s = s.
Proof.
  revert s. induction p as [|a p IH]; intros s; [done|].
  destruct s as [|b s]; [done|]. simpl.
  destruct (Ascii.eqb_spec a b) as [->|]; [|done]. intros H.
  change (String b p +:+ drop (String.length p) s)
    with (String b (p +:+ drop (String.length p) s)). by rewrite IH.
Qed.

Lemma startsWith_prefix p s : startsWith p (p +:+ s) = true.
Proof.
  induction p as [|a p IH]; [done|].
  change (String a p +:+ s) with (String a (p +:+ s)). simpl.
  by rewrite Ascii.eqb_refl.
Qed.

Lemma drop_app p s : drop (String.length p) (p +:+ s) = s.
Proof. induction p as [|a p IH]; [by destruct s|]. exact IH. Qed.

End JsStringFacts.

(** ** Phone number normalisation *)

Example formatPhoneNumber_local :
  formatPhoneNumber "9876543210" = "919876543210".
Proof. reflexivity. Qed.

Example formatPhoneNumber_long :
  formatPhoneNumber "0091 98765 43210" = "919876543210".
Proof. reflexivity. Qed.

Example formatPhoneNumber_short : formatPhoneNumber "12-34" = "1234".
Proof. reflexivity. Qed.

(** On twelve digits that start with 91 the first and the third branch of
    [formatPhoneNumber] agree: the digits are 91 followed by their last ten. *)
Lemma slice_last_international digits :
  JsString.startsWith "91" digits = true → String.length digits = 12%nat →
  "91" +:+ JsString.slice_last 10 digits = digits.
Proof.
  intros H91 Hlen. unfold JsString.slice_last. rewrite Hlen.
  exact (JsStringFacts.startsWith_app "91" digits H91).
Qed.

(** C9.  [formatPhoneNumber] strips every character that is not a digit
    (the digits it works on are all digits, and a string of digits is left as
    it is) and then: twelve digits that start with 91 are returned
    unchanged; ten digits get 91 in front; more than ten digits are cut to
    their last ten, with 91 in front.  The three examples of the
    specification evaluate as stated. *)
Theorem formatPhoneNumber_cases (phone : string) :
  let digits := JsString.strip_non_digits phone in
  JsString.all JsString.is_digit digits = true ∧
  (JsString.all JsString.is_digit phone = true → digits = phone) ∧
  (JsString.startsWith "91" digits = true ∧ String.length digits = 12%nat →
   formatPhoneNumber phone = digits) ∧
  (String.length digits = 10%nat → formatPhoneNumber phone = "91" +:+ digits) ∧
  ((10 < String.length digits)%nat →
   ∃ front last10,
     digits = front +:+ last10 ∧ String.length last10 = 10%nat ∧
     formatPhoneNumber phone = "91" +:+ last10) ∧
  formatPhoneNumber "9876543210" = "919876543210" ∧
  formatPhoneNumber "919876543210" = "919876543210" ∧
  formatPhoneNumber "+91-98765-43210" = "919876543210".
Proof.
  intros digits. unfold formatPhoneNumber. fold digits.
  split; [apply JsStringFacts.all_strip_non_digits|].
  split; [apply JsStringFacts.strip_non_digits_id|].
  split.
  { intros [-> ->]. done. }
  split.
  { intros Hlen. rewrite Hlen. simpl. by rewrite andb_false_r. }
  split; [|done].
  intros Hlen.
  destruct (JsStringFacts.slice_last_suffix 10 digits) as [front Hfront].
  exists front, (JsString.slice_last 10 digits).
  split; [done|]. split; [apply JsStringFacts.length_slice_last; lia|].
  destruct (JsString.startsWith "91" digits
            && (String.length digits =? 12)%nat) eqn:Hintl.
  - apply andb_true_iff in Hintl as [H91 H12%Nat.eqb_eq].
    by rewrite slice_last_international.
  - destruct (String.length digits =? 10)%nat eqn:H10.
    { apply Nat.eqb_eq in H10. lia. }
    destruct (10 <=? String.length digits)%nat eqn:Hge; [done|].
    apply Nat.leb_gt in Hge. lia.
Qed.

Lemma formatPhoneNumber_cases_witness :
  formatPhoneNumber "919876543210" = "919876543210" ∧
  formatPhoneNumber "98765 43210" = "91" +:+ "9876543210" ∧
  ∃ front last10,
    "00919876543210" = front +:+ last10 ∧ String.length last10 = 10%nat ∧
    formatPhoneNumber "+00 91 98765 43210" = "91" +:+ last10.
Proof.
  split; [|split].
  - destruct (formatPhoneNumber_cases "919876543210") as (_ & _ & H & _).
    apply H. split; reflexivity.
  - destruct (formatPhoneNumber_cases "98765 43210") as (_ & _ & _ & H & _).
    apply H. reflexivity.
  - destruct (formatPhoneNumber_cases "+00 91 98765 43210")
      as (_ & _ & _ & _ & H & _).
    apply H. simpl. lia.
Defined.

(** C10.  When fewer than ten digits are left after stripping (none at all
    included), [formatPhoneNumber] returns just these digits: no prefix is
    added, and the result is shorter than the twelve characters of an
    international number. *)
Theorem formatPhoneNumber_short_input (phone : string) :
  (String.length (JsString.strip_non_digits phone) < 10)%nat →
  formatPhoneNumber phone = JsString.strip_non_digits phone ∧
  (String.length (formatPhoneNumber phone) < 12)%nat ∧
  formatPhoneNumber "" = "".
Proof.
  intros Hlen. unfold formatPhoneNumber.
  destruct (String.length (JsString.strip_non_digits phone) =? 12)%nat eqn:H12.
  { apply Nat.eqb_eq in H12. lia. }
  rewrite andb_false_r.
  destruct (String.length (JsString.strip_non_digits phone) =? 10)%nat eqn:H10.
  { apply Nat.eqb_eq in H10. lia. }
  destruct (10 <=? String.length (JsString.strip_non_digits phone))%nat eqn:Hge.
  { apply Nat.leb_le in Hge. lia. }
  split; [done|]. split; [lia|done].
Qed.

Lemma formatPhoneNumber_short_input_witness :
  formatPhoneNumber "12-34" = "1234" ∧
  (String.length (formatPhoneNumber "12-34") < 12)%nat ∧
  formatPhoneNumber "" = "".
Proof. apply (formatPhoneNumber_short_input "12-34"). simpl. lia. Defined.

(** ** The queue drain *)

Section Drain.
Variable send : nat -> SendResult.

Lemma set_messageQueue_same s : set_messageQueue (messageQueue s) s = s.
Proof. by destruct s. Qed.

Lemma sends_attempt c i m l :
  sends (attempt_effect send c i m :: l) = attempt_of send c i m :: sends l.
Proof. done. Qed.

Lemma sends_sleep ms l : sends (Sleep ms :: l) = sends l.
Proof. done. Qed.

Lemma attempts_shift c i m q :
  imap (fun t => attempt_of send c (i + t)) (m :: q)
  = attempt_of send c i m :: imap (fun t => attempt_of send c (S i + t)) q.
Proof.
  rewrite imap_cons, Nat.add_0_r. f_equal.
  apply imap_ext. intros t x _. simpl. f_equal. lia.
Qed.

(** The loop, started at iteration [i] on a ready session with at least
    [n] queued messages: it consumes [k] messages, none of them rate
    limited, and either completes ([k = n]) or stops at a rate-limited
    attempt, whose message stays at the front of the queue. *)
Lemma drain_loop_spec n :
  ∀ i s, isReady s = true → (n ≤ length (messageQueue s))%nat →
  ∃ k l,
    drain_loop n i send s
      = (set_messageQueue (drop k (messageQueue s)) s, l, true) ∧
    (k ≤ n)%nat ∧
    (∀ t, (t < k)%nat →
          rate_limited (sendMessage send (i + t) (client s)) = false) ∧
    ((k = n ∧
      sends l = imap (fun t => attempt_of send (client s) (i + t))
                  (take k (messageQueue s)))
     ∨ ((k < n)%nat ∧
        rate_limited (sendMessage send (i + k) (client s)) = true ∧
        sends l = imap (fun t => attempt_of send (client s) (i + t))
                    (take (S k) (messageQueue s)) ∧
        ∃ l0 m, messageQueue s !! k = Some m ∧
                l = l0 ++ [attempt_effect send (client s) (i + k) m;
                           Sleep 10000])).
Proof.
  induction n as [|n IH]; intros i s Hready Hlen.
  { exists O, []. split; [by rewrite <- (set_messageQueue_same s) at 1|].
    split; [lia|]. split; [intros; lia|]. by left. }
  simpl. rewrite Hready.
  destruct (messageQueue s) as [|m rest] eqn:Hq; [simpl in Hlen; lia|].
  simpl in Hlen.
  destruct (IH (S i) (set_messageQueue rest s))
    as (k & l & Hloop & Hk & Hpass & Hend); [done|simpl; lia|].
  simpl in Hloop, Hpass, Hend.
  change (ClientSendMessage (client s) _ (message m) _)
    with (attempt_effect send (client s) i m).
  destruct (rate_limited (sendMessage send i (client s))) eqn:Hrl.
  - (* rate limited: the message goes back to the front *)
    destruct (sendMessage send i (client s)) as [|e] eqn:Hsend; [done|].
    simpl in Hrl. rewrite Hrl.
    exists O, [attempt_effect send (client s) i m; Sleep 10000].
    split; [reflexivity|].
    split; [lia|]. split; [intros; lia|]. right.
    split; [lia|]. rewrite Nat.add_0_r, Hsend. split; [done|]. split.
    { simpl. unfold attempt_of. by rewrite Nat.add_0_r. }
    by exists [], m.
  - (* sent, or any other error: the message is gone, the loop goes on *)
    set (pace := match sendMessage send i (client s) with
                 | Sent => [Sleep 3000] | Threw _ => [] end).
    exists (S k), (attempt_effect send (client s) i m :: pace ++ l).
    assert (Hsends : ∀ l', sends (attempt_effect send (client s) i m :: pace ++ l')
              = attempt_of send (client s) i m :: sends l').
    { intros l'. rewrite sends_attempt. f_equal. unfold pace.
      by destruct (sendMessage send i (client s)). }
    split.
    { unfold pace. destruct (sendMessage send i (client s)) as [|e].
      - by rewrite Hloop.
      - simpl in Hrl. by rewrite Hrl, Hloop. }
    split; [lia|]. split.
    { intros [|t] Ht; [by rewrite Nat.add_0_r|].
      replace (i + S t)%nat with (S i + t)%nat by lia. apply Hpass. lia. }
    destruct Hend as [[-> Hs]|(Hlt & Hrl' & Hs & l0 & m' & Hm' & ->)].
    + left. split; [done|]. cbn [take].
      by rewrite attempts_shift, Hsends, Hs.
    + right. split; [lia|].
      replace (i + S k)%nat with (S i + k)%nat by lia.
      split; [done|]. split.
      { cbn [take]. by rewrite attempts_shift, Hsends, Hs. }
      exists (attempt_effect send (client s) i m :: pace ++ l0), m'.
      split; [done|]. simpl. f_equal. by rewrite app_assoc.
Qed.
End Drain.

Section DrainResult.
Variable send : nat -> SendResult.

Lemma drain_blocked_false s :
  drain_blocked s = false →
  isProcessingQueue s = false ∧ messageQueue s ≠ [] ∧ isReady s = true.
Proof.
  unfold drain_blocked. destruct (isProcessingQueue s), (isReady s),
    (messageQueue s); simpl; intros; try done.
Qed.

(** A drain that passes the guard: [k] messages leave the queue, in queue
    order, none of their attempts rate limited; either the whole batch was
    attempted, or the attempt for message [k] was rate limited, that
    message is still the first of the queue and the drain ended with the
    cooldown. *)
Lemma drain_spec s :
  drain_blocked s = false →
  let q := messageQueue s in
  let batchSize := Nat.min 5 (length q) in
  ∃ k l,
    drain send s = (set_messageQueue (drop k q) s, l) ∧
    (k ≤ batchSize)%nat ∧
    (∀ t, (t < k)%nat → rate_limited (sendMessage send t (client s)) = false) ∧
    ((k = batchSize ∧ sends l = imap (attempt_of send (client s)) (take k q))
     ∨ ((k < batchSize)%nat ∧
        rate_limited (sendMessage send k (client s)) = true ∧
        sends l = imap (attempt_of send (client s)) (take (S k) q) ∧
        ∃ l0 m, q !! k = Some m ∧
                l = l0 ++ [attempt_effect send (client s) k m; Sleep 10000])).
Proof.
  intros Hgo q batchSize. unfold drain, drain_enter. rewrite Hgo.
  destruct (drain_blocked_false s Hgo) as (Hflag & Hq & Hready).
  destruct (drain_loop_spec send batchSize O (set_isProcessingQueue true s))
    as (k & l & Hloop & Hk & Hpass & Hend); [done|simpl; subst batchSize q; lia|].
  subst batchSize q. simpl in *. rewrite Hloop.
  exists k, l. split; [|done].
  f_equal. destruct s; simpl in *. by subst.
Qed.
End DrainResult.

(** C1.  In a drain that passes the guard, let the attempt for the queued
    message number [j] of the batch throw, after [j] attempts that were not
    rate limited.  If the error is classified as rate limiting, the message
    is back at the front of the queue with every later message behind it in
    the old order, the drain made no further attempt and its last effect is
    the 10 second wait.  If it is any other error, the message has left the
    queue (the queue is a later suffix of the old one), it was attempted once
    and the attempt for the next message of the batch follows. *)
Theorem drain_send_failure (send : nat -> SendResult) (s : Session)
    (j : nat) (m : QueuedMessage) (e : string) :
  drain_blocked s = false →
  (j < Nat.min 5 (length (messageQueue s)))%nat →
  messageQueue s !! j = Some m →
  (∀ i, (i < j)%nat → rate_limited (sendMessage send i (client s)) = false) →
  sendMessage send j (client s) = Threw e →
  let q := messageQueue s in
  let s' := (drain send s).1 in
  let l := (drain send s).2 in
  (is_rate_limited e = true →
     messageQueue s' = m :: drop (S j) q ∧
     sends l = imap (attempt_of send (client s)) (take (S j) q) ∧
     (∃ l0, l = l0 ++ [attempt_effect send (client s) j m; Sleep 10000]) ∧
     isProcessingQueue s' = false)
  ∧
  (is_rate_limited e = false →
     ∃ k t, (j < k)%nat ∧ (j < t ≤ 5)%nat ∧
       messageQueue s' = drop k q ∧
       sends l = imap (attempt_of send (client s)) (take t q) ∧
       sends l !! j = Some (attempt_of send (client s) j m) ∧
       (∀ m', q !! S j = Some m' → (S j < Nat.min 5 (length q))%nat →
              sends l !! S j = Some (attempt_of send (client s) (S j) m')) ∧
       isProcessingQueue s' = false).
Proof.
  intros Hgo Hj Hm Hbefore Hsend q s' l.
  destruct (drain_spec send s Hgo) as (k & l' & Hd & Hk & Hpass & Hend).
  destruct (drain_blocked_false s Hgo) as (Hflag & _ & _).
  subst s' l. rewrite Hd. simpl. fold q in Hk, Hend, Hd, Hj, Hm |- *.
  assert (Hrlj : rate_limited (sendMessage send j (client s)) = is_rate_limited e)
    by (by rewrite Hsend).
  split; intros Hrl; rewrite Hrl in Hrlj.
  - (* the drain stopped exactly at [j] *)
    assert (k = j) as ->.
    { destruct Hend as [[-> _]|(Hlt & Hrlk & _)].
      - rewrite Hpass in Hrlj by lia. done.
      - destruct (decide (k < j)%nat) as [Hkj|Hkj].
        + rewrite Hbefore in Hrlk by done. done.
        + destruct (decide (j < k)%nat) as [Hjk|Hjk]; [|lia].
          rewrite Hpass in Hrlj by done. done. }
    destruct Hend as [[-> _]|(_ & _ & Hs & l0 & m0 & Hm0 & ->)]; [lia|].
    assert (m0 = m) as -> by congruence.
    split; [by apply drop_S|]. split; [done|]. split; [by exists l0|done].
  - (* the drain went past [j] *)
    assert (Hjk : (j < k)%nat).
    { destruct (decide (j < k)%nat) as [|Hn]; [done|].
      destruct Hend as [[-> _]|(_ & Hrlk & _)]; [lia|].
      destruct (decide (k = j)) as [->|]; [congruence|].
      rewrite Hbefore in Hrlk by lia. done. }
    assert (Hlook : ∀ t i x, (i < t)%nat → q !! i = Some x →
              imap (attempt_of send (client s)) (take t q) !! i
              = Some (attempt_of send (client s) i x)).
    { intros t i x Hi Hx. by rewrite list_lookup_imap, lookup_take_lt, Hx. }
    destruct Hend as [[-> Hs]|(Hlt & _ & Hs & _)].
    + exists (Nat.min 5 (length q)), (Nat.min 5 (length q)).
      split; [done|]. split; [lia|]. split; [done|]. split; [done|].
      rewrite Hs. split; [by apply Hlook|]. split; [|done].
      intros m' Hm' Hnext. by apply Hlook.
    + exists k, (S k). split; [done|]. split; [lia|]. split; [done|].
      split; [done|]. rewrite Hs. split; [apply Hlook; [lia|done]|].
      split; [|done]. intros m' Hm' Hnext. apply Hlook; [lia|done].
Qed.

Lemma drain_send_failure_witness :
  (messageQueue (drain Sample.throttled Sample.busy).1
     = [Sample.msg "b"; Sample.msg "c"] ∧
   ∃ l0, (drain Sample.throttled Sample.busy).2
         = l0 ++ [attempt_effect Sample.throttled (Some O) 1 (Sample.msg "b");
                  Sleep 10000]) ∧
  ∃ k t, (1 < k)%nat ∧ (1 < t ≤ 5)%nat ∧
    messageQueue (drain Sample.unreachable Sample.busy).1
      = drop k [Sample.msg "a"; Sample.msg "b"; Sample.msg "c"] ∧
    sends (drain Sample.unreachable Sample.busy).2 !! 2%nat
      = Some (attempt_of Sample.unreachable (Some O) 2 (Sample.msg "c")).
Proof.
  split.
  - destruct (drain_send_failure Sample.throttled Sample.busy 1 (Sample.msg "b")
                "Evaluation failed: rate-overlimit") as [Hrate _].
    + reflexivity.
    + simpl. lia.
    + reflexivity.
    + intros [|i] Hi; [reflexivity|lia].
    + reflexivity.
    + destruct Hrate as (Hq & _ & Hl & _); [reflexivity|]. by split.
  - destruct (drain_send_failure Sample.unreachable Sample.busy 1 (Sample.msg "b")
                "Evaluation failed: invalid wid") as [_ Hother].
    + reflexivity.
    + simpl. lia.
    + reflexivity.
    + intros [|i] Hi; [reflexivity|lia].
    + reflexivity.
    + destruct Hother as (k & t & Hk & Ht & Hq & _ & _ & Hnext & _);
        [reflexivity|].
      exists k, t. split; [done|]. split; [done|]. split; [done|].
      apply Hnext; [reflexivity|simpl; lia].
Defined.

(** ** Client initialisation *)

Example exhausting_run : heap (run Sample.exhausting) = [Sample.parked].
Proof. vm_compute. reflexivity. Qed.

(** The reset route does not touch the counter: after a reset of the
    exhausted session the timer of the reset gives up again. *)
Example reset_keeps_counter :
  (λ s, (status s, reconnectAttempts s, client s))
    <$> heap (foldl step (run Sample.exhausting)
                [OpReset 0 Sample.token false; OpTimer 0])
  = [(max_attempts_reached, 7, None)].
Proof. vm_compute. reflexivity. Qed.

(** C2, as stated, fails: on a session whose attempts are exhausted (six
    attempts against a budget of five, status [max_attempts_reached], no
    client) [initializeClient] still counts the call. *)
Lemma initializeClient_exhausted_counts :
  let w := run Sample.exhausting in
  ∃ r s s',
    sessions w !! "firm_acme" = Some r ∧ heap w !! r = Some s ∧
    client s = None ∧ status s = max_attempts_reached ∧
    maxReconnectAttempts s < reconnectAttempts s ∧
    heap (initializeClient "firm_acme" w) !! r = Some s' ∧
    reconnectAttempts s' ≠ reconnectAttempts s ∧
    initializeClient "firm_acme" w ≠ w.
Proof.
  eexists O, _, _. split; [by vm_compute|]. split; [by vm_compute|].
  split; [done|]. split; [done|]. split; [done|].
  split; [by vm_compute|]. split; [done|].
  intros Heq. apply (f_equal heap) in Heq. vm_compute in Heq. discriminate.
Qed.

(** C2, amended.  [initializeClient] changes nothing when the key has no
    session or the session has a client.  Otherwise it always adds one to
    [reconnectAttempts]; when the new count exceeds
    [maxReconnectAttempts] the status is [max_attempts_reached], no client
    is constructed and nothing else changes (on a session already in that
    state only the counter moves); when it does not, the status is
    [initializing] and a new client is constructed, bound to the tenant's
    credential path, and initialised. *)
Theorem initializeClient_cases (w : World) (sessionKey : string) :
  (sessions w !! sessionKey = None → initializeClient sessionKey w = w) ∧
  ∀ r s,
    sessions w !! sessionKey = Some r → heap w !! r = Some s →
    let w' := initializeClient sessionKey w in
    let attempts := reconnectAttempts s + 1 in
    (is_Some (client s) → w' = w) ∧
    (client s = None → maxReconnectAttempts s < attempts →
       w' = with_heap
              (<[r := set_status max_attempts_reached
                        (set_reconnectAttempts attempts s)]> (heap w)) w ∧
       (status s = max_attempts_reached →
        w' = with_heap (<[r := set_reconnectAttempts attempts s]> (heap w)) w)) ∧
    (client s = None → attempts ≤ maxReconnectAttempts s →
       let c := length (clients w) in
       heap w' = <[r := set_client (Some c)
                          (set_reconnectAttempts attempts
                             (set_status initializing s))]> (heap w) ∧
       sessions w' = sessions w ∧
       clients w' = clients w ++ [(sessionKey, r)] ∧
       timers w' = timers w ∧
       effects w' = effects w ++
         [NewClient c ("./whatsapp-session-firm-" +:+ firmId s);
          ClientInitialize c]).
Proof.
  split; [by intros Hnone; unfold initializeClient; rewrite Hnone|].
  intros r s Hr Hs w' attempts. subst w'. unfold initializeClient.
  rewrite Hr, Hs. split; [by intros [c ->]|].
  assert (Halter : ∀ s', alter (λ _, s') r (heap w) = <[r := s']> (heap w)).
  { intros s'. apply list_eq. intros i.
    destruct (decide (i = r)) as [->|Hne].
    - rewrite list_lookup_alter_eq, Hs. simpl.
      by rewrite list_lookup_insert_eq by (by eapply lookup_lt_Some).
    - by rewrite list_lookup_alter_ne, list_lookup_insert_ne. }
  split; intros Hc Hcmp; rewrite Hc; unfold begin_initialize; simpl;
    fold attempts.
  - destruct (maxReconnectAttempts s <? attempts) eqn:Hlt;
      [|apply Z.ltb_ge in Hlt; lia].
    unfold modify. rewrite Halter. split; [done|].
    intros Hst. do 2 f_equal. destruct s; simpl in *. by subst.
  - destruct (maxReconnectAttempts s <? attempts) eqn:Hlt;
      [apply Z.ltb_lt in Hlt; lia|].
    simpl. by rewrite Halter.
Qed.


Lemma initializeClient_cases_witness :
  let w := run Sample.exhausting in
  let w1 := run [OpStatus 0 Sample.token] in
  initializeClient "firm_zeta" w = w ∧
  initializeClient "firm_acme" w
    = with_heap (<[O := set_reconnectAttempts 7 Sample.parked]> (heap w)) w ∧
  effects (initializeClient "firm_acme" w1)
    = effects w1 ++ [NewClient 0 "./whatsapp-session-firm-acme";
                     ClientInitialize 0].
Proof.
  intros w w1. split; [|split].
  - destruct (initializeClient_cases w "firm_zeta") as [Hnone _].
    apply Hnone. vm_compute. reflexivity.
  - destruct (initializeClient_cases w "firm_acme") as [_ Hsome].
    destruct (Hsome O Sample.parked) as (_ & Hgiveup & _).
    + vm_compute. reflexivity.
    + vm_compute. reflexivity.
    + destruct Hgiveup as [_ Hparked]; [reflexivity|reflexivity|].
      apply Hparked. reflexivity.
  - destruct (initializeClient_cases w1 "firm_acme") as [_ Hsome].
    destruct (Hsome O (fresh_session "acme" 0)) as (_ & _ & Hbuild).
    + vm_compute. reflexivity.
    + vm_compute. reflexivity.
    + destruct Hbuild as (_ & _ & _ & _ & Heff); [reflexivity|simpl; lia|].
      exact Heff.
Defined.

(** ** Steps frame the session objects *)

Section Evolution.

Lemma framed_refl s : framed s s.
Proof. done. Qed.

Lemma framed_trans s1 s2 s3 : framed s1 s2 → framed s2 s3 → framed s1 s3.
Proof. unfold framed. intros (-> & -> & ?) (-> & -> & ?). auto. Qed.

(** An update that leaves tenant, persistence mark, status and readiness
    alone, or moves the status to one that carries no obligation. *)
Lemma framed_status s s' :
  firmId s' = firmId s → isPersistent s' = isPersistent s →
  (status s' = status s ∧ isReady s' = isReady s)
  ∨ (status s' ≠ ready ∧ status s' ≠ manually_disconnected) →
  framed s s'.
Proof.
  intros Hf Hp Hst. split; [done|]. split; [done|]. unfold good.
  rewrite Hp. destruct Hst as [[-> ->]|[? ?]]; [done|]. by split.
Qed.

Lemma evolves_refl w : evolves unmarked w w.
Proof.
  split; [|split; [|split; [|split]]]; naive_solver.
Qed.

(** Only the objects, the registry and the closures matter. *)
Lemma evolves_ext mark w w1 w2 :
  heap w2 = heap w1 → sessions w2 = sessions w1 → clients w2 = clients w1 →
  evolves mark w w1 → evolves mark w w2.
Proof. unfold evolves. by intros -> -> ->. Qed.

Lemma evolves_marked mark1 mark2 w w1 w2 :
  evolves mark1 w w1 → evolves mark2 w1 w2 →
  evolves (fun r => match mark2 r with Some b => Some b | None => mark1 r end)
    w w2.
Proof.
  intros (Hold1 & Hnew1 & Hmk1 & Hreg1 & Hcl1) (Hold2 & Hnew2 & Hmk2 & Hreg2 & Hcl2).
  split; [|split; [|split; [|split]]].
  - intros r s Hs. destruct (Hold1 r s Hs) as (s1 & Hs1 & Hf1 & Hp1 & Hg1).
    destruct (Hold2 r s1 Hs1) as (s2 & Hs2 & Hf2 & Hp2 & Hg2).
    exists s2. split; [done|]. split; [congruence|]. split; [|auto].
    rewrite Hp2, Hp1. by destruct (mark2 r).
  - intros r s2 Hnone Hs2. destruct (heap w1 !! r) as [s1|] eqn:Hs1.
    + destruct (Hnew1 r s1 Hnone Hs1) as [Hp1 Hg1].
      destruct (Hold2 r s1 Hs1) as (s2' & Hs2' & _ & Hp2 & Hg2).
      assert (s2' = s2) as -> by congruence.
      split; [|auto]. rewrite Hp2, Hp1. by destruct (mark2 r).
    + destruct (Hnew2 r s2 Hs1 Hs2) as [Hp2 Hg2]. split; [|done].
      rewrite Hp2. destruct (mark2 r) as [b|]; [done|].
      destruct (mark1 r) as [b|] eqn:Hm1; [|done].
      destruct (Hmk1 r b Hm1) as [? ?]. congruence.
  - intros r b Hm. destruct (mark2 r) as [b2|] eqn:Hm2; [by eapply Hmk2|].
    destruct (Hmk1 r b Hm) as [s1 Hs1].
    destruct (Hold2 r s1 Hs1) as (s2 & Hs2 & _). by exists s2.
  - intros k r Hk. destruct (Hreg2 k r Hk) as [Hk1|(Hnone1 & s2 & Hs2 & ->)].
    + destruct (Hreg1 k r Hk1) as [?|(Hnone & s1 & Hs1 & ->)]; [by left|].
      right. split; [done|].
      destruct (Hold2 r s1 Hs1) as (s2 & Hs2 & Hf2 & _).
      exists s2. by rewrite Hf2.
    + right. split; [|by exists s2].
      destruct (heap w !! r) as [s|] eqn:Hs; [|done].
      destruct (Hold1 r s Hs) as (s1 & Hs1 & _). congruence.
  - intros c k r Hc. destruct (Hcl2 c k r Hc) as [Hc1|?]; [|by right].
    destruct (Hcl1 c k r Hc1) as [?|[s1 Hs1]]; [by left|]. right.
    destruct (Hold2 r s1 Hs1) as (s2 & Hs2 & _). by exists s2.
Qed.

Lemma evolves_trans w w1 w2 :
  evolves unmarked w w1 → evolves unmarked w1 w2 → evolves unmarked w w2.
Proof. intros H1 H2. exact (evolves_marked _ _ _ _ _ H1 H2). Qed.

Lemma evolves_then mark w w1 w2 :
  evolves mark w w1 → evolves unmarked w1 w2 → evolves mark w w2.
Proof. intros H1 H2. exact (evolves_marked _ _ _ _ _ H1 H2). Qed.

Lemma evolves_after mark w w1 w2 :
  evolves unmarked w w1 → evolves mark w1 w2 → evolves mark w w2.
Proof.
  intros H1 H2. pose proof (evolves_marked _ _ _ _ _ H1 H2) as H.
  destruct H as (Hold & Hnew & Hmk & Hreg & Hcl).
  split; [|split; [|split; [|split]]]; try done.
  - intros r s Hs. destruct (Hold r s Hs) as (s' & ? & ? & Hp & ?).
    exists s'. unfold unmarked in Hp. by destruct (mark r).
  - intros r s' Hnone Hs'. destruct (Hnew r s' Hnone Hs') as [Hp ?].
    unfold unmarked in Hp. by destruct (mark r).
  - intros r b Hm. apply (Hmk r b). by rewrite Hm.
Qed.

Lemma evolves_Inv mark w w' : Inv w → evolves mark w w' → Inv w'.
Proof.
  intros (Hreg & Hcl & Hgood) (Hold & Hnew & _ & Hreg' & Hcl').
  split; [|split].
  - intros k r Hk. destruct (Hreg' k r Hk) as [Hk0|(_ & s' & ? & ?)];
      [|by exists s'].
    destruct (Hreg k r Hk0) as (s & Hs & ->).
    destruct (Hold r s Hs) as (s' & Hs' & Hf & _). exists s'. by rewrite Hf.
  - intros c k r Hc. destruct (Hcl' c k r Hc) as [Hc0|?]; [|done].
    destruct (Hcl c k r Hc0) as [s Hs].
    destruct (Hold r s Hs) as (s' & Hs' & _). by exists s'.
  - intros r s' Hs'. destruct (heap w !! r) as [s|] eqn:Hs.
    + destruct (Hold r s Hs) as (s'' & Hs'' & _ & _ & Hg).
      assert (s'' = s') as -> by congruence. eauto.
    + by destruct (Hnew r s' Hs Hs').
Qed.

End Evolution.

Section Primitives.

Lemma evolves_modify_at w r f :
  (∀ s, heap w !! r = Some s → framed s (f s)) →
  evolves unmarked w (modify r f w).
Proof.
  intros Hf. split; [|split; [|split; [|split]]]; simpl.
  - intros r0 s Hs. destruct (decide (r0 = r)) as [->|Hne].
    + exists (f s). rewrite list_lookup_alter_eq, Hs.
      destruct (Hf s Hs) as (? & ? & ?). done.
    + exists s. by rewrite list_lookup_alter_ne.
  - intros r0 s' Hnone Hs'. destruct (decide (r0 = r)) as [->|Hne].
    + by rewrite list_lookup_alter_eq, Hnone in Hs'.
    + rewrite list_lookup_alter_ne in Hs' by done. congruence.
  - done.
  - by left.
  - by left.
Qed.

Lemma evolves_modify w r f :
  (∀ s, framed s (f s)) → evolves unmarked w (modify r f w).
Proof. intros Hf. apply evolves_modify_at. auto. Qed.

Lemma evolves_alloc s0 w :
  isPersistent s0 = false → good s0 →
  evolves unmarked w
    (with_sessions (<[session_key (firmId s0) := length (heap w)]> (sessions w))
       (with_heap (heap w ++ [s0]) w)).
Proof.
  intros Hp Hg. split; [|split; [|split; [|split]]]; simpl.
  - intros r s Hs. exists s. split; [by apply lookup_app_l_Some|done].
  - intros r s' Hnone Hs'. apply lookup_ge_None in Hnone.
    apply lookup_app_Some in Hs' as [Hs'|[_ Hs']].
    + apply lookup_lt_Some in Hs'. lia.
    + apply list_lookup_singleton_Some in Hs' as [_ <-]. done.
  - done.
  - intros k r Hk. destruct (decide (k = session_key (firmId s0))) as [->|Hne].
    + rewrite lookup_insert_eq in Hk. injection Hk as <-. right.
      split; [by apply lookup_ge_None|]. exists s0. split; [|done].
      by rewrite lookup_app_r, Nat.sub_diag.
    + rewrite lookup_insert_ne in Hk by done. by left.
  - by left.
Qed.

Lemma evolves_delete k w :
  evolves unmarked w (with_sessions (delete k (sessions w)) w).
Proof.
  split; [|split; [|split; [|split]]]; simpl; try naive_solver.
  intros k0 r Hk. left. apply lookup_delete_Some in Hk. tauto.
Qed.

Lemma evolves_closure k r w :
  is_Some (heap w !! r) →
  evolves unmarked w (with_clients (clients w ++ [(k, r)]) w).
Proof.
  intros Hr. split; [|split; [|split; [|split]]]; simpl; try naive_solver.
  intros c k0 r0 Hc. apply lookup_app_Some in Hc as [?|[_ Hc]]; [by left|].
  apply list_lookup_singleton_Some in Hc as [_ [= <- <-]]. by right.
Qed.

Lemma evolves_emit mark es w w' :
  evolves mark w w' → evolves mark w (emit es w').
Proof. by apply evolves_ext. Qed.

Lemma evolves_schedule mark t ms w w' :
  evolves mark w w' → evolves mark w (schedule t ms w').
Proof. by apply evolves_ext. Qed.

Lemma evolves_with_timers mark ts w w' :
  evolves mark w w' → evolves mark w (with_timers ts w').
Proof. by apply evolves_ext. Qed.

Lemma evolves_save mark w w' :
  evolves mark w w' → evolves mark w (savePersistedSessions w').
Proof. by apply evolves_ext. Qed.

End Primitives.

Section FramedFunctions.

Local Ltac kept := apply framed_status; simpl; auto.

Local Ltac chain lem := eapply evolves_trans; [apply lem|].

Lemma getOrCreateSession_evolves now f w :
  evolves unmarked w (getOrCreateSession now f w).2.
Proof.
  unfold getOrCreateSession. case_bool_decide; [apply evolves_refl|].
  destruct (sessions w !! session_key f) as [r|] eqn:Hk; simpl.
  - rewrite Hk. simpl. apply evolves_modify. intros s. kept.
  - rewrite lookup_insert_eq. simpl.
    chain (evolves_alloc (fresh_session f now)); [done|done|].
    apply evolves_modify. intros s. kept.
Qed.

Lemma getSession_evolves now sessionId w :
  evolves unmarked w (getSession now sessionId w).2.
Proof.
  unfold getSession. destruct (firmMatch sessionId);
    [apply getOrCreateSession_evolves|apply evolves_refl].
Qed.

Lemma begin_initialize_framed s : framed s (begin_initialize s).1.
Proof.
  unfold begin_initialize. simpl.
  destruct (maxReconnectAttempts s <? reconnectAttempts s + 1); kept.
Qed.

Lemma initializeClient_evolves sessionKey w :
  evolves unmarked w (initializeClient sessionKey w).
Proof.
  unfold initializeClient.
  destruct (sessions w !! sessionKey) as [r|]; [|apply evolves_refl].
  destruct (heap w !! r) as [s|] eqn:Hs; [|apply evolves_refl].
  destruct (client s); [apply evolves_refl|].
  pose proof (begin_initialize_framed s) as Hf.
  destruct (begin_initialize s) as [s1 [|]]; simpl in Hf.
  - apply evolves_emit.
    eapply evolves_trans.
    + apply (evolves_modify_at w r (λ _, set_client (Some (length (clients w))) s1)).
      intros s0 Hs0. assert (s0 = s) as -> by congruence.
      eapply framed_trans; [exact Hf|]. kept.
    + apply (evolves_closure sessionKey r
               (modify r (λ _, set_client (Some (length (clients w))) s1) w)).
      simpl. rewrite list_lookup_alter_eq, Hs. by eexists.
  - apply evolves_modify_at. intros s0 Hs0. by assert (s0 = s) as -> by congruence.
Qed.

Lemma drain_loop_kept send n :
  ∀ i s s', s' = (drain_loop n i send s).1.1 →
    firmId s' = firmId s ∧ isPersistent s' = isPersistent s ∧
    status s' = status s ∧ isReady s' = isReady s.
Proof.
  induction n as [|n IH]; intros i s s' ->; [done|]. simpl.
  destruct (isReady s) eqn:Hready; [|done].
  destruct (messageQueue s) as [|m rest]; [done|].
  specialize (IH (S i) (set_messageQueue rest s) _ eq_refl). simpl in IH.
  rewrite Hready in IH.
  destruct (sendMessage send i (client s)) as [|e].
  - by destruct (drain_loop n (S i) send (set_messageQueue rest s)) as [[? ?] ?].
  - destruct (is_rate_limited e); [done|].
    by destruct (drain_loop n (S i) send (set_messageQueue rest s)) as [[? ?] ?].
Qed.

Lemma drain_framed send s : framed s (drain send s).1.
Proof.
  unfold drain, drain_enter. destruct (drain_blocked s); [apply framed_refl|].
  pose proof (drain_loop_kept send
    (Nat.min 5 (length (messageQueue (set_isProcessingQueue true s)))) 0
    (set_isProcessingQueue true s) _ eq_refl) as Hk.
  destruct (drain_loop _ _ _ _) as [[s1 l] ok]. simpl in Hk.
  destruct Hk as (? & ? & ? & ?). destruct ok; kept.
Qed.

Lemma processMessageQueue_evolves sessionKey send w :
  evolves unmarked w (processMessageQueue sessionKey send w).
Proof.
  unfold processMessageQueue.
  destruct (sessions w !! sessionKey) as [r|]; [|apply evolves_refl].
  destruct (heap w !! r) as [s|] eqn:Hs; [|apply evolves_refl].
  pose proof (drain_framed send s) as Hf.
  destruct (drain send s) as [s1 l]. apply evolves_emit.
  apply evolves_modify_at. intros s0 Hs0. by assert (s0 = s) as -> by congruence.
Qed.

Lemma on_session_evolves w res k :
  evolves unmarked w res.2 →
  (∀ r s, res.1 = Some r → heap res.2 !! r = Some s →
          evolves unmarked res.2 (k r s res.2)) →
  evolves unmarked w (on_session res k).
Proof.
  intros Hres Hk. unfold on_session. destruct res.1 as [r|]; [|done].
  destruct (heap res.2 !! r) as [s|] eqn:Hs; [|done].
  eapply evolves_trans; [exact Hres|]. by apply Hk.
Qed.

Lemma route_status_evolves now sessionId w :
  evolves unmarked w (route_status now sessionId w).
Proof. apply getSession_evolves. Qed.

Lemma route_qr_evolves now sessionId w :
  evolves unmarked w (route_qr now sessionId w).
Proof.
  apply on_session_evolves; [apply getSession_evolves|].
  intros r s _ _. destruct (client s);
    [apply evolves_refl|apply initializeClient_evolves].
Qed.

Lemma destroy_client_evolves r c dt w :
  evolves unmarked w (destroy_client r c dt w).
Proof.
  unfold destroy_client. destruct dt; [apply evolves_emit, evolves_refl|].
  chain (evolves_emit unmarked [ClientDestroy c] w w); [apply evolves_refl|].
  apply evolves_modify. intros s. kept.
Qed.

Lemma route_reset_evolves now sessionId dt w :
  evolves unmarked w (route_reset now sessionId dt w).
Proof.
  apply on_session_evolves; [apply getSession_evolves|].
  intros r s _ _. apply evolves_schedule.
  destruct (client s).
  - eapply evolves_trans; [|apply destroy_client_evolves].
    apply evolves_modify; intros s0; kept.
  - apply evolves_modify; intros s0; kept.
Qed.

Lemma route_send_evolves now sessionId v ms send w :
  evolves unmarked w (route_send now sessionId v ms send w).
Proof.
  unfold route_send. destruct ms as [|m ms]; [apply evolves_refl|].
  apply on_session_evolves; [apply getSession_evolves|].
  intros r s _ _. destruct (isReady s); [|apply evolves_refl].
  eapply evolves_trans; [|apply processMessageQueue_evolves].
  apply evolves_modify; intros s0; kept.
Qed.

Lemma route_clear_queue_evolves now sessionId w :
  evolves unmarked w (route_clear_queue now sessionId w).
Proof.
  apply on_session_evolves; [apply getSession_evolves|].
  intros r s _ _. apply evolves_modify. intros s0. kept.
Qed.

Lemma fire_timer_evolves i w : evolves unmarked w (fire_timer i w).
Proof.
  unfold fire_timer. destruct (timers w !! i) as [t|]; [|apply evolves_refl].
  eapply evolves_trans; [apply evolves_with_timers, evolves_refl|].
  destruct t as [k|k r]; simpl; [apply initializeClient_evolves|].
  destruct (sessions w !! k); [|apply evolves_refl].
  destruct (heap w !! r) as [s|]; [|apply evolves_refl].
  case_bool_decide; [apply evolves_refl|apply initializeClient_evolves].
Qed.

End FramedFunctions.

Section MarkedSteps.

Local Ltac kept := apply framed_status; simpl; auto.

Lemma evolves_mark_ext m1 m2 w w' :
  (∀ r, m1 r = m2 r) → evolves m1 w w' → evolves m2 w w'.
Proof.
  intros Hm (Hold & Hnew & Hmk & Hreg & Hcl).
  split; [|split; [|split; [|split]]]; try done.
  - intros r s Hs. rewrite <- Hm. eauto.
  - intros r s' Hnone Hs'. rewrite <- Hm. eauto.
  - intros r b. rewrite <- Hm. eauto.
Qed.

(** One object gets a new content, with the mark the content says. *)
Lemma evolves_mark_one w r s s' :
  heap w !! r = Some s → firmId s' = firmId s → good s' →
  evolves (λ r0, if bool_decide (r = r0) then Some (isPersistent s') else None)
    w (modify r (λ _, s') w).
Proof.
  intros Hs Hf Hg. split; [|split; [|split; [|split]]]; simpl.
  - intros r0 s0 Hs0. case_bool_decide as Hr; [subst r0|].
    + exists s'. rewrite list_lookup_alter_eq, Hs. simpl.
      assert (s0 = s) as -> by congruence. done.
    + exists s0. by rewrite list_lookup_alter_ne.
  - intros r0 s0 Hnone Hs0. case_bool_decide as Hr; [subst r0|].
    + congruence.
    + rewrite list_lookup_alter_ne in Hs0 by done. congruence.
  - intros r0 b. case_bool_decide as Hr; [subst r0|done]. intros _.
    rewrite list_lookup_alter_eq, Hs. by eexists.
  - by left.
  - by left.
Qed.

(** A restored object enters the heap and the registry. *)
Lemma evolves_alloc_marked s0 w :
  good s0 →
  evolves (λ r, if bool_decide (r = length (heap w))
                then Some (isPersistent s0) else None) w
    (with_sessions (<[session_key (firmId s0) := length (heap w)]> (sessions w))
       (with_heap (heap w ++ [s0]) w)).
Proof.
  intros Hg. split; [|split; [|split; [|split]]]; simpl.
  - intros r s Hs. exists s. split; [by apply lookup_app_l_Some|].
    case_bool_decide as Hr; [|done]. apply lookup_lt_Some in Hs. lia.
  - intros r s' Hnone Hs'. apply lookup_ge_None in Hnone.
    apply lookup_app_Some in Hs' as [Hs'|[_ Hs']].
    + apply lookup_lt_Some in Hs'. lia.
    + apply list_lookup_singleton_Some in Hs' as [Hr <-].
      case_bool_decide; [done|lia].
  - intros r b. case_bool_decide as Hr; [subst r|done]. intros _.
    rewrite lookup_app_r, Nat.sub_diag by done. by eexists.
  - intros k r Hk. destruct (decide (k = session_key (firmId s0))) as [->|Hne].
    + rewrite lookup_insert_eq in Hk. injection Hk as <-. right.
      split; [by apply lookup_ge_None|]. exists s0. split; [|done].
      by rewrite lookup_app_r, Nat.sub_diag.
    + rewrite lookup_insert_ne in Hk by done. by left.
  - by left.
Qed.

Lemma evolves_length mark w w' :
  evolves mark w w' → (length (heap w) ≤ length (heap w'))%nat.
Proof.
  intros (Hold & _). destruct (decide (length (heap w) ≤ length (heap w'))%nat)
    as [|Hn]; [done|].
  destruct (lookup_lt_is_Some_2 (heap w) (length (heap w'))) as [s Hs]; [lia|].
  destruct (Hold _ s Hs) as (s' & Hs' & _). apply lookup_lt_Some in Hs'. lia.
Qed.

Lemma restored_session_good f sd now : good (restored_session f sd now).
Proof. by split. Qed.

Lemma restore_entry_evolves now w e :
  evolves (λ r, if bool_decide (length (heap w) ≤ r
                                < length (heap (restore_entry now w e)))%nat
                then Some true else None) w (restore_entry now w e).
Proof.
  unfold restore_entry. destruct (restorable e.2).
  - apply evolves_schedule.
    eapply evolves_mark_ext;
      [|exact (evolves_alloc_marked (restored_session e.1 e.2 now) w
                 (restored_session_good e.1 e.2 now))].
    intros r. cbn [heap schedule emit with_effects with_timers with_sessions
                   with_heap isPersistent restored_session].
    rewrite length_app. simpl.
    repeat case_bool_decide; try done; lia.
  - eapply evolves_mark_ext; [|apply evolves_refl].
    intros r. case_bool_decide; [lia|done].
Qed.

Lemma loadPersistedSessions_evolves now file w :
  evolves (marks true w (OpLoad now file)) w (loadPersistedSessions now file w).
Proof.
  unfold marks. simpl. destruct file as [entries|]; simpl.
  2: { eapply evolves_mark_ext; [|apply evolves_refl].
       intros r. case_bool_decide; [lia|done]. }
  revert w. induction entries as [|e entries IH]; intros w; simpl.
  { eapply evolves_mark_ext; [|apply evolves_refl].
    intros r. case_bool_decide; [lia|done]. }
  pose proof (restore_entry_evolves now w e) as H1.
  pose proof (IH (restore_entry now w e)) as H2.
  pose proof (evolves_length _ _ _ H1). pose proof (evolves_length _ _ _ H2).
  eapply evolves_mark_ext; [|exact (evolves_marked _ _ _ _ _ H1 H2)].
  intros r. simpl. repeat case_bool_decide; try done; lia.
Qed.

Lemma client_event_evolves c now ev w :
  ev ≠ EvReady → evolves unmarked w (client_event c now ev w).
Proof.
  intros Hev. unfold client_event.
  destruct (clients w !! c) as [[k r]|]; [|apply evolves_refl].
  destruct (heap w !! r) as [s|] eqn:Hs; [|apply evolves_refl].
  assert (Hset : ∀ s', framed s s' → evolves unmarked w (modify r (λ _, s') w)).
  { intros s' Hf. apply evolves_modify_at. intros s0 Hs0.
    by assert (s0 = s) as -> by congruence. }
  destruct ev as [qr [url|]| | |msg|reason]; try done;
    try (apply Hset; kept).
  unfold on_disconnected. simpl.
  destruct (isPersistent s); simpl.
  - apply evolves_schedule, Hset. kept.
  - destruct (negb _ && negb _); [apply evolves_schedule|]; apply Hset; kept.
Qed.

Lemma on_ready_good now s : good (on_ready now s).
Proof. by split. Qed.

Lemma client_ready_evolves b c now w :
  closures_valid w →
  evolves (marks b w (OpClientEvent c now EvReady)) w
    (client_event c now EvReady w).
Proof.
  intros Hcl. unfold marks, client_event.
  destruct (clients w !! c) as [[k r]|] eqn:Hc; [|apply evolves_refl].
  destruct (Hcl c k r Hc) as [s Hs]. rewrite Hs.
  apply evolves_save.
  exact (evolves_mark_one w r s (on_ready now s) Hs eq_refl (on_ready_good now s)).
Qed.

Lemma getOrCreateSession_registered now f w r :
  (getOrCreateSession now f w).1 = Some r →
  sessions (getOrCreateSession now f w).2 !! session_key f = Some r.
Proof.
  unfold getOrCreateSession. case_bool_decide; [done|].
  destruct (sessions w !! session_key f) as [r0|] eqn:Hk; simpl.
  - rewrite Hk. simpl. by intros [= <-].
  - rewrite lookup_insert_eq. simpl. intros [= <-]. by rewrite lookup_insert_eq.
Qed.

Lemma getSession_allocated now sessionId w r :
  Inv w → (getSession now sessionId w).1 = Some r →
  is_Some (heap (getSession now sessionId w).2 !! r).
Proof.
  intros Hinv Hr.
  destruct (evolves_Inv _ _ _ Hinv (getSession_evolves now sessionId w))
    as (Hreg & _).
  unfold getSession in *. destruct (firmMatch sessionId) as [f|]; [|done].
  apply getOrCreateSession_registered in Hr.
  destruct (Hreg _ _ Hr) as (s & Hs & _). by exists s.
Qed.

Lemma unlink_good s : good (unlink s).
Proof. by split. Qed.

Lemma route_disconnect_evolves b now sessionId lt dt w :
  Inv w →
  evolves (marks b w (OpDisconnect now sessionId lt dt)) w
    (route_disconnect now sessionId lt dt w).
Proof.
  intros Hinv. unfold marks, route_disconnect, on_session.
  pose proof (getSession_evolves now sessionId w) as Hget.
  pose proof (getSession_allocated now sessionId w) as Halloc.
  destruct (getSession now sessionId w) as [[r|] w1]; simpl in *.
  2: { eapply evolves_mark_ext; [|exact Hget]. intros r.
       try case_bool_decide; done. }
  destruct (Halloc r Hinv eq_refl) as [s Hs]. rewrite Hs.
  apply evolves_save. eapply evolves_after; [exact Hget|].
  eapply evolves_mark_ext with
    (m1 := λ r0, if bool_decide (r = r0) then Some (isPersistent (unlink s)) else None).
  { intros r0. simpl. repeat case_bool_decide; naive_solver. }
  assert (Hmod : modify r unlink w1 = modify r (λ _, unlink s) w1).
  { unfold modify. f_equal. apply list_eq. intros i.
    destruct (decide (i = r)) as [->|].
    - by rewrite !list_lookup_alter_eq, Hs.
    - by rewrite !list_lookup_alter_ne. }
  rewrite Hmod.
  pose proof (evolves_mark_one w1 r s (unlink s) Hs eq_refl (unlink_good s)) as Hm.
  destruct (client s) as [c|]; [|exact Hm].
  eapply evolves_then; [exact Hm|].
  destruct lt; [apply evolves_emit, evolves_refl|].
  eapply evolves_trans; [|apply destroy_client_evolves].
  apply evolves_emit, evolves_refl.
Qed.

End MarkedSteps.

Section Sweeps.

Local Ltac kept := apply framed_status; simpl; auto.

Lemma foldl_evolves {A} (body : World → A → World) (l : list A) :
  (∀ w e, evolves unmarked w (body w e)) →
  ∀ w, evolves unmarked w (foldl body w l).
Proof.
  intros Hbody. induction l as [|e l IH]; intros w; [apply evolves_refl|].
  simpl. eapply evolves_trans; [apply Hbody|apply IH].
Qed.

Lemma sessionHeartbeat_evolves now w :
  evolves unmarked w (sessionHeartbeat now w).
Proof.
  apply foldl_evolves. intros w0 e. apply evolves_modify. intros s.
  destruct (isReady s && _); [kept|apply framed_refl].
Qed.

Lemma cleanup_entry_evolves now acc e :
  evolves unmarked acc.1 (cleanup_entry now acc e).1.
Proof.
  destruct acc as [w n]. unfold cleanup_entry. simpl.
  destruct (heap w !! e.2) as [s|]; [|apply evolves_refl].
  destruct (evicts now s); [|apply evolves_refl]. simpl.
  destruct (client s) as [c|].
  - eapply evolves_trans; [apply (evolves_emit unmarked [ClientDestroy c] w w),
                           evolves_refl|].
    apply (evolves_delete e.1 (emit [ClientDestroy c] w)).
  - apply evolves_delete.
Qed.

Lemma cleanup_fold_evolves now l :
  ∀ acc, evolves unmarked acc.1 (foldl (cleanup_entry now) acc l).1.
Proof.
  induction l as [|e l IH]; intros acc; [apply evolves_refl|]. simpl.
  eapply evolves_trans; [apply cleanup_entry_evolves|apply IH].
Qed.

Lemma cleanupOldSessions_evolves now w :
  evolves unmarked w (cleanupOldSessions now w).
Proof.
  unfold cleanupOldSessions.
  pose proof (cleanup_fold_evolves now (map_to_list (sessions w)) (w, O)) as H.
  destruct (foldl _ _ _) as [w1 n]. simpl in H.
  destruct (0 <? n)%nat; [by apply evolves_save|done].
Qed.

End Sweeps.

(** ** Invariants of runs *)

(** Every step evolves the state, with the marks it is labelled with. *)
Lemma step_evolves w op : Inv w → evolves (marks true w op) w (step w op).
Proof.
  intros Hinv. destruct op; simpl.
  - apply loadPersistedSessions_evolves.
  - apply route_status_evolves.
  - apply route_qr_evolves.
  - apply route_reset_evolves.
  - by apply (route_disconnect_evolves true).
  - apply route_send_evolves.
  - apply route_clear_queue_evolves.
  - destruct ev; try (by apply client_event_evolves).
    apply (client_ready_evolves true). apply Hinv.
  - apply fire_timer_evolves.
  - apply processMessageQueue_evolves.
  - apply sessionHeartbeat_evolves.
  - apply cleanupOldSessions_evolves.
  - apply evolves_save, evolves_refl.
Qed.

Lemma Inv_init : Inv init.
Proof. split; [|split]; intros ?; intros; simpl in *; done. Qed.

Lemma Inv_steps ops : ∀ w, Inv w → Inv (foldl step w ops).
Proof.
  induction ops as [|op ops IH]; intros w Hinv; [done|]. simpl.
  apply IH. eapply evolves_Inv; [exact Hinv|by apply step_evolves].
Qed.

Lemma Inv_run ops : Inv (run ops).
Proof. apply Inv_steps, Inv_init. Qed.

(** The persistence mark of every object is the history of its marks. *)
Lemma linked_from_steps ops :
  ∀ w g, Inv w →
    (∀ r s, heap w !! r = Some s → isPersistent s = g r) →
    (∀ r, heap w !! r = None → g r = false) →
    ∀ r s, heap (foldl step w ops) !! r = Some s →
           isPersistent s = linked_from true w g ops r.
Proof.
  induction ops as [|op ops IH]; intros w g Hinv Hold Hnew r s Hs; [by apply Hold|].
  simpl in *. pose proof (step_evolves w op Hinv) as Hev.
  apply (IH (step w op)); try done.
  - by eapply evolves_Inv.
  - destruct Hev as (Hold' & Hnew' & _). intros r0 s0 Hs0.
    destruct (heap w !! r0) as [s1|] eqn:Hs1.
    + destruct (Hold' r0 s1 Hs1) as (s2 & Hs2 & _ & Hp & _).
      assert (s2 = s0) as -> by congruence.
      rewrite Hp, (Hold r0 s1 Hs1). done.
    + destruct (Hnew' r0 s0 Hs1 Hs0) as [Hp _]. by rewrite Hp, (Hnew r0 Hs1).
  - destruct Hev as (Hold' & _ & Hmk & _). intros r0 Hnone.
    destruct (marks true w op r0) as [b|] eqn:Hm.
    + destruct (Hmk r0 b Hm) as [? ?]. congruence.
    + simpl. apply Hnew. destruct (heap w !! r0) as [s1|] eqn:Hs1; [|done].
      destruct (Hold' r0 s1 Hs1) as (? & ? & _). congruence.
Qed.

(** ** The persistence snapshot *)

Lemma session_key_inj f f' : session_key f = session_key f' → f = f'.
Proof. apply (String.app_inj "firm_"). Qed.

(** The snapshot loop over a list of registry entries with distinct keys,
    each filed under the key of its tenant. *)
Lemma save_fold_lookup h l :
  ∀ acc, NoDup l.*1 →
    (∀ k r, (k, r) ∈ l → ∃ s, h !! r = Some s ∧ k = session_key (firmId s)) →
    ∀ f, foldl (save_entry h) acc l !! f
         = match (list_to_map l : gmap string nat) !! session_key f with
           | Some r =>
               match h !! r with
               | Some s => if persistable s then Some (persisted_record s)
                           else acc !! f
               | None => acc !! f
               end
           | None => acc !! f
           end.
Proof.
  induction l as [|[k r] l IH]; intros acc Hnd Hwf f; [done|].
  apply NoDup_cons in Hnd as [Hk Hnd]. simpl in Hk.
  destruct (Hwf k r) as (s & Hs & ->); [left|].
  simpl. rewrite IH; [|done|by intros ???; apply Hwf; right].
  unfold save_entry at 1 2 3. simpl. rewrite Hs.
  destruct (decide (session_key f = session_key (firmId s))) as [Heq|Hne].
  - rewrite Heq, lookup_insert_eq, Hs.
    rewrite (not_elem_of_list_to_map_1 _ _ Hk).
    apply session_key_inj in Heq as ->.
    destruct (persistable s); [by rewrite lookup_insert_eq|done].
  - rewrite lookup_insert_ne by done.
    assert (f ≠ firmId s) by congruence.
    destruct (persistable s); [|done].
    rewrite lookup_insert_ne by done. done.
Qed.

(** In a state whose registry is in order, the snapshot holds a tenant
    exactly when its registered session is persistent and linked. *)
Lemma persistedData_lookup w f :
  registered w →
  persistedData w !! f
  = match sessions w !! session_key f with
    | Some r =>
        match heap w !! r with
        | Some s => if persistable s then Some (persisted_record s) else None
        | None => None
        end
    | None => None
    end.
Proof.
  intros Hreg. unfold persistedData.
  rewrite save_fold_lookup.
  - rewrite list_to_map_to_list, lookup_empty. by repeat case_match.
  - apply NoDup_fst_map_to_list.
  - intros k r Hkr. apply elem_of_map_to_list in Hkr. by apply Hreg.
Qed.

(** ** The persistence mark *)

Lemma isPersistent_linked ops r s :
  heap (run ops) !! r = Some s → isPersistent s = linked true ops r.
Proof.
  intros Hs. unfold linked.
  eapply linked_from_steps; [apply Inv_init|done|done|exact Hs].
Qed.

Lemma client_ready_result w c k r s now :
  clients w !! c = Some (k, r) → heap w !! r = Some s →
  client_event c now EvReady w
  = savePersistedSessions (modify r (λ _, on_ready now s) w).
Proof. intros Hc Hs. unfold client_event. by rewrite Hc, Hs. Qed.

Example linked_after_ready :
  linked false [OpQr 0 Sample.token; OpClientEvent 0 5 EvReady] O = true.
Proof. vm_compute. reflexivity. Qed.

Example linked_until_disconnect :
  linked false [OpQr 0 Sample.token; OpClientEvent 0 5 EvReady;
                OpDisconnect 6 Sample.token false false] O = false.
Proof. vm_compute. reflexivity. Qed.

Example linked_again :
  linked false [OpQr 0 Sample.token; OpClientEvent 0 5 EvReady;
                OpDisconnect 6 Sample.token false true;
                OpClientEvent 0 7 EvReady] O = true.
Proof. vm_compute. reflexivity. Qed.

(** C4, as stated, fails: the session object that [loadPersistedSessions]
    builds for a record of the file is persistent, and no [ready] event was
    observed for it. *)
Lemma restored_session_persistent_without_ready :
  ¬ (∀ ops r s, heap (run ops) !! r = Some s →
                (isPersistent s = true ↔ linked false ops r = true)).
Proof.
  intros Hclaim.
  pose (ops := [OpLoad 1700000100000 (Some [("acme", Sample.linked_record)])]).
  assert (Hs : heap (run ops) !! O
               = Some (restored_session "acme" Sample.linked_record 1700000100000))
    by (vm_compute; reflexivity).
  destruct (Hclaim ops O _ Hs) as [Himp _].
  specialize (Himp eq_refl). vm_compute in Himp. discriminate.
Qed.

(** C4, amended.  In every run, a session object is persistent exactly when,
    since it was created and since its last permanent disconnect, a [ready]
    event was handled for it or it was the object built from a record of the
    sessions file.  The [ready] handler sets status [ready], the readiness
    flag, no QR payload, zero reconnect attempts, the persistence mark and
    the link time, and leaves the other fields; it then takes the
    persistence snapshot, which holds the record of the session when the
    session is the registered one.  The handlers of the other events keep
    the persistence mark as it is. *)
Theorem isPersistent_iff_linked (ops : list Op) (r : nat) (s : Session) :
  heap (run ops) !! r = Some s →
  (isPersistent s = true ↔ linked true ops r = true) ∧
  (∀ now,
     on_ready now s
     = {| firmId := firmId s; client := client s; qrCode := None;
          isReady := true; status := ready; messageQueue := messageQueue s;
          isProcessingQueue := isProcessingQueue s;
          lastActivity := lastActivity s; createdAt := createdAt s;
          reconnectAttempts := 0;
          maxReconnectAttempts := maxReconnectAttempts s;
          isPersistent := true; lastLinked := Some now |}) ∧
  (∀ c k now, clients (run ops) !! c = Some (k, r) →
     let w' := client_event c now EvReady (run ops) in
     heap w' !! r = Some (on_ready now s) ∧
     effects w' = effects (run ops) ++ [WriteFile (persistedData w')] ∧
     (sessions (run ops) !! k = Some r →
      persistedData w' !! firmId s = Some (persisted_record (on_ready now s)))) ∧
  (∀ now ev, ev ≠ EvReady →
     isPersistent (handle_event now ev s) = isPersistent s).
Proof.
  intros Hs. split; [by rewrite (isPersistent_linked ops r s Hs)|].
  split; [done|]. split.
  - intros c k now Hc w'. subst w'.
    rewrite (client_ready_result _ c k r s now Hc Hs).
    assert (Hheap : heap (savePersistedSessions
                            (modify r (λ _, on_ready now s) (run ops))) !! r
                    = Some (on_ready now s)).
    { simpl. by rewrite list_lookup_alter_eq, Hs. }
    split; [done|]. split; [done|]. intros Hk.
    assert (Hinv' : Inv (savePersistedSessions
                           (modify r (λ _, on_ready now s) (run ops)))).
    { rewrite <- (client_ready_result _ c k r s now Hc Hs).
      eapply evolves_Inv; [apply Inv_run|].
      apply (step_evolves (run ops) (OpClientEvent c now EvReady)), Inv_run. }
    destruct (Inv_run ops) as (Hreg & _).
    destruct (Hreg k r Hk) as (s0 & Hs0 & ->).
    assert (s0 = s) as -> by congruence.
    rewrite persistedData_lookup by apply Hinv'.
    change (sessions (savePersistedSessions _)) with (sessions (run ops)).
    by rewrite Hk, Hheap.
  - intros now ev Hev. destruct ev as [qr [url|]| | |msg|reason]; try done.
    simpl. unfold on_disconnected. simpl.
    by repeat case_match.
Qed.

Lemma isPersistent_iff_linked_witness :
  let ops := [OpQr 0 Sample.token; OpClientEvent 0 5 EvReady] in
  linked true ops O = true ∧
  persistedData (client_event 0 9 EvReady (run ops)) !! "acme"
  = Some (persisted_record (on_ready 9 (on_ready 5
            (set_client (Some O)
               (set_reconnectAttempts 1
                  (set_status initializing (fresh_session "acme" 0))))))).
Proof.
  intros ops.
  assert (Hs : heap (run ops) !! O
               = Some (on_ready 5 (set_client (Some O)
                         (set_reconnectAttempts 1
                            (set_status initializing (fresh_session "acme" 0))))))
    by (vm_compute; reflexivity).
  destruct (isPersistent_iff_linked ops O _ Hs) as ([Hlinked _] & _ & Hsave & _).
  split; [by apply Hlinked|].
  destruct (Hsave O "firm_acme" 9) as (_ & _ & Hdata);
    [vm_compute; reflexivity|].
  apply Hdata. vm_compute. reflexivity.
Defined.

(** ** The reaper *)

Lemma cleanup_entry_sessions now w n e :
  let res := cleanup_entry now (w, n) e in
  heap res.1 = heap w ∧
  (sessions res.1 = sessions w ∨
   (sessions res.1 = delete e.1 (sessions w) ∧
    ∃ s, heap w !! e.2 = Some s ∧ evicts now s = true)) ∧
  (∀ s, heap w !! e.2 = Some s → evicts now s = false →
        sessions res.1 = sessions w).
Proof.
  unfold cleanup_entry. destruct (heap w !! e.2) as [s|] eqn:Hs; simpl.
  2: { split; [done|]. split; [by left|done]. }
  destruct (evicts now s) eqn:Hev; simpl.
  - split; [by destruct (client s)|]. split.
    + right. split; [by destruct (client s)|]. by exists s.
    + intros s0 [= <-]. congruence.
  - split; [done|]. split; [by left|done].
Qed.

(** The sweep over a list of registry entries: objects are not touched, no
    entry is added, and an entry stays when the sweep evicts no session
    filed under its key. *)
Lemma cleanup_fold_sessions now l :
  ∀ acc, let res := foldl (cleanup_entry now) acc l in
    heap res.1 = heap acc.1 ∧
    (∀ k r, sessions res.1 !! k = Some r → sessions acc.1 !! k = Some r) ∧
    (∀ k r, sessions acc.1 !! k = Some r →
       (∀ r' s', (k, r') ∈ l → heap acc.1 !! r' = Some s' →
                 evicts now s' = false) →
       sessions res.1 !! k = Some r).
Proof.
  induction l as [|e l IH]; intros [w n]; [done|].
  cbv zeta. change (foldl (cleanup_entry now) (w, n) (e :: l))
    with (foldl (cleanup_entry now) (cleanup_entry now (w, n) e) l).
  change ((w, n).1) with w.
  destruct (cleanup_entry_sessions now w n e) as (Hheap & Hsess & Hkeep).
  cbv zeta in Hheap, Hsess, Hkeep.
  set (acc' := cleanup_entry now (w, n) e) in *.
  destruct (IH acc') as (IHheap & IHsub & IHkeep).
  cbv zeta in IHheap, IHsub, IHkeep.
  split; [by rewrite IHheap|]. split.
  - intros k r Hk. apply IHsub in Hk.
    destruct Hsess as [Heq|[Heq _]]; rewrite Heq in Hk; [done|].
    apply lookup_delete_Some in Hk. tauto.
  - intros k r Hk Hsafe. apply IHkeep.
    + destruct Hsess as [Heq|(Heq & s & Hs & Hev)]; rewrite Heq; [done|].
      rewrite lookup_delete_ne; [done|]. intros <-.
      rewrite (Hsafe e.2 s) in Hev; [done| |done].
      destruct e. left.
    + intros r' s' Hin Hs'. rewrite Hheap in Hs'.
      apply (Hsafe r' s'); [by right|done].
Qed.

Lemma cleanupOldSessions_sessions now w :
  heap (cleanupOldSessions now w) = heap w ∧
  (∀ k r, sessions (cleanupOldSessions now w) !! k = Some r →
          sessions w !! k = Some r) ∧
  (∀ k r s, sessions w !! k = Some r → heap w !! r = Some s →
            evicts now s = false →
            sessions (cleanupOldSessions now w) !! k = Some r).
Proof.
  unfold cleanupOldSessions.
  pose proof (cleanup_fold_sessions now (map_to_list (sessions w)) (w, O))
    as (Hheap & Hsub & Hkeep).
  destruct (foldl _ _ _) as [w1 n]. simpl in *.
  assert (Hgoal : heap w1 = heap w ∧
    (∀ k r, sessions w1 !! k = Some r → sessions w !! k = Some r) ∧
    (∀ k r s, sessions w !! k = Some r → heap w !! r = Some s →
              evicts now s = false → sessions w1 !! k = Some r)).
  { split; [done|]. split; [done|]. intros k r s Hk Hs Hev.
    apply Hkeep; [done|]. intros r' s' Hin Hs'.
    apply elem_of_map_to_list in Hin. congruence. }
  by destruct (0 <? n)%nat.
Qed.

(** C6.  In every run, a sweep of the reaper keeps a registered session
    whose status is [ready], whatever the clock, its age and its idle time
    are, and does not touch the session object.  When a sweep removes a
    persistent session, then at that sweep its age exceeds three times the
    session timeout, it is not ready and its status is [disconnected]. *)
Theorem reaper_spares_ready (ops : list Op) (now : Z) (k : string) (r : nat)
    (s : Session) :
  let w := run ops in
  let w' := cleanupOldSessions now w in
  sessions w !! k = Some r → heap w !! r = Some s →
  (status s = ready → sessions w' !! k = Some r ∧ heap w' !! r = Some s) ∧
  (isPersistent s = true → sessions w' !! k = None →
   SESSION_TIMEOUT * 3 < now - createdAt s ∧ isReady s = false ∧
   status s = disconnected).
Proof.
  intros w w' Hk Hs.
  destruct (cleanupOldSessions_sessions now w) as (Hheap & _ & Hkeep).
  destruct (Inv_run ops) as (_ & _ & Hgood).
  split.
  - intros Hready. destruct (Hgood r s Hs) as [Hg _].
    destruct (Hg Hready) as [Hp _].
    split; [|by subst w'; rewrite Hheap].
    apply (Hkeep k r s Hk Hs). unfold evicts. rewrite Hp, Hready.
    by rewrite andb_false_r.
  - intros Hp Hgone. destruct (evicts now s) eqn:Hev.
    + unfold evicts in Hev. rewrite Hp in Hev.
      apply andb_true_iff in Hev as [Hev Hst].
      apply andb_true_iff in Hev as [Hstale Hnr].
      apply Z.ltb_lt in Hstale. apply negb_true_iff in Hnr.
      apply bool_decide_eq_true in Hst. done.
    + subst w'. rewrite (Hkeep k r s Hk Hs Hev) in Hgone. done.
Qed.

Lemma reaper_spares_ready_witness :
  let ops := [OpQr 0 Sample.token; OpClientEvent 0 5 EvReady] in
  sessions (cleanupOldSessions 9000000000000 (run ops)) !! "firm_acme"
  = Some O.
Proof.
  intros ops.
  destruct (reaper_spares_ready ops 9000000000000 "firm_acme" O
              (on_ready 5 (set_client (Some O)
                 (set_reconnectAttempts 1
                    (set_status initializing (fresh_session "acme" 0))))))
    as [Hkept _].
  - vm_compute. reflexivity.
  - vm_compute. reflexivity.
  - apply Hkept. reflexivity.
Defined.

(** ** Reconnection after a disconnect *)

Lemma persistent_reconnectDelay_values n :
  persistent_reconnectDelay n = (if n <=? 6 then 10000 * n else 60000).
Proof.
  unfold persistent_reconnectDelay.
  destruct (n <=? 6) eqn:Hle; [apply Z.leb_le in Hle|apply Z.leb_gt in Hle]; lia.
Qed.

Lemma temporary_reconnectDelay_values n :
  temporary_reconnectDelay n = (if n <=? 6 then 5000 * n else 30000).
Proof.
  unfold temporary_reconnectDelay.
  destruct (n <=? 6) eqn:Hle; [apply Z.leb_le in Hle|apply Z.leb_gt in Hle]; lia.
Qed.

Lemma persistent_reconnectDelay_mono n m :
  n ≤ m → persistent_reconnectDelay n ≤ persistent_reconnectDelay m.
Proof. unfold persistent_reconnectDelay. lia. Qed.

Lemma temporary_reconnectDelay_mono n m :
  n ≤ m → temporary_reconnectDelay n ≤ temporary_reconnectDelay m.
Proof. unfold temporary_reconnectDelay. lia. Qed.

Lemma client_disconnected_result w c k r s reason :
  clients w !! c = Some (k, r) → heap w !! r = Some s →
  ∀ now, client_event c now (EvDisconnected reason) w
  = let w1 := modify r (λ _, (on_disconnected reason s).1) w in
    match (on_disconnected reason s).2 with
    | Some reconnectDelay => schedule (TimerReconnect k r) reconnectDelay w1
    | None => w1
    end.
Proof.
  intros Hc Hs now. unfold client_event. rewrite Hc, Hs.
  by destruct (on_disconnected reason s) as [s1 [d|]].
Qed.

(** C5.  In every run, let client [c], whose handlers closed over session
    object [r], emit [disconnected].  If the session is persistent and not
    manually disconnected, one reconnect timer is set, after
    min(60 s, 10 s x reconnectAttempts).  If it is not persistent and the
    reason is neither NAVIGATION nor LOGOUT, one is set after
    min(30 s, 5 s x reconnectAttempts).  In every other case (LOGOUT on a
    session that is not persistent, for one) no timer is set.  The delay of a
    persistent session is 10 s per attempt up to six attempts and 60 s from
    there on, the delay of another session 5 s per attempt up to six
    attempts and 30 s from there on; neither decreases with the attempts,
    and they never exceed 60 s and 30 s. *)
Theorem disconnected_reconnect_policy :
  (∀ (ops : list Op) (c : nat) (now : Z) (reason k : string) (r : nat)
     (s : Session),
     let w := run ops in
     let w' := client_event c now (EvDisconnected reason) w in
     let scheduled delay :=
       timers w' = timers w ++ [TimerReconnect k r] ∧
       effects w' = effects w ++ [SetTimeout (TimerReconnect k r) delay] in
     let unscheduled := timers w' = timers w ∧ effects w' = effects w in
     clients w !! c = Some (k, r) → heap w !! r = Some s →
     (isPersistent s = true → status s ≠ manually_disconnected →
      scheduled (Z.min 60000 (10000 * reconnectAttempts s))) ∧
     (isPersistent s = false → reason ≠ "NAVIGATION" → reason ≠ "LOGOUT" →
      scheduled (Z.min 30000 (5000 * reconnectAttempts s))) ∧
     (¬ (isPersistent s = true ∧ status s ≠ manually_disconnected) →
      ¬ (isPersistent s = false ∧ reason ≠ "NAVIGATION" ∧ reason ≠ "LOGOUT") →
      unscheduled) ∧
     (isPersistent s = false → reason = "LOGOUT" → unscheduled)) ∧
  (∀ n, persistent_reconnectDelay n = Z.min 60000 (10000 * n) ∧
        persistent_reconnectDelay n = (if n <=? 6 then 10000 * n else 60000) ∧
        persistent_reconnectDelay n ≤ 60000) ∧
  (∀ n, temporary_reconnectDelay n = Z.min 30000 (5000 * n) ∧
        temporary_reconnectDelay n = (if n <=? 6 then 5000 * n else 30000) ∧
        temporary_reconnectDelay n ≤ 30000) ∧
  (∀ n m, n ≤ m →
          persistent_reconnectDelay n ≤ persistent_reconnectDelay m ∧
          temporary_reconnectDelay n ≤ temporary_reconnectDelay m).
Proof.
  split.
  2: { split; [|split].
       - intros n. split; [done|]. split; [apply persistent_reconnectDelay_values|].
         unfold persistent_reconnectDelay. lia.
       - intros n. split; [done|]. split; [apply temporary_reconnectDelay_values|].
         unfold temporary_reconnectDelay. lia.
       - intros n m Hnm. split;
           [by apply persistent_reconnectDelay_mono
           |by apply temporary_reconnectDelay_mono]. }
  intros ops c now reason k r s w w' scheduled unscheduled Hc Hs.
  subst scheduled unscheduled w'.
  rewrite (client_disconnected_result w c k r s reason Hc Hs now).
  destruct (Inv_run ops) as (_ & _ & Hgood).
  destruct (Hgood r s Hs) as [_ Hmanual].
  unfold on_disconnected, persistent_reconnectDelay, temporary_reconnectDelay.
  simpl.
  assert (Hnav : ∀ a, negb (String.eqb reason a) = true ↔ reason ≠ a).
  { intros a. rewrite negb_true_iff. destruct (String.eqb_spec reason a);
      naive_solver. }
  split; [|split; [|split]].
  - intros Hp _. by rewrite Hp.
  - intros Hp Hn Hl. rewrite Hp. simpl.
    apply Hnav in Hn, Hl. by rewrite Hn, Hl.
  - intros Hnot1 Hnot2. destruct (isPersistent s) eqn:Hp.
    + exfalso. apply Hnot1. split; [done|]. intros Hst.
      by specialize (Hmanual Hst).
    + simpl. destruct (negb (String.eqb reason "NAVIGATION")) eqn:Hn;
        [|done].
      destruct (negb (String.eqb reason "LOGOUT")) eqn:Hl; [|done].
      exfalso. apply Hnot2. by rewrite <- !Hnav.
  - intros Hp ->. by rewrite Hp.
Qed.

Lemma disconnected_reconnect_policy_witness :
  let linked := run [OpQr 0 Sample.token; OpClientEvent 0 5 EvReady] in
  let fresh := run [OpQr 0 Sample.token] in
  effects (client_event 0 9 (EvDisconnected "CONFLICT") linked)
    = effects linked ++ [SetTimeout (TimerReconnect "firm_acme" 0) 0] ∧
  effects (client_event 0 9 (EvDisconnected "CONFLICT") fresh)
    = effects fresh ++ [SetTimeout (TimerReconnect "firm_acme" 0) 5000] ∧
  timers (client_event 0 9 (EvDisconnected "LOGOUT") fresh) = [] ∧
  persistent_reconnectDelay 3 = 30000 ∧ persistent_reconnectDelay 0 = 0 ∧
  temporary_reconnectDelay 3 = 15000 ∧ temporary_reconnectDelay 9 = 30000 ∧
  persistent_reconnectDelay 3 ≤ persistent_reconnectDelay 9.
Proof.
  intros linked fresh.
  assert (Hl : heap linked !! O
               = Some (on_ready 5 (set_client (Some O)
                         (set_reconnectAttempts 1
                            (set_status initializing (fresh_session "acme" 0))))))
    by (vm_compute; reflexivity).
  assert (Hf : heap fresh !! O
               = Some (set_client (Some O)
                         (set_reconnectAttempts 1
                            (set_status initializing (fresh_session "acme" 0)))))
    by (vm_compute; reflexivity).
  destruct disconnected_reconnect_policy as (Hpolicy & Hpers & Htemp & Hmono).
  split; [|split; [|split; [|split; [|split; [|split; [|split]]]]]].
  - destruct (Hpolicy [OpQr 0 Sample.token; OpClientEvent 0 5 EvReady]
                O 9 "CONFLICT" "firm_acme" O _ eq_refl Hl) as (Hp & _).
    destruct Hp as [_ He]; [reflexivity|discriminate|]. exact He.
  - destruct (Hpolicy [OpQr 0 Sample.token]
                O 9 "CONFLICT" "firm_acme" O _ eq_refl Hf) as (_ & Hn & _).
    destruct Hn as [_ He]; [reflexivity|discriminate|discriminate|]. exact He.
  - destruct (Hpolicy [OpQr 0 Sample.token]
                O 9 "LOGOUT" "firm_acme" O _ eq_refl Hf) as (_ & _ & _ & Ho).
    destruct Ho as [Ht _]; [reflexivity|reflexivity|]. exact Ht.
  - exact (proj1 (proj2 (Hpers 3))).
  - exact (proj1 (proj2 (Hpers 0))).
  - exact (proj1 (proj2 (Htemp 3))).
  - exact (proj1 (proj2 (Htemp 9))).
  - assert (H39 : 3 ≤ 9) by lia. exact (proj1 (Hmono 3 9 H39)).
Defined.

(** ** Tokens and the registry *)

Lemma span_no_underscore_split s :
  ∀ a b, span_no_underscore s = (a, b) →
    s = a +:+ b ∧ no_underscore a ∧ (b = "" ∨ JsString.startsWith "_" b = true).
Proof.
  induction s as [|c s IH]; intros a b; simpl.
  { intros [= <- <-]. split; [done|]. split; [done|by left]. }
  destruct (Ascii.eqb_spec c "_"%char) as [->|Hc].
  - intros [= <- <-]. split; [done|]. split; [done|by right].
  - destruct (span_no_underscore s) as [a' b'].
    intros [= <- <-]. destruct (IH a' b' eq_refl) as (-> & Ha & Hb).
    split; [done|]. split; [|done].
    unfold no_underscore. simpl.
    destruct (Ascii.eqb_spec c "_"%char); [done|]. exact Ha.
Qed.

Lemma span_no_underscore_stop a suffix :
  no_underscore a →
  span_no_underscore (a +:+ "_" +:+ suffix) = (a, "_" +:+ suffix).
Proof.
  unfold no_underscore. induction a as [|c a IH]; [done|]. simpl.
  intros [Hc Ha]%andb_true_iff.
  change (String c a +:+ "_" +:+ suffix)
    with (String c (a +:+ "_" +:+ suffix)). simpl.
  apply negb_true_iff in Hc. by rewrite Hc, IH.
Qed.

(** The tokens the pattern matches are the prefix [firm], an underscore, a
    tenant identifier without underscore that is not empty, an underscore,
    and any suffix; the captured group is the tenant identifier. *)
Lemma firmMatch_shape sessionId f :
  firmMatch sessionId = Some f ↔
  f ≠ "" ∧ no_underscore f ∧
  ∃ suffix, sessionId = "firm_" +:+ f +:+ "_" +:+ suffix.
Proof.
  unfold firmMatch. split.
  - destruct (JsString.startsWith "firm_" sessionId) eqn:Hpre; [|done].
    apply JsStringFacts.startsWith_app in Hpre. simpl String.length in Hpre.
    destruct (span_no_underscore (JsString.drop 5 sessionId)) as [a b] eqn:Hspan.
    apply span_no_underscore_split in Hspan as (Hdrop & Ha & Hb).
    case_bool_decide as Hne; [done|]. cbn [negb andb].
    destruct (JsString.startsWith "_" b) eqn:Hb'; [|done].
    intros [= <-]. split; [done|]. split; [done|].
    apply JsStringFacts.startsWith_app in Hb'. simpl String.length in Hb'.
    exists (JsString.drop 1 b). by rewrite Hb', <- Hdrop.
  - intros (Hne & Hf & suffix & ->).
    rewrite JsStringFacts.startsWith_prefix.
    change 5%nat with (String.length "firm_").
    rewrite JsStringFacts.drop_app, span_no_underscore_stop by done.
    by rewrite bool_decide_false.
Qed.

Lemma modify_insert w r f s :
  heap w !! r = Some s → modify r f w = with_heap (<[r := f s]> (heap w)) w.
Proof.
  intros Hs. unfold modify. f_equal. apply list_eq. intros i.
  destruct (decide (i = r)) as [->|Hne].
  - rewrite list_lookup_alter_eq, Hs. simpl.
    by rewrite list_lookup_insert_eq by (by eapply lookup_lt_Some).
  - by rewrite list_lookup_alter_ne, list_lookup_insert_ne.
Qed.

Lemma getOrCreateSession_existing now f w r s :
  f ≠ "" → sessions w !! session_key f = Some r → heap w !! r = Some s →
  getOrCreateSession now f w
  = (Some r, with_heap (<[r := set_lastActivity now s]> (heap w)) w).
Proof.
  intros Hf Hk Hs. unfold getOrCreateSession.
  rewrite bool_decide_false by done. rewrite Hk. simpl. rewrite Hk.
  by rewrite (modify_insert w r _ s Hs).
Qed.

Lemma getOrCreateSession_fresh now f w :
  f ≠ "" → sessions w !! session_key f = None →
  getOrCreateSession now f w
  = (Some (length (heap w)),
     with_sessions (<[session_key f := length (heap w)]> (sessions w))
       (with_heap (heap w ++ [fresh_session f now]) w)).
Proof.
  intros Hf Hk. unfold getOrCreateSession.
  rewrite bool_decide_false by done. rewrite Hk. simpl.
  rewrite lookup_insert_eq. f_equal.
  rewrite (modify_insert _ _ _ (fresh_session f now)).
  - simpl. unfold with_heap, with_sessions. simpl. f_equal.
    replace (length (heap w)) with (length (heap w) + 0)%nat at 1 by lia.
    by rewrite insert_app_r.
  - simpl. by rewrite lookup_app_r, Nat.sub_diag.
Qed.

(** C7.  A token resolves exactly when it has the shape prefix, tenant
    identifier, suffix (separated by underscores, the prefix being [firm]);
    any other token resolves to not found and leaves the state alone.  In
    every run, resolving a valid token twice returns the same session object
    both times, filed under the key of the tenant.  The first resolve creates
    an object only when the tenant has none: a fresh session with status
    [disconnected], an empty queue and no persistence mark; otherwise it
    returns the registered object.  Each resolve sets [lastActivity] to its
    clock and changes nothing else; the second never creates an object. *)
Theorem getSession_idempotent (ops : list Op) (now1 now2 : Z)
    (sessionId : string) :
  let w := run ops in
  let res1 := getSession now1 sessionId w in
  let res2 := getSession now2 sessionId res1.2 in
  (∀ f, firmMatch sessionId = Some f ↔
        f ≠ "" ∧ no_underscore f ∧
        ∃ suffix, sessionId = "firm_" +:+ f +:+ "_" +:+ suffix) ∧
  (firmMatch sessionId = None → res1 = (None, w)) ∧
  (∀ f, firmMatch sessionId = Some f →
     ∃ r s1,
       res1.1 = Some r ∧ res2.1 = Some r ∧
       sessions res1.2 !! session_key f = Some r ∧
       heap res1.2 !! r = Some s1 ∧
       firmId s1 = f ∧ lastActivity s1 = now1 ∧
       (sessions w !! session_key f = None →
        r = length (heap w) ∧ heap res1.2 = heap w ++ [s1] ∧
        s1 = fresh_session f now1 ∧
        status s1 = disconnected ∧ messageQueue s1 = [] ∧
        isPersistent s1 = false) ∧
       (∀ r0, sessions w !! session_key f = Some r0 →
        r = r0 ∧ sessions res1.2 = sessions w ∧
        ∃ s, heap w !! r = Some s ∧ s1 = set_lastActivity now1 s ∧
             heap res1.2 = <[r := s1]> (heap w)) ∧
       sessions res2.2 = sessions res1.2 ∧
       heap res2.2 = <[r := set_lastActivity now2 s1]> (heap res1.2) ∧
       clients res2.2 = clients w ∧ timers res2.2 = timers w ∧
       effects res2.2 = effects w).
Proof.
  intros w res1 res2. split; [apply firmMatch_shape|].
  split; [by intros Hnone; subst res1; unfold getSession; rewrite Hnone|].
  intros f Hf. subst res2 res1. unfold getSession. rewrite Hf.
  apply firmMatch_shape in Hf as (Hne & _).
  destruct (Inv_run ops) as (Hreg & _). fold w in Hreg.
  destruct (sessions w !! session_key f) as [r0|] eqn:Hk.
  - destruct (Hreg _ _ Hk) as (s & Hs & Hkey).
    apply session_key_inj in Hkey.
    rewrite (getOrCreateSession_existing now1 f w r0 s Hne Hk Hs).
    assert (Hs1 : (<[r0 := set_lastActivity now1 s]> (heap w)) !! r0
                  = Some (set_lastActivity now1 s))
      by (apply list_lookup_insert_eq; by eapply lookup_lt_Some).
    exists r0, (set_lastActivity now1 s). simpl.
    rewrite (getOrCreateSession_existing now2 f _ r0 (set_lastActivity now1 s));
      [|done|done|done].
    simpl. repeat (split; [done|]). split; [|done].
    intros r1 [= <-]. split; [done|]. split; [done|]. by exists s.
  - rewrite (getOrCreateSession_fresh now1 f w Hne Hk).
    assert (Hs1 : (heap w ++ [fresh_session f now1]) !! length (heap w)
                  = Some (fresh_session f now1))
      by (by rewrite lookup_app_r, Nat.sub_diag).
    exists (length (heap w)), (fresh_session f now1). simpl.
    rewrite (getOrCreateSession_existing now2 f _ (length (heap w))
               (fresh_session f now1)); [|done|by simpl; rewrite lookup_insert_eq|done].
    simpl. rewrite lookup_insert_eq.
    repeat (split; [done|]). done.
Qed.

Lemma getSession_idempotent_witness :
  let w := run [OpStatus 1 "firm_zeta_0_q"] in
  getSession 2 "firmacme" w = (None, w) ∧
  firmMatch Sample.token = Some "acme" ∧
  ∃ r, (getSession 2 Sample.token w).1 = Some r ∧
       (getSession 3 Sample.token (getSession 2 Sample.token w).2).1 = Some r ∧
       heap (getSession 2 Sample.token w).2
       = heap w ++ [fresh_session "acme" 2].
Proof.
  intros w.
  destruct (getSession_idempotent [OpStatus 1 "firm_zeta_0_q"] 2 3 "firmacme")
    as (_ & Hnone & _).
  split; [apply Hnone; reflexivity|].
  destruct (getSession_idempotent [OpStatus 1 "firm_zeta_0_q"] 2 3 Sample.token)
    as (Hshape & _ & Hsome).
  assert (Hm : firmMatch Sample.token = Some "acme").
  { apply Hshape. split; [discriminate|]. split; [reflexivity|].
    by exists "1700000000000_x7". }
  split; [exact Hm|].
  destruct (Hsome "acme" Hm) as (r & s1 & H1 & H2 & _ & _ & _ & _ & Hnew & _).
  exists r. split; [exact H1|]. split; [exact H2|].
  destruct Hnew as (_ & Hheap & -> & _); [vm_compute; reflexivity|].
  exact Hheap.
Defined.

(** ** Permanent disconnect *)

Lemma getSession_found w now sessionId f :
  Inv w → firmMatch sessionId = Some f →
  ∃ r s0 w1,
    getSession now sessionId w = (Some r, w1) ∧ Inv w1 ∧
    sessions w1 !! session_key f = Some r ∧ heap w1 !! r = Some s0 ∧
    firmId s0 = f ∧ effects w1 = effects w.
Proof.
  intros Hinv Hf.
  pose proof (evolves_Inv _ _ _ Hinv (getSession_evolves now sessionId w)) as Hinv1.
  unfold getSession in *. rewrite Hf in *.
  apply firmMatch_shape in Hf as (Hne & _).
  destruct Hinv as (Hreg & _).
  destruct (sessions w !! session_key f) as [r0|] eqn:Hk.
  - destruct (Hreg _ _ Hk) as (s & Hs & Hkey). apply session_key_inj in Hkey.
    rewrite (getOrCreateSession_existing now f w r0 s Hne Hk Hs) in *.
    eexists r0, (set_lastActivity now s), _. split; [done|]. split; [done|].
    simpl. split; [done|]. split; [|done].
    apply list_lookup_insert_eq. by eapply lookup_lt_Some.
  - rewrite (getOrCreateSession_fresh now f w Hne Hk) in *.
    eexists _, (fresh_session f now), _. split; [done|]. split; [done|].
    simpl. rewrite lookup_insert_eq. split; [done|]. split; [|done].
    by rewrite lookup_app_r, Nat.sub_diag.
Qed.

Lemma route_disconnect_result w now sessionId lt dt r s0 w1 :
  getSession now sessionId w = (Some r, w1) → heap w1 !! r = Some s0 →
  route_disconnect now sessionId lt dt w
  = savePersistedSessions
      (match client s0 with
       | Some c =>
           let w2 := emit [ClientLogout c]
                       (with_heap (<[r := unlink s0]> (heap w1)) w1) in
           if lt then w2 else destroy_client r c dt w2
       | None => with_heap (<[r := unlink s0]> (heap w1)) w1
       end).
Proof.
  intros Hget Hs0. unfold route_disconnect, on_session. rewrite Hget. simpl.
  by rewrite Hs0, (modify_insert w1 r unlink s0 Hs0).
Qed.

(** C8.  In every run, after the disconnect route for a valid token the
    session of the tenant has no QR payload, is not ready, has an empty
    queue, is not persistent, has no link time and has status
    [manually_disconnected].  If it had a client, the route called [logout]
    on it and, unless that call threw, [destroy] after it; the client is
    dropped when neither call threw.  The last thing the route does is the
    persistence save, and the snapshot it writes has no record of the
    tenant. *)
Theorem disconnect_unlinks (ops : list Op) (now : Z) (sessionId f : string)
    (logout_throws destroy_throws : bool) :
  firmMatch sessionId = Some f →
  let w := run ops in
  let found := getSession now sessionId w in
  let w' := route_disconnect now sessionId logout_throws destroy_throws w in
  ∃ r s0 s',
    found.1 = Some r ∧ heap found.2 !! r = Some s0 ∧
    sessions w' !! session_key f = Some r ∧ heap w' !! r = Some s' ∧
    qrCode s' = None ∧ isReady s' = false ∧ messageQueue s' = [] ∧
    isPersistent s' = false ∧ lastLinked s' = None ∧
    status s' = manually_disconnected ∧
    client s' = match client s0 with
                | Some c => if logout_throws || destroy_throws
                            then Some c else None
                | None => None
                end ∧
    effects w' = effects w ++
      match client s0 with
      | Some c => ClientLogout c
                  :: (if logout_throws then [] else [ClientDestroy c])
      | None => []
      end ++ [WriteFile (persistedData w')] ∧
    persistedData w' !! f = None.
Proof.
  intros Hf w found w'.
  assert (Hinv' : Inv w').
  { eapply evolves_Inv; [apply (Inv_run ops)|].
    apply (route_disconnect_evolves true), Inv_run. }
  destruct (getSession_found w now sessionId f (Inv_run ops) Hf)
    as (r & s0 & w1 & Hget & Hinv1 & Hk & Hs0 & Hfirm & Heff).
  assert (Hw' : w' = _) by exact (route_disconnect_result w now sessionId
    logout_throws destroy_throws r s0 w1 Hget Hs0).
  clearbody w'. subst found. rewrite Hget. simpl fst. simpl snd.
  assert (Hlt : (r < length (heap w1))%nat) by (by eapply lookup_lt_Some).
  assert (Hdata : ∀ s2, sessions w' = sessions w1 →
            heap w' !! r = Some s2 → isPersistent s2 = false →
            persistedData w' !! f = None).
  { intros s2 Hs Hh Hp. rewrite persistedData_lookup by apply Hinv'.
    rewrite Hs, Hk, Hh. unfold persistable. by rewrite Hp. }
  clear Hinv'. exists r, s0.
  assert (Hsame : ∀ w2, persistedData (savePersistedSessions w2)
                        = persistedData w2) by done.
  destruct (client s0) as [c|] eqn:Hc.
  - destruct logout_throws.
    + exists (unlink s0). subst w'. simpl in *.
      rewrite list_lookup_insert_eq in * by done. rewrite Heff.
      repeat (split; [done|]). rewrite <- app_assoc. split; [done|].
      by eapply Hdata.
    + unfold destroy_client in *. destruct destroy_throws.
      * exists (unlink s0). subst w'. simpl in *.
        rewrite list_lookup_insert_eq in * by done. rewrite Heff.
        repeat (split; [done|]). rewrite <- !app_assoc. split; [done|].
        by eapply Hdata.
      * exists (set_client None (unlink s0)). subst w'. simpl in *.
        rewrite list_lookup_alter_eq, list_lookup_insert_eq in * by done.
        rewrite Heff. repeat (split; [done|]).
        rewrite <- !app_assoc. split; [done|].
        by eapply Hdata.
  - exists (unlink s0). subst w'. simpl in *.
    rewrite list_lookup_insert_eq in * by done. rewrite Heff.
    repeat (split; [done|]). by eapply Hdata.
Qed.

Lemma disconnect_unlinks_witness :
  let w := run [OpQr 0 Sample.token; OpClientEvent 0 5 EvReady] in
  let w' := route_disconnect 9 Sample.token false false w in
  persistedData w !! "acme" ≠ None ∧
  persistedData w' !! "acme" = None ∧
  (∃ s', heap w' !! O = Some s' ∧ isPersistent s' = false ∧
         status s' = manually_disconnected) ∧
  ∃ data, effects w'
          = effects w ++ [ClientLogout 0; ClientDestroy 0; WriteFile data].
Proof.
  intros w w'.
  assert (Hm : firmMatch Sample.token = Some "acme") by (vm_compute; reflexivity).
  destruct (disconnect_unlinks [OpQr 0 Sample.token; OpClientEvent 0 5 EvReady]
              9 Sample.token "acme" false false Hm)
    as (r & s0 & s' & Hr & Hs0 & _ & Hs' & _ & _ & _ & Hp & _ & Hst & _ & Heff & Hdata).
  assert (r = O) as -> by (vm_compute in Hr; congruence).
  assert (client s0 = Some O) as Hc by (vm_compute in Hs0; by injection Hs0 as <-).
  rewrite Hc in Heff.
  split; [by vm_compute|]. split; [exact Hdata|]. split.
  - exists s'. split; [exact Hs'|]. split; [exact Hp|exact Hst].
  - eexists. exact Heff.
Defined.

(** ** The guard and the batch of a drain *)

Example reauthenticated_run :
  heap (run Sample.reauthenticated) = [Sample.leftover].
Proof. vm_compute. reflexivity. Qed.

(** C3, as stated, fails: a drain proceeds on a session whose status is not
    [ready].  The guard reads the [isReady] flag, which the handlers of
    [qr], [authenticated] and [auth_failure] leave set when they change the
    status. *)
Lemma drain_proceeds_without_ready_status :
  ¬ (∀ ops sessionKey send,
       processMessageQueue sessionKey send (run ops) ≠ run ops →
       ∃ r s, sessions (run ops) !! sessionKey = Some r ∧
              heap (run ops) !! r = Some s ∧ status s = ready ∧
              messageQueue s ≠ [] ∧ isProcessingQueue s = false).
Proof.
  intros Hclaim.
  destruct (Hclaim Sample.reauthenticated "firm_acme" Sample.always_sent)
    as (r & s & Hr & Hs & Hst & _).
  - intros Heq. apply (f_equal (λ w, length (effects w))) in Heq.
    vm_compute in Heq. discriminate.
  - assert (r = O) as -> by (vm_compute in Hr; congruence).
    vm_compute in Hs. injection Hs as <-. discriminate.
Qed.

Lemma drain_loop_flag send n :
  ∀ i s, isProcessingQueue (drain_loop n i send s).1.1 = isProcessingQueue s.
Proof.
  induction n as [|n IH]; intros i s; [done|]. simpl.
  destruct (isReady s); [|done].
  destruct (messageQueue s) as [|m rest]; [done|].
  specialize (IH (S i) (set_messageQueue rest s)). simpl in IH.
  destruct (sendMessage send i (client s)) as [|e].
  - by destruct (drain_loop n (S i) send (set_messageQueue rest s)) as [[? ?] ?].
  - destruct (is_rate_limited e); [done|].
    by destruct (drain_loop n (S i) send (set_messageQueue rest s)) as [[? ?] ?].
Qed.

Lemma drain_blocked_true s :
  drain_blocked s = true ↔
  isReady s = false ∨ messageQueue s = [] ∨ isProcessingQueue s = true.
Proof.
  unfold drain_blocked.
  destruct (isProcessingQueue s), (isReady s), (messageQueue s); simpl;
    intuition congruence.
Qed.

Lemma processMessageQueue_result w sessionKey send r s :
  sessions w !! sessionKey = Some r → heap w !! r = Some s →
  processMessageQueue sessionKey send w
  = emit (drain send s).2 (with_heap (<[r := (drain send s).1]> (heap w)) w).
Proof.
  intros Hr Hs. unfold processMessageQueue. rewrite Hr, Hs.
  destruct (drain send s) as [s1 l]. simpl.
  by rewrite (modify_insert w r _ s Hs).
Qed.

(** A drain whose attempts are never rate limited takes the whole batch. *)
Lemma drain_whole_batch send s :
  drain_blocked s = false →
  (∀ i, rate_limited (sendMessage send i (client s)) = false) →
  let batchSize := Nat.min 5 (length (messageQueue s)) in
  ∃ l, drain send s = (set_messageQueue (drop batchSize (messageQueue s)) s, l) ∧
       sends l = imap (attempt_of send (client s)) (take batchSize (messageQueue s)).
Proof.
  intros Hgo Hsend batchSize.
  destruct (drain_spec send s Hgo) as (k & l & Hd & _ & _ & Hend).
  destruct Hend as [[-> Hs]|(_ & Hrl & _)]; [by exists l|].
  by rewrite Hsend in Hrl.
Qed.

(** ** What the steps of the process do to each session object *)

Section ObjectHistory.

(** A relation between a session object before and after, which every
    assignment of the code respects. *)
Variable R : Session → Session → Prop.

Hypothesis R_refl : ∀ s, R s s.
Hypothesis R_trans : ∀ s1 s2 s3, R s1 s2 → R s2 s3 → R s1 s3.
Hypothesis R_touch : ∀ now s, R s (set_lastActivity now s).
Hypothesis R_event : ∀ now ev s, R s (handle_event now ev s).
Hypothesis R_begin :
  ∀ s, R s (begin_initialize s).1 ∧
       ∀ c, R s (set_client (Some c) (begin_initialize s).1).
Hypothesis R_drain : ∀ send s, R s (drain send s).1.
Hypothesis R_queue : ∀ q s, R s (set_messageQueue q s).
Hypothesis R_cleared : ∀ s, R s (cleared s).
Hypothesis R_unlink : ∀ s, R s (unlink s).
Hypothesis R_noclient : ∀ s, R s (set_client None s).

Lemma follows_refl w : follows R w w.
Proof. intros r s Hs. by exists s. Qed.

Lemma follows_trans w1 w2 w3 :
  follows R w1 w2 → follows R w2 w3 → follows R w1 w3.
Proof.
  intros H12 H23 r s Hs. destruct (H12 r s Hs) as (s2 & Hs2 & HR2).
  destruct (H23 r s2 Hs2) as (s3 & Hs3 & HR3). exists s3. split; [done|].
  by eapply R_trans.
Qed.

Lemma follows_same_heap w w' : heap w' = heap w → follows R w w'.
Proof. intros Heq r s Hs. exists s. by rewrite Heq. Qed.

Lemma follows_modify r f w :
  (∀ s, heap w !! r = Some s → R s (f s)) → follows R w (modify r f w).
Proof.
  intros Hf r' s Hs. simpl. destruct (decide (r' = r)) as [->|Hne].
  - rewrite list_lookup_alter_eq, Hs. simpl. exists (f s). split; [done|].
    by apply Hf.
  - rewrite list_lookup_alter_ne by done. by exists s.
Qed.

Lemma follows_alloc l w : follows R w (with_heap (heap w ++ l) w).
Proof.
  intros r s Hs. exists s. split; [|done]. simpl. by apply lookup_app_l_Some.
Qed.

Lemma follows_getOrCreateSession now f w :
  follows R w (getOrCreateSession now f w).2.
Proof.
  unfold getOrCreateSession. case_bool_decide; [apply follows_refl|]. cbv zeta.
  assert (Htouch : ∀ r w0, follows R w0 (modify r (set_lastActivity now) w0))
    by (intros r w0; apply follows_modify; intros; apply R_touch).
  destruct (sessions w !! session_key f) as [r|] eqn:Hk.
  - rewrite Hk. simpl. apply Htouch.
  - simpl. rewrite lookup_insert_eq. simpl.
    eapply follows_trans; [|apply Htouch].
    eapply follows_trans; [apply (follows_alloc [fresh_session f now])|].
    by apply follows_same_heap.
Qed.

Lemma follows_getSession now sessionId w :
  follows R w (getSession now sessionId w).2.
Proof.
  unfold getSession.
  destruct (firmMatch sessionId);
    [apply follows_getOrCreateSession|apply follows_refl].
Qed.

Lemma follows_initializeClient sessionKey w :
  follows R w (initializeClient sessionKey w).
Proof.
  unfold initializeClient.
  destruct (sessions w !! sessionKey) as [r|]; [|apply follows_refl].
  destruct (heap w !! r) as [s|] eqn:Hs; [|apply follows_refl].
  destruct (client s) as [c0|]; [apply follows_refl|].
  destruct (R_begin s) as [Hpark Hbuild].
  destruct (begin_initialize s) as [s1 construct]. simpl in Hpark, Hbuild.
  destruct construct.
  - eapply follows_trans; [|by apply follows_same_heap].
    apply follows_modify. intros s0 Hs0. rewrite Hs in Hs0.
    injection Hs0 as <-. apply Hbuild.
  - apply follows_modify. intros s0 Hs0. rewrite Hs in Hs0.
    by injection Hs0 as <-.
Qed.

Lemma follows_processMessageQueue sessionKey send w :
  follows R w (processMessageQueue sessionKey send w).
Proof.
  unfold processMessageQueue.
  destruct (sessions w !! sessionKey) as [r|]; [|apply follows_refl].
  destruct (heap w !! r) as [s|] eqn:Hs; [|apply follows_refl].
  pose proof (R_drain send s) as Hd.
  destruct (drain send s) as [s1 l]. simpl in Hd.
  eapply follows_trans; [|by apply follows_same_heap].
  apply follows_modify. intros s0 Hs0. rewrite Hs in Hs0.
  by injection Hs0 as <-.
Qed.

Lemma follows_client_event c now ev w :
  follows R w (client_event c now ev w).
Proof.
  unfold client_event.
  destruct (clients w !! c) as [[k r]|]; [|apply follows_refl].
  destruct (heap w !! r) as [s|] eqn:Hs; [|apply follows_refl].
  assert (Hset : ∀ ev', follows R w (modify r (λ _, handle_event now ev' s) w)).
  { intros ev'. apply follows_modify. intros s0 Hs0.
    rewrite Hs in Hs0. injection Hs0 as <-. apply R_event. }
  destruct ev as [qr rendered| | |msg|reason].
  - apply (Hset (EvQr qr rendered)).
  - eapply follows_trans; [apply (Hset EvReady)|by apply follows_same_heap].
  - apply (Hset EvAuthenticated).
  - apply (Hset (EvAuthFailure msg)).
  - pose proof (Hset (EvDisconnected reason)) as Hd. simpl in Hd.
    destruct (on_disconnected reason s) as [s1 [d|]]; simpl in *; [|done].
    eapply follows_trans; [exact Hd|by apply follows_same_heap].
Qed.

Lemma follows_run_timer t w : follows R w (run_timer t w).
Proof.
  destruct t as [k|k r]; simpl; [apply follows_initializeClient|].
  destruct (sessions w !! k); [|apply follows_refl].
  destruct (heap w !! r); [|apply follows_refl].
  case_bool_decide; [apply follows_refl|apply follows_initializeClient].
Qed.

Lemma follows_sessionHeartbeat now w : follows R w (sessionHeartbeat now w).
Proof.
  unfold sessionHeartbeat. generalize (map_to_list (sessions w)).
  intros l. revert w. induction l as [|e l IH]; intros w; [apply follows_refl|].
  simpl. eapply follows_trans; [|apply IH].
  unfold heartbeat_entry. apply follows_modify. intros s _.
  destruct (_ && _); [apply R_touch|apply R_refl].
Qed.

Lemma follows_loadPersistedSessions now file w :
  follows R w (loadPersistedSessions now file w).
Proof.
  destruct file as [l|]; [|apply follows_refl]. simpl.
  revert w. induction l as [|e l IH]; intros w; [apply follows_refl|].
  simpl. eapply follows_trans; [|apply IH].
  unfold restore_entry. destruct (restorable e.2); [|apply follows_refl].
  eapply follows_trans;
    [apply (follows_alloc [restored_session e.1 e.2 now])|].
  by apply follows_same_heap.
Qed.

Lemma follows_destroy_client r c destroy_throws w :
  follows R w (destroy_client r c destroy_throws w).
Proof.
  unfold destroy_client. destruct destroy_throws; [by apply follows_same_heap|].
  eapply follows_trans; [by apply (follows_same_heap w (emit [ClientDestroy c] w))|].
  apply follows_modify. intros. apply R_noclient.
Qed.

Lemma follows_step w op : follows R w (step w op).
Proof.
  destruct op; simpl.
  - apply follows_loadPersistedSessions.
  - apply follows_getSession.
  - unfold route_qr, on_session.
    pose proof (follows_getSession now sessionId w) as Hq.
    destruct (getSession now sessionId w) as [[r|] w1]; simpl in *; [|done].
    destruct (heap w1 !! r) as [s|]; [|done].
    destruct (client s); [done|].
    eapply follows_trans; [exact Hq|apply follows_initializeClient].
  - unfold route_reset, on_session.
    pose proof (follows_getSession now sessionId w) as Hq.
    destruct (getSession now sessionId w) as [[r|] w1]; simpl in *; [|done].
    destruct (heap w1 !! r) as [s|] eqn:Hs; [|done].
    eapply follows_trans; [exact Hq|].
    eapply follows_trans; [|by apply follows_same_heap].
    assert (Hc : follows R w1 (modify r cleared w1))
      by (apply follows_modify; intros; apply R_cleared).
    destruct (client s) as [c|]; [|exact Hc].
    eapply follows_trans; [exact Hc|apply follows_destroy_client].
  - unfold route_disconnect, on_session.
    pose proof (follows_getSession now sessionId w) as Hq.
    destruct (getSession now sessionId w) as [[r|] w1]; simpl in *; [|done].
    destruct (heap w1 !! r) as [s|] eqn:Hs; [|done].
    eapply follows_trans; [exact Hq|].
    eapply follows_trans; [|by apply follows_same_heap].
    assert (Hc : follows R w1 (modify r unlink w1))
      by (apply follows_modify; intros; apply R_unlink).
    destruct (client s) as [c|]; [|exact Hc].
    eapply follows_trans; [exact Hc|].
    destruct logout_throws; [by apply follows_same_heap|].
    eapply follows_trans;
      [by apply (follows_same_heap _ (emit [ClientLogout c] (modify r unlink w1)))|].
    apply follows_destroy_client.
  - unfold route_send.
    destruct messages as [|m ms]; [apply follows_refl|]. unfold on_session.
    pose proof (follows_getSession now sessionId w) as Hq.
    destruct (getSession now sessionId w) as [[r|] w1]; simpl in *; [|done].
    destruct (heap w1 !! r) as [s|]; [|done].
    destruct (isReady s); [|done].
    eapply follows_trans; [exact Hq|].
    eapply follows_trans; [|apply follows_processMessageQueue].
    apply follows_modify. intros. apply R_queue.
  - unfold route_clear_queue, on_session.
    pose proof (follows_getSession now sessionId w) as Hq.
    destruct (getSession now sessionId w) as [[r|] w1]; simpl in *; [|done].
    destruct (heap w1 !! r) as [s|]; [|done].
    eapply follows_trans; [exact Hq|].
    apply follows_modify. intros. apply R_queue.
  - apply follows_client_event.
  - unfold fire_timer. destruct (timers w !! i) as [t|]; [|apply follows_refl].
    eapply follows_trans;
      [by apply (follows_same_heap w (with_timers (delete i (timers w)) w))|].
    apply follows_run_timer.
  - apply follows_processMessageQueue.
  - apply follows_sessionHeartbeat.
  - apply follows_same_heap. by destruct (cleanupOldSessions_sessions now w).
  - by apply follows_same_heap.
Qed.

End ObjectHistory.

(** No handler but the drain that set it clears [isProcessingQueue]: a
    call of [processMessageQueue] that finds it set returns at once, and no
    other handler assigns it. *)
Lemma step_flag_stays w op : follows flag_stays w (step w op).
Proof.
  apply follows_step; unfold flag_stays; try done.
  - intros s1 s2 s3 H12 H23 H1. by apply H23, H12.
  - intros now ev s. destruct ev as [qr rendered| | |msg|reason]; simpl; try done.
    + unfold on_qr. by destruct rendered.
    + unfold on_disconnected. simpl. by repeat case_match.
  - intros s. unfold begin_initialize. simpl. by destruct (_ <? _).
  - intros send s Hflag. unfold drain, drain_blocked. by rewrite Hflag.
Qed.

(** ** A drain in flight *)

Lemma drain_iterate_flag n :
  ∀ i s p, isProcessingQueue s = true →
    (drain_iterate n i s).2 = Suspended p →
    isProcessingQueue (drain_iterate n i s).1.1 = true.
Proof.
  induction n as [|n IH]; intros i s p Hflag; simpl; [done|].
  destruct (isReady s); [|done].
  destruct (messageQueue s) as [|m rest]; [done|]. simpl.
  destruct (client s) as [c|]; [done|].
  specialize (IH (S i) (set_messageQueue rest s) p Hflag).
  destruct (drain_iterate n (S i) (set_messageQueue rest s)) as [[s2 l] st].
  exact IH.
Qed.

Lemma drain_iterate_suspend n i s c m rest :
  isReady s = true → messageQueue s = m :: rest → client s = Some c →
  drain_iterate (S n) i s
  = (set_messageQueue rest s, [], Suspended (AwaitSend n i c m)).
Proof. intros Hready Hq Hc. simpl. rewrite Hready, Hq. simpl. by rewrite Hc. Qed.

Lemma drain_resume_flag p res s p' :
  isProcessingQueue s = true →
  (drain_resume p res s).2 = Suspended p' →
  isProcessingQueue (drain_resume p res s).1.1 = true.
Proof.
  intros Hflag. destruct p as [n i c m|n i|]; simpl; [|by apply drain_iterate_flag|done].
  destruct res as [|e]; [done|]. destruct (is_rate_limited e); [done|].
  pose proof (drain_iterate_flag n (S i) s p' Hflag) as Hit.
  destruct (drain_iterate n (S i) s) as [[s2 l] st]. exact Hit.
Qed.

Lemma drain_start_flag s p :
  (drain_start s).2 = Suspended p →
  isProcessingQueue (drain_start s).1.1 = true.
Proof.
  unfold drain_start. destruct (drain_blocked s); [done|]. cbv zeta.
  by apply drain_iterate_flag.
Qed.

(** While the drain of object [r] is suspended, the object has the flag. *)
Lemma in_flight_flag r moves :
  ∀ d : World * DrainStatus,
    (∀ p, d.2 = Suspended p →
          ∃ s, heap d.1 !! r = Some s ∧ isProcessingQueue s = true) →
    ∀ p, (foldl (move r) d moves).2 = Suspended p →
         ∃ s, heap (foldl (move r) d moves).1 !! r = Some s ∧
              isProcessingQueue s = true.
Proof.
  induction moves as [|m moves IH]; intros [w st] Hd; [done|].
  cbn [foldl]. apply IH. intros p Hp. cbn [fst snd] in Hd.
  destruct m as [op|res]; cbn [move fst snd] in Hp |- *.
  - destruct (Hd p Hp) as (s & Hs & Hflag).
    destruct (step_flag_stays w op r s Hs) as (s' & Hs' & Hstays).
    exists s'. split; [done|]. by apply Hstays.
  - destruct st as [p0| |]; [|done..].
    destruct (Hd p0 eq_refl) as (s & Hs & Hflag).
    unfold resume_at in Hp |- *. rewrite Hs in Hp |- *.
    pose proof (drain_resume_flag p0 res s p Hflag) as Hres.
    destruct (drain_resume p0 res s) as [[s1 l] st]. cbn [fst snd] in Hp, Hres |- *.
    exists s1. simpl. rewrite list_lookup_alter_eq, Hs. split; [done|].
    by apply Hres.
Qed.

Lemma start_at_flag r w p :
  (start_at r w).2 = Suspended p →
  ∃ s, heap (start_at r w).1 !! r = Some s ∧ isProcessingQueue s = true.
Proof.
  unfold start_at. destruct (heap w !! r) as [s|] eqn:Hs; [|done].
  pose proof (drain_start_flag s p) as Hstart.
  destruct (drain_start s) as [[s1 l] st]. simpl in *. intros Hp.
  exists s1. rewrite list_lookup_alter_eq, Hs. split; [done|]. by apply Hstart.
Qed.

(** Resumed with nothing in between, the drain with its suspension points
    is the drain run in one piece. *)
Lemma drain_finish_iterate send n :
  ∀ i s l0 fuel, (2 * n ≤ fuel)%nat →
    drain_finish fuel send
      (let '(s1, l1, st) := drain_iterate n i s in (s1, l0 ++ l1, st))
    = let '(s1, l, ok) := drain_loop n i send s in
      (if ok then set_isProcessingQueue false s1 else s1, l0 ++ l,
       if ok then Returned else Rejected).
Proof.
  induction n as [|n IH]; intros i s l0 fuel Hfuel.
  { simpl. by destruct fuel. }
  simpl drain_iterate. simpl drain_loop.
  destruct (isReady s); [|by destruct fuel].
  destruct (messageQueue s) as [|m rest]; [by destruct fuel|].
  cbn [client set_messageQueue].
  destruct (client s) as [c|] eqn:Hc.
  - destruct fuel as [|fuel]; [lia|]. cbn [drain_finish drain_resume awaited].
    cbn [sendMessage].
    destruct (send i) as [|e].
    + destruct fuel as [|fuel]; [lia|]. cbn [drain_finish drain_resume].
      specialize (IH (S i) (set_messageQueue rest s)
                    ((l0 ++ []) ++ [ClientSendMessage (Some c)
                                      (formatPhoneNumber (number m) +:+ "@c.us")
                                      (message m) Sent; Sleep 3000])
                    fuel ltac:(lia)).
      destruct (drain_iterate n (S i) (set_messageQueue rest s)) as [[s2 l2] st].
      rewrite IH.
      destruct (drain_loop n (S i) send (set_messageQueue rest s)) as [[s3 l3] ok].
      by rewrite app_nil_r, <- !(assoc_L (++)).
    + destruct (is_rate_limited e).
      * destruct fuel as [|fuel]; [lia|]. cbn [drain_finish drain_resume].
        destruct fuel; cbn [drain_finish]; by rewrite !app_nil_r.
      * specialize (IH (S i) (set_messageQueue rest s)
                      ((l0 ++ []) ++ [ClientSendMessage (Some c)
                                        (formatPhoneNumber (number m) +:+ "@c.us")
                                        (message m) (Threw e)])
                      fuel ltac:(lia)).
        destruct (drain_iterate n (S i) (set_messageQueue rest s)) as [[s2 l2] st].
        replace (((l0 ++ []) ++ ClientSendMessage (Some c)
                    (formatPhoneNumber (number m) +:+ "@c.us") (message m)
                    (Threw e) :: l2))
          with (((l0 ++ []) ++ [ClientSendMessage (Some c)
                    (formatPhoneNumber (number m) +:+ "@c.us") (message m)
                    (Threw e)]) ++ l2) by (by rewrite <- !(assoc_L (++))).
        rewrite IH.
        destruct (drain_loop n (S i) send (set_messageQueue rest s))
          as [[s3 l3] ok].
        by rewrite app_nil_r, <- !(assoc_L (++)).
  - cbn [sendMessage].
    destruct (is_rate_limited
                "Cannot read properties of null (reading 'sendMessage')") eqn:Hrl.
    + destruct fuel as [|fuel]; [lia|]. cbn [drain_finish drain_resume].
      destruct fuel; cbn [drain_finish]; by rewrite ?app_nil_r.
    + specialize (IH (S i) (set_messageQueue rest s)
                    (l0 ++ [ClientSendMessage None
                              (formatPhoneNumber (number m) +:+ "@c.us")
                              (message m)
                              (Threw "Cannot read properties of null (reading 'sendMessage')")])
                    fuel ltac:(lia)).
      destruct (drain_iterate n (S i) (set_messageQueue rest s)) as [[s2 l2] st].
      replace (l0 ++ ClientSendMessage None
                 (formatPhoneNumber (number m) +:+ "@c.us") (message m)
                 (Threw "Cannot read properties of null (reading 'sendMessage')")
                 :: l2)
        with ((l0 ++ [ClientSendMessage None
                 (formatPhoneNumber (number m) +:+ "@c.us") (message m)
                 (Threw "Cannot read properties of null (reading 'sendMessage')")])
              ++ l2) by (by rewrite <- !(assoc_L (++))).
      rewrite IH.
      destruct (drain_loop n (S i) send (set_messageQueue rest s)) as [[s3 l3] ok].
      by rewrite <- !(assoc_L (++)).
Qed.

Lemma drain_finish_start send s :
  drain_finish 10 send (drain_start s) = (drain send s, Returned).
Proof.
  unfold drain_start, drain. destruct (drain_blocked s) eqn:Hb; [done|].
  cbv zeta.
  pose proof (drain_finish_iterate send
                (Nat.min 5 (length (messageQueue (drain_enter s)))) O
                (drain_enter s) [] 10 ltac:(lia)) as Hfin.
  destruct (drain_blocked_false s Hb) as (_ & Hq & Hready).
  destruct (drain_loop_spec send
              (Nat.min 5 (length (messageQueue (drain_enter s)))) O
              (drain_enter s)) as (k & l & Hloop & _); [done|lia|].
  rewrite Hloop in Hfin |- *.
  destruct (drain_iterate _ _ _) as [[s1 l1] st]. cbn [app] in Hfin.
  by rewrite Hfin.
Qed.

(** C3, amended.  A call of [processMessageQueue] proceeds exactly when the
    session exists, its [isReady] flag is set, its queue is not empty and
    [isProcessingQueue] is not set; otherwise it changes nothing.  A call
    that proceeds sets the flag before anything else, and on a session with
    a client it is then suspended in its first send.  While a drain is in
    flight (at each of its suspension points, whatever other handlers have
    run in between) the flag is set on its session object, so a second call
    changes nothing.  Resumed with nothing in between, the suspended drain
    does what the drain run in one piece does.  A drain that proceeds
    attempts between one and five messages, the oldest first, each once, and
    leaves a later part of the queue.  With seven messages queued and no
    attempt rate limited, the first drain attempts the first five and leaves
    the last two, and the next drain attempts these two and leaves the queue
    empty.  In every run a session whose status is [ready] has the
    [isReady] flag set. *)
Theorem drain_gate_and_batch :
  (∀ w sessionKey send,
     sessions w !! sessionKey = None →
     processMessageQueue sessionKey send w = w) ∧
  (∀ w sessionKey send r s,
     sessions w !! sessionKey = Some r → heap w !! r = Some s →
     (isReady s = false ∨ messageQueue s = [] ∨ isProcessingQueue s = true →
      processMessageQueue sessionKey send w = w) ∧
     (isReady s = true → messageQueue s ≠ [] → isProcessingQueue s = false →
      ∃ k t l,
        (k ≤ t)%nat ∧ (1 ≤ t ≤ 5)%nat ∧
        processMessageQueue sessionKey send w
        = emit l (with_heap
                    (<[r := set_messageQueue (drop k (messageQueue s)) s]>
                       (heap w)) w) ∧
        sends l = imap (attempt_of send (client s)) (take t (messageQueue s)))) ∧
  (∀ s c messageData rest,
     isReady s = true → isProcessingQueue s = false →
     messageQueue s = messageData :: rest → client s = Some c →
     drain_start s
     = (set_messageQueue rest (set_isProcessingQueue true s), [],
        Suspended (AwaitSend (Nat.min 5 (S (length rest)) - 1) 0 c messageData))) ∧
  (∀ w r moves p,
     let d := foldl (move r) (start_at r w) moves in
     d.2 = Suspended p →
     ∃ s, heap d.1 !! r = Some s ∧ isProcessingQueue s = true ∧
          (∀ send, drain send s = (s, [])) ∧
          drain_start s = (s, [], Returned) ∧
          ∀ sessionKey send, sessions d.1 !! sessionKey = Some r →
                             processMessageQueue sessionKey send d.1 = d.1) ∧
  (∀ send s, drain_finish 10 send (drain_start s) = (drain send s, Returned)) ∧
  (∀ send1 send2 s q,
     isReady s = true → isProcessingQueue s = false →
     messageQueue s = q → length q = 7%nat →
     (∀ i, rate_limited (sendMessage send1 i (client s)) = false) →
     (∀ i, rate_limited (sendMessage send2 i (client s)) = false) →
     let first := drain send1 s in
     let second := drain send2 first.1 in
     messageQueue first.1 = drop 5 q ∧ length (messageQueue first.1) = 2%nat ∧
     sends first.2 = imap (attempt_of send1 (client s)) (take 5 q) ∧
     messageQueue second.1 = [] ∧
     sends second.2 = imap (attempt_of send2 (client s)) (drop 5 q)) ∧
  (∀ ops r s, heap (run ops) !! r = Some s → status s = ready →
              isReady s = true).
Proof.
  assert (Hblocked_noop : ∀ w sessionKey send r s,
            sessions w !! sessionKey = Some r → heap w !! r = Some s →
            drain_blocked s = true →
            processMessageQueue sessionKey send w = w).
  { intros w sessionKey send r s Hr Hs Hb.
    rewrite (processMessageQueue_result w sessionKey send r s Hr Hs).
    unfold drain, drain_enter. rewrite Hb. simpl.
    rewrite (list_insert_id _ _ _ Hs). unfold emit.
    rewrite app_nil_r. by destruct w. }
  split; [|split; [|split; [|split; [|split; [|split]]]]].
  - intros w sessionKey send Hnone. unfold processMessageQueue. by rewrite Hnone.
  - intros w sessionKey send r s Hr Hs. split.
    + intros Hblocked%drain_blocked_true. by eapply Hblocked_noop.
    + rewrite (processMessageQueue_result w sessionKey send r s Hr Hs).
      intros Hready Hq Hflag.
      assert (Hgo : drain_blocked s = false).
      { destruct (drain_blocked s) eqn:Hb; [|done].
        apply drain_blocked_true in Hb. intuition congruence. }
      destruct (drain_spec send s Hgo) as (k & l & -> & Hk & _ & Hend).
      assert (Hlen : (1 ≤ length (messageQueue s))%nat)
        by (destruct (messageQueue s); [done|simpl; lia]).
      destruct Hend as [[-> Hsends]|(Hlt & _ & Hsends & _)].
      * exists (Nat.min 5 (length (messageQueue s))),
               (Nat.min 5 (length (messageQueue s))), l.
        split; [done|]. split; [lia|]. done.
      * exists k, (S k), l. split; [lia|]. split; [lia|]. done.
  - intros s c m rest Hready Hflag Hq Hc.
    assert (Hb : drain_blocked s = false)
      by (unfold drain_blocked; by rewrite Hflag, Hq, Hready).
    unfold drain_start. rewrite Hb. cbv zeta.
    assert (Hq0 : messageQueue (drain_enter s) = m :: rest) by exact Hq.
    rewrite Hq0. simpl length.
    destruct (Nat.min 5 (S (length rest))) as [|n] eqn:Hmin; [lia|].
    rewrite Nat.sub_succ, Nat.sub_0_r.
    by apply (drain_iterate_suspend n O (drain_enter s)).
  - intros w r moves p d Hp.
    destruct (in_flight_flag r moves (start_at r w) (start_at_flag r w) p Hp)
      as (s & Hs & Hflag).
    fold d in Hs. exists s. split; [done|]. split; [done|].
    assert (Hb : drain_blocked s = true)
      by (apply drain_blocked_true; by right; right).
    split; [by intros send; unfold drain; rewrite Hb|].
    split; [by unfold drain_start; rewrite Hb|].
    intros sessionKey send Hk. by eapply Hblocked_noop.
  - apply drain_finish_start.
  - intros send1 send2 s q Hready Hflag Hq Hlen Hs1 Hs2 first second.
    assert (Hgo : drain_blocked s = false).
    { unfold drain_blocked. rewrite Hflag, Hready, Hq, Hlen. done. }
    destruct (drain_whole_batch send1 s Hgo Hs1) as (l1 & Hd1 & Hl1).
    rewrite Hq, Hlen in Hd1, Hl1. simpl Nat.min in Hd1, Hl1.
    subst second first. rewrite Hd1. simpl fst. simpl snd.
    assert (Hlen2 : length (drop 5 q) = 2%nat) by (rewrite length_drop; lia).
    assert (Hgo2 : drain_blocked (set_messageQueue (drop 5 q) s) = false).
    { unfold drain_blocked. simpl. rewrite Hflag, Hready, Hlen2. done. }
    destruct (drain_whole_batch send2 _ Hgo2 Hs2) as (l2 & Hd2 & Hl2).
    simpl in Hd2, Hl2. rewrite Hlen2 in Hd2, Hl2. simpl Nat.min in Hd2, Hl2.
    rewrite Hd2. simpl.
    split; [done|]. split; [done|]. split; [done|]. split.
    + rewrite drop_drop. apply drop_ge. lia.
    + rewrite Hl2. by rewrite take_ge by lia.
  - intros ops r s Hs Hst. destruct (Inv_run ops) as (_ & _ & Hgood).
    destruct (Hgood r s Hs) as [Hg _]. by destruct (Hg Hst).
Qed.

Lemma drain_gate_and_batch_witness :
  let w := run Sample.reauthenticated in
  let d := foldl (move O) (start_at O w)
             [Elsewhere (OpSend 8 Sample.token true [Sample.msg "g"]
                           Sample.always_sent);
              Elsewhere (OpDrain "firm_acme" Sample.always_sent)] in
  processMessageQueue "firm_zeta" Sample.always_sent w = w ∧
  (∃ k t l, (k ≤ t)%nat ∧ (1 ≤ t ≤ 5)%nat ∧
     sends (effects (processMessageQueue "firm_acme" Sample.always_sent w))
     = sends (effects w) ++ sends l ∧
     sends l = imap (attempt_of Sample.always_sent (Some O)) (take t [Sample.msg "f"])) ∧
  (∃ s, heap d.1 !! O = Some s ∧ isProcessingQueue s = true ∧
        processMessageQueue "firm_acme" Sample.always_sent d.1 = d.1) ∧
  messageQueue
    (drain Sample.always_sent
       (set_messageQueue (Sample.msg "g" :: Sample.six) Sample.busy)).1
  = [Sample.msg "e"; Sample.msg "f"].
Proof.
  cbv zeta.
  destruct drain_gate_and_batch
    as (Hmissing & Hgate & _ & Hflight & _ & Hseven & _).
  assert (Hz : sessions (run Sample.reauthenticated) !! "firm_zeta" = None)
    by (vm_compute; reflexivity).
  assert (Hk : sessions (run Sample.reauthenticated) !! "firm_acme" = Some O)
    by (vm_compute; reflexivity).
  assert (Hs : heap (run Sample.reauthenticated) !! O = Some Sample.leftover)
    by (vm_compute; reflexivity).
  assert (Hd : (foldl (move O) (start_at O (run Sample.reauthenticated))
                  [Elsewhere (OpSend 8 Sample.token true [Sample.msg "g"]
                                Sample.always_sent);
                   Elsewhere (OpDrain "firm_acme" Sample.always_sent)]).2
               = Suspended (AwaitSend 0 0 O (Sample.msg "f")))
    by (vm_compute; reflexivity).
  assert (Hdk : sessions
                  (foldl (move O) (start_at O (run Sample.reauthenticated))
                     [Elsewhere (OpSend 8 Sample.token true [Sample.msg "g"]
                                   Sample.always_sent);
                      Elsewhere (OpDrain "firm_acme" Sample.always_sent)]).1
                !! "firm_acme" = Some O)
    by (vm_compute; reflexivity).
  revert Hz Hk Hs Hd Hdk. generalize (run Sample.reauthenticated).
  intros w Hz Hk Hs Hd Hdk.
  split; [by apply Hmissing|]. split; [|split].
  - destruct (Hgate w "firm_acme" Sample.always_sent O Sample.leftover Hk Hs)
      as [_ Hgo].
    destruct Hgo as (k & t & l & Hkt & Ht & -> & Hl); [done|done|done|].
    exists k, t, l. split; [done|]. split; [done|].
    split; [|done]. change (sends (effects w ++ l) = sends (effects w) ++ sends l).
    unfold sends. apply omap_app.
  - destruct (Hflight w O _ _ Hd) as (s & Hs' & Hflag & _ & _ & Hnoop).
    exists s. split; [exact Hs'|]. split; [exact Hflag|].
    by apply Hnoop.
  - destruct (Hseven Sample.always_sent Sample.always_sent
                (set_messageQueue (Sample.msg "g" :: Sample.six) Sample.busy)
                (Sample.msg "g" :: Sample.six)) as (Hfirst & _);
      try done.
Defined.

(** * Further properties of the code *)

(** ** Substrings and the rate-limit test *)

Lemma startsWith_iff p s :
  JsString.startsWith p s = true ↔ ∃ b, s = p +:+ b.
Proof.
  split.
  - intros H. exists (JsString.drop (String.length p) s).
    symmetry. by apply JsStringFacts.startsWith_app.
  - intros [b ->]. apply JsStringFacts.startsWith_prefix.
Qed.

Lemma includes_iff needle s :
  JsString.includes needle s = true ↔ ∃ a b, s = a +:+ needle +:+ b.
Proof.
  induction s as [|c s IH]; simpl.
  - rewrite orb_false_r, startsWith_iff. split.
    + intros [b Hb]. by exists "", b.
    + intros (a & b & Hab). destruct a as [|? ?]; [by exists b|done].
  - rewrite orb_true_iff, startsWith_iff, IH. split.
    + intros [[b Hb]|(a & b & ->)]; [by exists "", b|].
      by exists (String c a), b.
    + intros (a & b & Hab). destruct a as [|c' a].
      * left. by exists b.
      * right. injection Hab as -> ->. by exists a, b.
Qed.

(** X1.  The drain classifies an error as rate limiting exactly when its
    message contains [rate] or [limit] as a substring, in this case of
    letters; so a message such as one that fails to generate something is
    classified as rate limiting as well. *)
Theorem is_rate_limited_iff (errorMessage : string) :
  (is_rate_limited errorMessage = true ↔
   ∃ a b, errorMessage = a +:+ "rate" +:+ b ∨ errorMessage = a +:+ "limit" +:+ b) ∧
  is_rate_limited "Rate Limit" = false ∧
  is_rate_limited "Failed to generate preview" = true.
Proof.
  split; [|done]. unfold is_rate_limited.
  rewrite orb_true_iff, !includes_iff. split.
  - intros [(a & b & ->)|(a & b & ->)]; exists a, b; auto.
  - intros (a & b & [->| ->]); [left|right]; by exists a, b.
Qed.

(** ** The shape of normalised phone numbers *)

Lemma length_app_string s t :
  String.length (s +:+ t) = (String.length s + String.length t)%nat.
Proof.
  induction s as [|c s IH]; [done|].
  change (String c s +:+ t) with (String c (s +:+ t)). simpl. by rewrite IH.
Qed.

Lemma all_app_string p s t :
  JsString.all p (s +:+ t) = JsString.all p s && JsString.all p t.
Proof.
  induction s as [|c s IH]; [done|].
  change (String c s +:+ t) with (String c (s +:+ t)). simpl.
  by rewrite IH, andb_assoc.
Qed.

Lemma all_drop p n s :
  JsString.all p s = true → JsString.all p (JsString.drop n s) = true.
Proof.
  revert s. induction n as [|n IH]; intros [|c s]; simpl; try done.
  intros [_ Hs]%andb_true_iff. auto.
Qed.

(** What [formatPhoneNumber] returns. *)
Lemma formatPhoneNumber_result phone :
  JsString.all JsString.is_digit (formatPhoneNumber phone) = true ∧
  ((String.length (formatPhoneNumber phone) = 12%nat ∧
    JsString.startsWith "91" (formatPhoneNumber phone) = true)
   ∨ ((String.length (formatPhoneNumber phone) < 10)%nat ∧
      formatPhoneNumber phone = JsString.strip_non_digits phone)).
Proof.
  unfold formatPhoneNumber.
  pose proof (JsStringFacts.all_strip_non_digits phone) as Hd.
  set (digits := JsString.strip_non_digits phone) in *.
  destruct (JsString.startsWith "91" digits
            && (String.length digits =? 12)%nat) eqn:Hintl.
  { apply andb_true_iff in Hintl as [H91 H12%Nat.eqb_eq].
    split; [done|]. by left. }
  destruct (String.length digits =? 10)%nat eqn:H10.
  { apply Nat.eqb_eq in H10. split.
    - by rewrite all_app_string, Hd.
    - left. by rewrite length_app_string, H10, JsStringFacts.startsWith_prefix. }
  destruct (10 <=? String.length digits)%nat eqn:Hge.
  - apply Nat.leb_le in Hge. split.
    + rewrite all_app_string. apply andb_true_iff. split; [done|].
      by apply all_drop.
    + left. rewrite length_app_string, JsStringFacts.length_slice_last by done.
      by rewrite JsStringFacts.startsWith_prefix.
  - apply Nat.leb_gt in Hge. split; [done|]. by right.
Qed.

(** X2.  A normalised number consists of digits only, and it is either a
    number of twelve digits that starts with 91 or the stripped input of
    fewer than ten digits.  Normalising twice is the same as normalising
    once. *)
Theorem formatPhoneNumber_idempotent (phone : string) :
  let out := formatPhoneNumber phone in
  JsString.all JsString.is_digit out = true ∧
  ((String.length out = 12%nat ∧ JsString.startsWith "91" out = true)
   ∨ (String.length out < 10)%nat) ∧
  formatPhoneNumber out = out.
Proof.
  intros out. destruct (formatPhoneNumber_result phone) as [Hd Hshape].
  fold out in Hd, Hshape. split; [done|]. split; [tauto|].
  clearbody out.
  unfold formatPhoneNumber.
  rewrite (JsStringFacts.strip_non_digits_id out Hd).
  destruct Hshape as [[H12 H91]|[Hlt _]].
  - by rewrite H91, H12.
  - destruct (String.length out =? 12)%nat eqn:E12;
      [apply Nat.eqb_eq in E12; lia|].
    rewrite andb_false_r.
    destruct (String.length out =? 10)%nat eqn:E10;
      [apply Nat.eqb_eq in E10; lia|].
    destruct (10 <=? String.length out)%nat eqn:Ege;
      [apply Nat.leb_le in Ege; lia|done].
Qed.

(** ** Ordinals *)

Example getOrdinalNumber_samples :
  getOrdinalNumber <$> [1; 2; 3; 4; 11; 12; 13; 21; 22; 23; 100; 101; 111; 112]
  = ["1st"; "2nd"; "3rd"; "4th"; "11th"; "12th"; "13th"; "21st"; "22nd";
     "23rd"; "100th"; "101st"; "111th"; "112th"].
Proof. vm_compute. reflexivity. Qed.

Lemma ordinal_suffix_table :
  forallb (λ v, String.eqb (ordinal_suffix v) (expected_suffix v))
    (Z.of_nat <$> seq 0 100) = true.
Proof. vm_compute. reflexivity. Qed.

Lemma ordinal_suffix_periodic num :
  0 ≤ num →
  ordinal_suffix num = ordinal_suffix (num `mod` 100) ∧
  expected_suffix num = expected_suffix (num `mod` 100).
Proof.
  intros Hnum. split.
  - unfold ordinal_suffix. pose proof (Z.mod_pos_bound num 100).
    rewrite (Z.rem_mod_nonneg num 100) by lia.
    rewrite (Z.rem_mod_nonneg (num `mod` 100) 100) by lia.
    by rewrite Z.mod_mod.
  - unfold expected_suffix. rewrite Z.mod_mod by lia.
    by rewrite (Z.mod_mod_divide num 100 10) by (by exists 10).
Qed.

(** X3.  For a day number that is a safe integer (below 2^53 in absolute
    value) and not negative, [getOrdinalNumber] appends the English ordinal
    suffix to the decimal numeral: st, nd and rd after a last digit 1, 2 and
    3, except that numbers ending in 11, 12 and 13 take th like all others.
    A negative safe integer always takes th. *)
Theorem getOrdinalNumber_suffix (num : Z) :
  safe_integer num →
  (0 ≤ num → getOrdinalNumber num = pretty num +:+ expected_suffix num) ∧
  (num < 0 → getOrdinalNumber num = pretty num +:+ "th").
Proof.
  intros _. unfold getOrdinalNumber. split; intros Hnum; f_equal.
  - destruct (ordinal_suffix_periodic num Hnum) as [-> ->].
    pose proof (Z.mod_pos_bound num 100) as Hv.
    set (v := num `mod` 100) in *.
    pose proof ordinal_suffix_table as Htable.
    rewrite forallb_forall in Htable.
    clearbody v. apply String.eqb_eq, Htable, list_elem_of_In.
    apply list_elem_of_fmap. exists (Z.to_nat v). split; [lia|].
    apply elem_of_seq. lia.
  - unfold ordinal_suffix.
    pose proof (Z.rem_bound_pos_neg num 100) as Hv.
    set (v := Z.rem num 100) in *.
    pose proof (Z.rem_bound_pos_neg (v - 20) 10) as Hw.
    set (w := Z.rem (v - 20) 10) in *.
    assert (Hat : ∀ i, i ≤ 0 → suffix_at i = None ∨ suffix_at i = Some "th").
    { intros i Hi. unfold suffix_at. destruct (i <? 0) eqn:Hlt; [by left|].
      apply Z.ltb_ge in Hlt. right. by replace i with 0 by lia. }
    destruct (Hat w) as [-> | ->]; [lia| |done].
    destruct (Hat v) as [-> | ->]; [lia|done|done].
Qed.

Lemma getOrdinalNumber_suffix_witness :
  getOrdinalNumber 22 = "22nd" ∧ getOrdinalNumber (-1) = "-1th".
Proof.
  split.
  - destruct (getOrdinalNumber_suffix 22) as [Hnat _]; [unfold safe_integer; lia|].
    rewrite Hnat by lia. vm_compute. reflexivity.
  - destruct (getOrdinalNumber_suffix (-1)) as [_ Hneg];
      [unfold safe_integer; lia|].
    rewrite Hneg by lia. vm_compute. reflexivity.
Defined.

(** ** What a drain does to the queue, whatever the outcomes are *)

Lemma drain_outcome send s :
  ∃ k t l,
    drain send s = (set_messageQueue (drop k (messageQueue s)) s, l) ∧
    sends l = imap (attempt_of send (client s)) (take t (messageQueue s)) ∧
    (k ≤ t ≤ S k)%nat ∧ (t ≤ Nat.min 5 (length (messageQueue s)))%nat ∧
    (drain_blocked s = true → t = O).
Proof.
  destruct (drain_blocked s) eqn:Hb.
  - exists O, O, []. unfold drain, drain_enter. rewrite Hb. split.
    { f_equal. symmetry. exact (set_messageQueue_same s). }
    repeat split; lia.
  - destruct (drain_spec send s Hb) as (k & l & Hd & Hk & _ & Hend).
    destruct Hend as [[-> Hs]|(Hlt & _ & Hs & _)].
    + exists (Nat.min 5 (length (messageQueue s))),
             (Nat.min 5 (length (messageQueue s))), l.
      repeat split; try done; lia.
    + exists k, (S k), l. repeat split; try done; lia.
Qed.

(** X4.  Whatever the outcomes of the send attempts are, a drain changes
    nothing in the session but the queue, and the queue it leaves is the old
    one without its first [k] messages.  It attempts the first [t] messages
    of the old queue, in order and once each, with [t] at most five and
    [k <= t <= k + 1]: every message that left the queue was attempted, and
    at most one attempted message (a rate-limited one) is still queued. *)
Theorem drain_conserves (send : nat -> SendResult) (s : Session) :
  ∃ k t,
    (drain send s).1 = set_messageQueue (drop k (messageQueue s)) s ∧
    sends (drain send s).2
    = imap (attempt_of send (client s)) (take t (messageQueue s)) ∧
    length (sends (drain send s).2) = t ∧
    (length (messageQueue (drain send s).1) + k = length (messageQueue s))%nat ∧
    (k ≤ t ≤ S k)%nat ∧ (t ≤ 5)%nat.
Proof.
  destruct (drain_outcome send s) as (k & t & l & -> & Hs & Hkt & Ht & _).
  exists k, t. simpl. split; [done|]. split; [done|].
  split; [rewrite Hs, length_imap, length_take; lia|].
  split; [rewrite length_drop; lia|]. split; lia.
Qed.

(** ** The send routes *)

Lemma route_send_result (w w1 : World) (now : Z) (sessionId : string)
    (validate : bool) (m : QueuedMessage) (ms : list QueuedMessage)
    (send : nat -> SendResult) (r : nat) (s0 : Session) :
  getSession now sessionId w = (Some r, w1) → heap w1 !! r = Some s0 →
  sessions w1 !! session_key (firmId s0) = Some r →
  let queued := if validate
                then filter (λ x, incomplete x = false) (m :: ms)
                else m :: ms in
  let s1 := set_messageQueue (messageQueue s0 ++ queued) s0 in
  route_send now sessionId validate (m :: ms) send w
  = if isReady s0
    then emit (drain send s1).2
           (with_heap (<[r := (drain send s1).1]> (heap w1)) w1)
    else w1.
Proof.
  intros Hget Hs0 Hk queued s1. unfold route_send, on_session.
  rewrite Hget. simpl. rewrite Hs0. destruct (isReady s0); [|done].
  rewrite (modify_insert w1 r _ s0 Hs0). fold queued. fold s1.
  assert (Hlt : (r < length (heap w1))%nat) by (by eapply lookup_lt_Some).
  erewrite processMessageQueue_result;
    [|exact Hk|by simpl; apply list_lookup_insert_eq].
  simpl. by rewrite list_insert_insert_eq.
Qed.

(** X5.  A send route changes nothing when the list of messages is empty or
    the token does not resolve.  Otherwise it resolves the session; when the
    session is not ready it queues nothing and has no effect on the outside;
    when it is ready, the messages (the complete ones only, on the bulk
    route) go to the back of the queue in their order and one drain runs at
    once: the queue afterwards is the extended queue without its first [k]
    messages, of which the first [t] were attempted, [t] at most five and
    [k <= t <= k + 1]. *)
Theorem route_send_queues (ops : list Op) (now : Z) (sessionId : string)
    (validate : bool) (messages : list QueuedMessage)
    (send : nat -> SendResult) :
  let w := run ops in
  let found := getSession now sessionId w in
  let w' := route_send now sessionId validate messages send w in
  let queued := if validate
                then filter (λ x, incomplete x = false) messages
                else messages in
  (messages = [] ∨ firmMatch sessionId = None → w' = w) ∧
  (∀ f, firmMatch sessionId = Some f → messages ≠ [] →
     ∃ r s0,
       found.1 = Some r ∧ heap found.2 !! r = Some s0 ∧ firmId s0 = f ∧
       (isReady s0 = false → w' = found.2 ∧ effects w' = effects w) ∧
       (isReady s0 = true →
          ∃ k t l,
            heap w'
            = <[r := set_messageQueue (drop k (messageQueue s0 ++ queued)) s0]>
                (heap found.2) ∧
            sessions w' = sessions found.2 ∧
            effects w' = effects w ++ l ∧
            sends l = imap (attempt_of send (client s0))
                        (take t (messageQueue s0 ++ queued)) ∧
            (k ≤ t ≤ S k)%nat ∧ (t ≤ 5)%nat)).
Proof.
  intros w found w' queued. split.
  - intros [->|Hnone]; [done|]. subst w'. unfold route_send, on_session, getSession.
    rewrite Hnone. by destruct messages.
  - intros f Hf Hne.
    destruct (getSession_found w now sessionId f (Inv_run ops) Hf)
      as (r & s0 & w1 & Hget & _ & Hk & Hs0 & Hfirm & Heff).
    destruct messages as [|m ms]; [done|].
    assert (Hw' : w' = _) by exact (route_send_result w w1 now sessionId validate
      m ms send r s0 Hget Hs0 ltac:(by rewrite Hfirm)).
    clearbody w'. subst found. rewrite Hget. simpl fst. simpl snd.
    exists r, s0. split; [done|]. split; [done|]. split; [done|].
    fold queued in Hw'. split.
    + intros Hr. rewrite Hr in Hw'. by subst w'.
    + intros Hr. rewrite Hr in Hw'.
      destruct (drain_outcome send
                  (set_messageQueue (messageQueue s0 ++ queued) s0))
        as (k & t & l & Hd & Hs & Hkt & Ht & _).
      rewrite Hd in Hw'. simpl in Hw', Hs. subst w'.
      exists k, t, l. simpl. rewrite Heff.
      split; [done|]. split; [done|]. split; [done|]. split; [done|].
      split; lia.
Qed.

Lemma route_send_queues_witness :
  let w := run [OpQr 0 Sample.token] in
  route_send 1 "firm_zeta" true Sample.six Sample.always_sent w = w ∧
  effects (route_send 1 Sample.token true Sample.six Sample.always_sent w)
  = effects w.
Proof.
  cbv zeta.
  destruct (route_send_queues [OpQr 0 Sample.token] 1 "firm_zeta" true
              Sample.six Sample.always_sent) as [Hnone _].
  split; [apply Hnone; right; vm_compute; reflexivity|].
  destruct (route_send_queues [OpQr 0 Sample.token] 1 Sample.token true
              Sample.six Sample.always_sent) as [_ Hsome].
  destruct (Hsome "acme") as (r & s0 & Hr & Hs0 & _ & Hidle & _);
    [vm_compute; reflexivity|discriminate|].
  apply Hidle.
  assert (r = O) as -> by (vm_compute in Hr; congruence).
  vm_compute in Hs0. by injection Hs0 as <-.
Defined.

(** ** The reaper, entry by entry *)

Lemma cleanup_entry_cases now w n e :
  (∃ s, heap w !! e.2 = Some s ∧ evicts now s = true ∧
        cleanup_entry now (w, n) e
        = (with_sessions (delete e.1 (sessions w))
             (emit (match client s with
                    | Some c => [ClientDestroy c]
                    | None => []
                    end) w), S n))
  ∨ ((∀ s, heap w !! e.2 = Some s → evicts now s = false) ∧
     cleanup_entry now (w, n) e = (w, n)).
Proof.
  unfold cleanup_entry. destruct (heap w !! e.2) as [s|] eqn:Hs.
  2: { right. by split. }
  destruct (evicts now s) eqn:Hev.
  - left. exists s. split; [done|]. split; [done|].
    destruct (client s); [done|]. unfold emit. rewrite app_nil_r.
    by destruct w.
  - right. split; [|done]. by intros s' [= <-].
Qed.

(** The sweep over a list of entries: the effects are client destructions,
    one for every evicted session that has a client; the count tells
    whether anything was evicted; nothing but registry and effects changes. *)
Lemma cleanup_fold_effects now l :
  ∀ w n, ∃ ds,
    let res := foldl (cleanup_entry now) (w, n) l in
    effects res.1 = effects w ++ ds ∧
    clients res.1 = clients w ∧ timers res.1 = timers w ∧
    (∀ d, d ∈ ds → ∃ c, d = ClientDestroy c) ∧
    (∀ e s c, e ∈ l → heap w !! e.2 = Some s → evicts now s = true →
              client s = Some c → ClientDestroy c ∈ ds) ∧
    (∀ e s, e ∈ l → heap w !! e.2 = Some s → evicts now s = true →
            (n < res.2)%nat ∧ sessions res.1 !! e.1 = None) ∧
    (n ≤ res.2)%nat ∧
    ((∀ e s, e ∈ l → heap w !! e.2 = Some s → evicts now s = false) →
     res = (w, n)).
Proof.
  induction l as [|e l IH]; intros w n.
  { exists []. cbv zeta. simpl. rewrite app_nil_r.
    repeat split; try done; intros; by decompose_list_elem_of. }
  cbv zeta. change (foldl (cleanup_entry now) (w, n) (e :: l))
    with (foldl (cleanup_entry now) (cleanup_entry now (w, n) e) l).
  pose proof (cleanup_fold_sessions now l (cleanup_entry now (w, n) e))
    as (Hheap' & Hsub' & _). cbv zeta in Hheap', Hsub'.
  destruct (cleanup_entry_cases now w n e)
    as [(s & Hs & Hev & Heq)|[Hno Heq]]; rewrite Heq in *.
  - destruct (IH (with_sessions (delete e.1 (sessions w))
                    (emit (match client s with
                           | Some c => [ClientDestroy c]
                           | None => []
                           end) w)) (S n))
      as (ds & Heff & Hcl & Htm & Hds & Hin & Hcount & Hle & _).
    cbv zeta in Heff, Hcl, Htm, Hin, Hcount, Hle. simpl in Heff, Hcl, Htm, Hin, Hcount.
    set (res := foldl (cleanup_entry now) _ l) in *.
    exists (match client s with Some c => [ClientDestroy c] | None => [] end ++ ds).
    split; [by rewrite Heff, app_assoc|]. split; [done|]. split; [done|].
    split.
    { intros d [Hd|Hd]%elem_of_app; [|by apply Hds].
      destruct (client s) as [c|]; [|by apply elem_of_nil in Hd].
      apply list_elem_of_singleton in Hd. by exists c. }
    split.
    { intros e' s' c [->|He']%elem_of_cons Hs' Hev' Hc'.
      - assert (s' = s) as -> by congruence. rewrite Hc'.
        apply elem_of_app. left. by apply list_elem_of_singleton.
      - apply elem_of_app. right. by eapply Hin. }
    split.
    { intros e' s' [->|He']%elem_of_cons Hs' Hev'.
      - split; [lia|]. destruct (sessions res.1 !! e.1) as [r'|] eqn:Hr'; [|done].
        apply Hsub' in Hr'. simpl in Hr'. by rewrite lookup_delete_eq in Hr'.
      - destruct (Hcount e' s' He' Hs' Hev'). split; [lia|done]. }
    split; [lia|].
    intros Hnone. rewrite (Hnone e s) in Hev; [done|by left|done].
  - destruct (IH w n) as (ds & Heff & Hcl & Htm & Hds & Hin & Hcount & Hle & Hsame).
    exists ds. cbv zeta in *.
    split; [done|]. split; [done|]. split; [done|]. split; [done|].
    split.
    { intros e' s' c [->|He']%elem_of_cons Hs' Hev' Hc'.
      - by rewrite (Hno s' Hs') in Hev'.
      - by eapply Hin. }
    split.
    { intros e' s' [->|He']%elem_of_cons Hs' Hev'.
      - by rewrite (Hno s' Hs') in Hev'.
      - by eapply Hcount. }
    split; [done|]. intros Hnone. apply Hsame.
    intros e' s' He'. apply Hnone. by right.
Qed.

Lemma cleanupOldSessions_unchanged now w :
  (∀ k r s, sessions w !! k = Some r → heap w !! r = Some s →
            evicts now s = false) →
  cleanupOldSessions now w = w.
Proof.
  intros Hnone. unfold cleanupOldSessions.
  destruct (cleanup_fold_effects now (map_to_list (sessions w)) w O)
    as (ds & _ & _ & _ & _ & _ & _ & _ & Hsame).
  cbv zeta in Hsame. rewrite Hsame; [done|].
  intros [k r] s Hin%elem_of_map_to_list Hs. by eapply Hnone.
Qed.

(** The registry after a sweep. *)
Lemma cleanupOldSessions_lookup now w k :
  sessions (cleanupOldSessions now w) !! k
  = match sessions w !! k with
    | Some r => match heap w !! r with
                | Some s => if evicts now s then None else Some r
                | None => Some r
                end
    | None => None
    end.
Proof.
  destruct (cleanupOldSessions_sessions now w) as (_ & Hsub & Hkeep).
  destruct (cleanup_fold_effects now (map_to_list (sessions w)) w O)
    as (ds & _ & _ & _ & _ & _ & Hcount & _).
  destruct (cleanup_fold_sessions now (map_to_list (sessions w)) (w, O))
    as (_ & _ & Hkeep').
  cbv zeta in Hcount, Hkeep'.
  assert (Hw' : cleanupOldSessions now w
                = let '(w1, n) := foldl (cleanup_entry now) (w, O)
                                    (map_to_list (sessions w)) in
                  if (0 <? n)%nat then savePersistedSessions w1 else w1)
    by done.
  destruct (foldl _ _ _) as [w1 n]. simpl in Hcount, Hkeep'.
  destruct (sessions w !! k) as [r|] eqn:Hk.
  - destruct (heap w !! r) as [s|] eqn:Hs.
    + destruct (evicts now s) eqn:Hev; [|by eapply Hkeep].
      destruct (Hcount (k, r) s) as [_ Hgone];
        [by apply elem_of_map_to_list|done|done|].
      rewrite Hw'. by destruct (0 <? n)%nat.
    + assert (Hk1 : sessions w1 !! k = Some r).
      { apply Hkeep'; [done|].
        intros r' s' Hin'%elem_of_map_to_list Hs'. congruence. }
      rewrite Hw'. by destruct (0 <? n)%nat.
  - destruct (sessions (cleanupOldSessions now w) !! k) as [r'|] eqn:Hk'; [|done].
    apply Hsub in Hk'. congruence.
Qed.

(** X6.  A sweep of the reaper removes from the registry exactly the
    sessions it finds evictable: a persistent session when its age exceeds
    three times the timeout and it is not ready and [disconnected], another
    session when it is idle for more than the timeout or older than three
    times the timeout.  It touches no session object, no closure and no
    timer.  When nothing is evictable the state is unchanged, so nothing is
    saved; when a session is evicted, its client, if any, is destroyed and
    the sweep ends with the persistence save.  A second sweep at the same
    clock changes nothing. *)
Theorem cleanupOldSessions_exact (w : World) (now : Z) :
  let w' := cleanupOldSessions now w in
  heap w' = heap w ∧ clients w' = clients w ∧ timers w' = timers w ∧
  (∀ k, sessions w' !! k
        = match sessions w !! k with
          | Some r => match heap w !! r with
                      | Some s => if evicts now s then None else Some r
                      | None => Some r
                      end
          | None => None
          end) ∧
  ((∀ k r s, sessions w !! k = Some r → heap w !! r = Some s →
             evicts now s = false) → w' = w) ∧
  (∀ k r s, sessions w !! k = Some r → heap w !! r = Some s →
            evicts now s = true →
     ∃ ds, effects w' = effects w ++ ds ++ [WriteFile (persistedData w')] ∧
           (∀ d, d ∈ ds → ∃ c, d = ClientDestroy c) ∧
           (∀ c, client s = Some c → ClientDestroy c ∈ ds)) ∧
  cleanupOldSessions now w' = w'.
Proof.
  intros w'.
  destruct (cleanupOldSessions_sessions now w) as (Hheap & Hsub & Hkeep).
  fold w' in Hheap, Hsub, Hkeep.
  assert (Hfold : ∃ ds n w1,
    foldl (cleanup_entry now) (w, O) (map_to_list (sessions w)) = (w1, n) ∧
    effects w1 = effects w ++ ds ∧ clients w1 = clients w ∧
    timers w1 = timers w ∧
    (∀ d, d ∈ ds → ∃ c, d = ClientDestroy c) ∧
    (∀ k r s c, sessions w !! k = Some r → heap w !! r = Some s →
       evicts now s = true → client s = Some c → ClientDestroy c ∈ ds) ∧
    (∀ k r s, sessions w !! k = Some r → heap w !! r = Some s →
       evicts now s = true → (0 < n)%nat ∧ sessions w1 !! k = None)).
  { destruct (cleanup_fold_effects now (map_to_list (sessions w)) w O)
      as (ds & Heff & Hcl & Htm & Hds & Hin & Hcount & _).
    cbv zeta in Heff, Hcl, Htm, Hin, Hcount.
    destruct (foldl _ _ _) as [w1 n]. exists ds, n, w1. simpl in *.
    repeat (split; [done|]). split.
    - intros k r s c Hk. apply elem_of_map_to_list in Hk.
      exact (Hin (k, r) s c Hk).
    - intros k r s Hk. apply elem_of_map_to_list in Hk.
      exact (Hcount (k, r) s Hk). }
  destruct Hfold as (ds & n & w1 & Hf & Heff & Hcl & Htm & Hds & Hin & Hcount).
  assert (Hw' : w' = if (0 <? n)%nat then savePersistedSessions w1 else w1).
  { subst w'. unfold cleanupOldSessions. by rewrite Hf. }
  assert (Hlook : ∀ k, sessions w' !! k
        = match sessions w !! k with
          | Some r => match heap w !! r with
                      | Some s => if evicts now s then None else Some r
                      | None => Some r
                      end
          | None => None
          end) by (intros k; apply cleanupOldSessions_lookup).
  split; [done|].
  split; [by rewrite Hw'; destruct (0 <? n)%nat|].
  split; [by rewrite Hw'; destruct (0 <? n)%nat|].
  split; [done|]. split; [apply cleanupOldSessions_unchanged|]. split.
  - intros k r s Hk Hs Hev. destruct (Hcount k r s Hk Hs Hev) as [Hn _].
    exists ds. apply Nat.ltb_lt in Hn. rewrite Hn in Hw'.
    split; [|split; [done|by intros c; eapply Hin]].
    rewrite Hw'. simpl. by rewrite Heff, <- app_assoc.
  - apply cleanupOldSessions_unchanged. intros k r s Hk Hs.
    rewrite Hlook in Hk. rewrite Hheap in Hs.
    destruct (sessions w !! k) as [r0|]; [|done].
    destruct (heap w !! r0) as [s0|] eqn:Hs0.
    + destruct (evicts now s0) eqn:Hev; [done|]. congruence.
    + congruence.
Qed.

Lemma cleanupOldSessions_exact_witness :
  let w := run [OpStatus 0 Sample.token] in
  cleanupOldSessions 5 w = w ∧
  sessions (cleanupOldSessions (SESSION_TIMEOUT + 1) w) !! "firm_acme" = None.
Proof.
  cbv zeta.
  assert (Hk : sessions (run [OpStatus 0 Sample.token]) !! "firm_acme" = Some O)
    by (vm_compute; reflexivity).
  assert (Hh : heap (run [OpStatus 0 Sample.token]) = [fresh_session "acme" 0])
    by (vm_compute; reflexivity).
  revert Hk Hh. generalize (run [OpStatus 0 Sample.token]). intros w Hk Hh.
  split.
  - destruct (cleanupOldSessions_exact w 5) as (_ & _ & _ & _ & Hsame & _).
    apply Hsame. intros k r s _ Hs. rewrite Hh in Hs.
    destruct r as [|r]; [|done]. injection Hs as <-. reflexivity.
  - destruct (cleanupOldSessions_exact w (SESSION_TIMEOUT + 1))
      as (_ & _ & _ & Hlook & _).
    rewrite Hlook, Hk, Hh. reflexivity.
Defined.

(** ** The heartbeat *)

Lemma heartbeat_fold now r l :
  ∀ w s, heap w !! r = Some s →
    let w' := foldl (heartbeat_entry now) w l in
    let live := isReady s
                && match client s with Some _ => true | None => false end in
    heap w' !! r
    = Some (if bool_decide (r ∈ l.*2) && live then set_lastActivity now s else s) ∧
    sessions w' = sessions w ∧ clients w' = clients w ∧
    timers w' = timers w ∧ effects w' = effects w ∧
    length (heap w') = length (heap w).
Proof.
  induction l as [|e l IH]; intros w s Hs; cbv zeta.
  { cbn [foldl]. rewrite Hs, bool_decide_false by apply not_elem_of_nil. done. }
  change (foldl (heartbeat_entry now) w (e :: l))
    with (foldl (heartbeat_entry now) (heartbeat_entry now w e) l).
  set (f := λ session,
         if isReady session
            && match client session with Some _ => true | None => false end
         then set_lastActivity now session else session).
  assert (Hw1 : heartbeat_entry now w e = modify e.2 f w) by done.
  destruct (decide (e.2 = r)) as [<-|He].
  - destruct (IH (heartbeat_entry now w e) (f s))
      as (Hheap & Hrest); [rewrite Hw1; unfold modify; simpl;
                           by rewrite list_lookup_alter_eq, Hs|].
    cbv zeta in Hheap, Hrest. rewrite Hheap.
    split; [|rewrite Hw1 in Hrest |- *; simpl in *;
             by rewrite length_alter in Hrest].
    f_equal.
    rewrite (bool_decide_true (e.2 ∈ (e :: l).*2)) by (rewrite fmap_cons; left).
    subst f. simpl.
    destruct (isReady s && _) eqn:Hlive; simpl; [|by rewrite Hlive, andb_false_r].
    rewrite Hlive. by destruct (bool_decide _).
  - destruct (IH (heartbeat_entry now w e) s)
      as (Hheap & Hrest); [rewrite Hw1; unfold modify; simpl;
                           by rewrite list_lookup_alter_ne|].
    cbv zeta in Hheap, Hrest. rewrite Hheap.
    split; [|rewrite Hw1 in Hrest |- *; simpl in *;
             by rewrite length_alter in Hrest].
    f_equal.
    assert (Heq : bool_decide (r ∈ (e :: l).*2) = bool_decide (r ∈ l.*2)).
    { apply bool_decide_ext. rewrite fmap_cons, elem_of_cons.
      split; [intros [?|?]; [congruence|done]|by right]. }
    by rewrite Heq.
Qed.

(** X7.  The heartbeat sets [lastActivity] to the clock on exactly the
    session objects that are registered, ready and have a client, and
    changes nothing else: no other field, no other object, not the
    registry, no effect on the outside. *)
Theorem sessionHeartbeat_exact (w : World) (now : Z) (r : nat) (s : Session) :
  heap w !! r = Some s →
  let w' := sessionHeartbeat now w in
  ((∃ k, sessions w !! k = Some r) → isReady s = true → is_Some (client s) →
   heap w' !! r = Some (set_lastActivity now s)) ∧
  ((¬ ∃ k, sessions w !! k = Some r) ∨ isReady s = false ∨ client s = None →
   heap w' !! r = Some s) ∧
  sessions w' = sessions w ∧ clients w' = clients w ∧
  timers w' = timers w ∧ effects w' = effects w ∧
  length (heap w') = length (heap w).
Proof.
  intros Hs w'.
  destruct (heartbeat_fold now r (map_to_list (sessions w)) w s Hs)
    as (Hheap & Hrest).
  cbv zeta in Hheap, Hrest. fold (sessionHeartbeat now w) in Hheap, Hrest.
  fold w' in Hheap, Hrest.
  assert (Hreg : r ∈ (map_to_list (sessions w)).*2 ↔ ∃ k, sessions w !! k = Some r).
  { rewrite list_elem_of_fmap. split.
    - intros ([k r'] & -> & Hin%elem_of_map_to_list). by exists k.
    - intros [k Hk]. exists (k, r). split; [done|]. by apply elem_of_map_to_list. }
  split; [|split; [|done]].
  - intros Hk Hready [c Hc]. rewrite Hheap.
    by rewrite bool_decide_true, Hready, Hc by (by apply Hreg).
  - intros Hcase. rewrite Hheap. f_equal.
    destruct Hcase as [Hno|[Hnr|Hnc]].
    + by rewrite bool_decide_false by (by rewrite Hreg).
    + by rewrite Hnr, andb_false_r.
    + by rewrite Hnc, !andb_false_r.
Qed.

Lemma sessionHeartbeat_exact_witness :
  let w := run [OpQr 0 Sample.token; OpClientEvent 0 5 EvReady] in
  lastActivity <$> heap (sessionHeartbeat 77 w) !! O = Some 77 ∧
  effects (sessionHeartbeat 77 w) = effects w.
Proof.
  cbv zeta.
  assert (Hk : sessions (run [OpQr 0 Sample.token; OpClientEvent 0 5 EvReady])
               !! "firm_acme" = Some O) by (vm_compute; reflexivity).
  assert (Hs : ∃ s, heap (run [OpQr 0 Sample.token; OpClientEvent 0 5 EvReady])
                    !! O = Some s ∧ isReady s = true ∧ client s = Some O).
  { eexists. split; [vm_compute; reflexivity|]. by split. }
  revert Hk Hs.
  generalize (run [OpQr 0 Sample.token; OpClientEvent 0 5 EvReady]).
  intros w Hk (s & Hs & Hready & Hc).
  destruct (sessionHeartbeat_exact w 77 O s Hs) as (Hlive & _ & _ & _ & _ & Heff & _).
  split; [|exact Heff].
  rewrite Hlive; [done|by exists "firm_acme"|done|by rewrite Hc].
Defined.

(** ** Loading the sessions file *)

Lemma restore_fold now l :
  ∀ w,
    let kept := filter (λ e, restorable e.2 = true) l in
    let w' := foldl (restore_entry now) w l in
    heap w' = heap w ++ ((λ e, restored_session e.1 e.2 now) <$> kept) ∧
    timers w' = timers w ++ ((λ e, TimerInitialize (session_key e.1)) <$> kept) ∧
    effects w'
    = effects w
      ++ ((λ e, SetTimeout (TimerInitialize (session_key e.1)) 2000) <$> kept) ∧
    clients w' = clients w ∧
    (∀ k, (∀ e, e ∈ kept → k ≠ session_key e.1) →
          sessions w' !! k = sessions w !! k) ∧
    (NoDup l.*1 → ∀ i e, kept !! i = Some e →
       sessions w' !! session_key e.1 = Some (length (heap w) + i)%nat).
Proof.
  induction l as [|e l IH]; intros w; cbv zeta.
  { cbn [foldl]. rewrite filter_nil, !fmap_nil, !app_nil_r.
    repeat split; try done. all: try (intros _ i e He; by destruct i). }
  change (foldl (restore_entry now) w (e :: l))
    with (foldl (restore_entry now) (restore_entry now w e) l).
  destruct (IH (restore_entry now w e)) as (Hh & Ht & He & Hc & Hout & Hin).
  cbv zeta in Hh, Ht, He, Hc, Hout, Hin.
  rewrite filter_cons.
  destruct (restorable e.2) eqn:Hr.
  - assert (Hw1 : restore_entry now w e
                  = schedule (TimerInitialize (session_key e.1)) 2000
                      (with_sessions
                         (<[session_key e.1 := length (heap w)]> (sessions w))
                         (with_heap (heap w ++ [restored_session e.1 e.2 now]) w)))
      by (unfold restore_entry; by rewrite Hr).
    rewrite Hw1 in Hh, Ht, He, Hc, Hout, Hin |- *.
    rewrite decide_True by done. simpl in Hh, Ht, He, Hc, Hout, Hin.
    rewrite Hh, Ht, He, Hc, !fmap_cons, <- !(assoc_L (++)).
    repeat split; try done.
    + intros k Hk. rewrite Hout by (intros e' He'; apply Hk; by right).
      rewrite lookup_insert_ne; [done|]. intros Heq. by apply (Hk e); [left|].
    + intros Hnd i e' Hi. apply NoDup_cons in Hnd as [Hfresh Hnd].
      destruct i as [|i]; simpl in Hi.
      * injection Hi as <-. rewrite Nat.add_0_r, Hout.
        { by rewrite lookup_insert_eq. }
        intros e' He' Heq. apply session_key_inj in Heq.
        apply Hfresh. rewrite Heq.
        apply list_elem_of_fmap. exists e'. split; [done|].
        by apply list_elem_of_filter in He' as [_ ?].
      * rewrite (Hin Hnd i e' Hi), length_app. simpl. f_equal. lia.
  - assert (Hw1 : restore_entry now w e = w)
      by (unfold restore_entry; by rewrite Hr).
    rewrite Hw1 in Hh, Ht, He, Hc, Hout, Hin |- *.
    rewrite decide_False by (simpl; congruence).
    repeat split; try done.
    intros Hnd. apply NoDup_cons in Hnd as [_ Hnd]. by apply Hin.
Qed.

Lemma restore_entries_fold now entries :
  ∀ w, restore_entries now entries w
       = foldl (restore_entry now) w (records_before_null entries).
Proof.
  induction entries as [|[firmId [sessionData|]] rest IH]; intros w; [done| |done].
  simpl. apply IH.
Qed.

Lemma records_before_null_records (l : list (string * PersistedRecord)) :
  records_before_null ((λ e, (e.1, Some e.2)) <$> l) = l.
Proof.
  induction l as [|[firmId sessionData] l IH]; [done|].
  rewrite fmap_cons. cbn [records_before_null fst snd]. by rewrite IH.
Qed.

(** X8.  Loading the sessions file goes through the entries in the order of
    [Object.entries] and ends at the first entry whose value is [null],
    keeping what it restored before.  For every entry in front of that which
    carries the persistence mark and a link time it appends one restored
    session object and one 2000 ms initialisation timer, in that order, and
    nothing else; entries that are records without the mark or the link time
    are skipped, and an unreadable file is like an empty one.  Keys of the
    registry that belong to no restored entry stay as they were, the key of
    each restored one points to its new object, and no client is constructed
    by the load itself.  On a file without [null] values this is
    [loadPersistedSessions] on its records. *)
Theorem loadPersistedSessions_exact (now : Z)
    (file : option (list (string * option PersistedRecord))) (w : World) :
  let read := records_before_null (default [] file) in
  let kept := filter (λ e, restorable e.2 = true) read in
  let w' := loadPersistedFile now file w in
  heap w' = heap w ++ ((λ e, restored_session e.1 e.2 now) <$> kept) ∧
  timers w' = timers w ++ ((λ e, TimerInitialize (session_key e.1)) <$> kept) ∧
  effects w'
  = effects w
    ++ ((λ e, SetTimeout (TimerInitialize (session_key e.1)) 2000) <$> kept) ∧
  clients w' = clients w ∧
  (∀ k, (∀ e, e ∈ kept → k ≠ session_key e.1) →
        sessions w' !! k = sessions w !! k) ∧
  (NoDup read.*1 → ∀ i e, kept !! i = Some e →
     sessions w' !! session_key e.1 = Some (length (heap w) + i)%nat) ∧
  (∀ l : list (string * PersistedRecord),
     loadPersistedFile now (Some ((λ e, (e.1, Some e.2)) <$> l)) w
     = loadPersistedSessions now (Some l) w).
Proof.
  assert (Htyped : ∀ l : list (string * PersistedRecord),
             loadPersistedFile now (Some ((λ e, (e.1, Some e.2)) <$> l)) w
             = loadPersistedSessions now (Some l) w).
  { intros l. simpl. by rewrite restore_entries_fold, records_before_null_records. }
  destruct file as [entries|].
  - cbv zeta. simpl default. unfold loadPersistedFile.
    rewrite restore_entries_fold.
    destruct (restore_fold now (records_before_null entries) w)
      as (Hh & Ht & He & Hc & Hout & Hin).
    by repeat (split; [done|]).
  - cbv zeta. simpl. rewrite !app_nil_r.
    repeat split; try done. all: try (intros _ i e He; by destruct i).
Qed.

Lemma loadPersistedSessions_exact_witness :
  let w' := loadPersistedFile 9
              (Some [("acme", Some Sample.linked_record); ("beta", None);
                     ("gamma", Some Sample.linked_record)]) init in
  sessions w' !! "firm_acme" = Some O ∧ sessions w' !! "firm_gamma" = None.
Proof.
  cbv zeta.
  destruct (loadPersistedSessions_exact 9
              (Some [("acme", Some Sample.linked_record); ("beta", None);
                     ("gamma", Some Sample.linked_record)]) init)
    as (_ & _ & _ & _ & Hout & Hin & _).
  split.
  - apply (Hin (NoDup_singleton "acme") O ("acme", Sample.linked_record)).
    reflexivity.
  - rewrite Hout; [done|]. intros e He.
    apply list_elem_of_singleton in He as ->. simpl. discriminate.
Defined.

(** ** Saving and loading again *)

Lemma filter_all {A} (P : A → Prop) `{∀ x, Decision (P x)} (l : list A) :
  (∀ x, x ∈ l → P x) → filter P l = l.
Proof.
  induction l as [|x l IH]; intros Hall; [done|].
  rewrite filter_cons, decide_True by (apply Hall; left).
  f_equal. apply IH. intros y Hy. apply Hall. by right.
Qed.

(** Every record of the snapshot of a state whose registry is in order is
    the record of a registered, persistent and linked session. *)
Lemma persistedData_records w f sessionData :
  registered w → persistedData w !! f = Some sessionData →
  ∃ r s, sessions w !! session_key f = Some r ∧ heap w !! r = Some s ∧
         persistable s = true ∧ sessionData = persisted_record s.
Proof.
  intros Hreg. rewrite (persistedData_lookup w f Hreg).
  destruct (sessions w !! session_key f) as [r|] eqn:Hr; [|done].
  destruct (heap w !! r) as [s|] eqn:Hs; [|done].
  destruct (persistable s) eqn:Hp; [|done].
  intros [= <-]. by exists r, s.
Qed.

Lemma restorable_persisted_record s :
  persistable s = true → restorable (persisted_record s) = true.
Proof. unfold persistable, restorable. simpl. by intros [_ ?]%andb_true_iff. Qed.

(** X9.  What the snapshot of any run holds comes back when a new process
    loads it: every registered session that is persistent and linked is
    rebuilt under its key with its tenant, creation time (the clock, if it
    was zero) and link time, with status [restoring], an empty queue, no
    client, and an initialisation timer pending; no other session is rebuilt,
    and nothing else is scheduled or constructed. *)
Theorem save_load_round_trip (ops : list Op) (now : Z) :
  let w := run ops in
  let w' :=
    loadPersistedSessions now (Some (map_to_list (persistedData w))) init in
  (∀ f r s,
     sessions w !! session_key f = Some r → heap w !! r = Some s →
     isPersistent s = true → is_Some (lastLinked s) →
     TimerInitialize (session_key f) ∈ timers w' ∧
     ∃ r', sessions w' !! session_key f = Some r' ∧
           heap w' !! r'
           = Some {| firmId := f; client := None; qrCode := None;
                     isReady := false; status := restoring;
                     messageQueue := []; isProcessingQueue := false;
                     lastActivity := now;
                     createdAt := if createdAt s =? 0 then now else createdAt s;
                     reconnectAttempts := 0; maxReconnectAttempts := 5;
                     isPersistent := true; lastLinked := lastLinked s |}) ∧
  (∀ k, is_Some (sessions w' !! k) →
     ∃ r s, sessions w !! k = Some r ∧ heap w !! r = Some s ∧
            isPersistent s = true ∧ is_Some (lastLinked s)) ∧
  length (heap w') = size (persistedData w) ∧
  length (timers w') = size (persistedData w) ∧
  clients w' = [].
Proof.
  intros w w'. destruct (Inv_run ops) as (Hreg & _). fold w in Hreg.
  set (l := map_to_list (persistedData w)) in *.
  assert (Hall : filter (λ e : string * PersistedRecord, restorable e.2 = true) l
                 = l).
  { apply filter_all. intros [f sessionData] He.
    apply elem_of_map_to_list in He.
    destruct (persistedData_records w f sessionData Hreg He)
      as (r & s & _ & _ & Hp & ->).
    by apply restorable_persisted_record. }
  destruct (restore_fold now l init) as (Hh & Ht & _ & Hc & Hout & Hin).
  cbv zeta in Hh, Ht, Hc, Hout, Hin. rewrite Hall in Hh, Ht, Hout, Hin.
  change (foldl (restore_entry now) init l) with w' in Hh, Ht, Hc, Hout, Hin.
  simpl in Hh, Ht, Hc, Hin.
  split; [|split; [|split; [|split]]].
  - intros f r s Hk Hs Hper [t Hlinked].
    assert (Hp : persistable s = true) by (unfold persistable; by rewrite Hper, Hlinked).
    assert (Hf : firmId s = f).
    { destruct (Hreg _ _ Hk) as (s0 & Hs0 & Hkey).
      rewrite Hs in Hs0. injection Hs0 as <-. by apply session_key_inj in Hkey. }
    assert (He : (f, persisted_record s) ∈ l).
    { apply elem_of_map_to_list.
      by rewrite (persistedData_lookup w f Hreg), Hk, Hs, Hp. }
    split.
    + rewrite Ht. apply list_elem_of_fmap. by exists (f, persisted_record s).
    + apply list_elem_of_lookup in He as [i Hi]. exists i. split.
      * apply (Hin (NoDup_fst_map_to_list _) i _ Hi).
      * by rewrite Hh, list_lookup_fmap, Hi.
  - intros k Hk.
    destruct (decide (Exists (λ e : string * PersistedRecord,
                                k = session_key e.1) l)) as [Hex|Hno].
    + apply Exists_exists in Hex as ([f sessionData] & He & ->).
      apply elem_of_map_to_list in He.
      destruct (persistedData_records w f sessionData Hreg He)
        as (r & s & Hr & Hs & Hp & _).
      exists r, s. split; [done|]. split; [done|].
      unfold persistable in Hp. apply andb_true_iff in Hp as [? Hl].
      split; [done|]. by destruct (lastLinked s).
    + rewrite Hout in Hk; [by destruct Hk|].
      intros e He Heq. apply Hno, Exists_exists. by exists e.
  - by rewrite Hh, length_fmap, <- length_map_to_list.
  - by rewrite Ht, length_fmap, <- length_map_to_list.
  - done.
Qed.

Lemma save_load_round_trip_witness :
  let w := run [OpQr 0 Sample.token; OpClientEvent 0 5 EvReady] in
  let w' := loadPersistedSessions 9 (Some (map_to_list (persistedData w))) init in
  ∃ r' s', sessions w' !! "firm_acme" = Some r' ∧ heap w' !! r' = Some s' ∧
           lastLinked s' = Some 5 ∧ status s' = restoring.
Proof.
  cbv zeta.
  destruct (save_load_round_trip
              [OpQr 0 Sample.token; OpClientEvent 0 5 EvReady] 9) as (Hback & _).
  cbv zeta in Hback.
  assert (Hs : ∃ s, sessions (run [OpQr 0 Sample.token; OpClientEvent 0 5 EvReady])
                    !! session_key "acme" = Some O ∧
                    heap (run [OpQr 0 Sample.token; OpClientEvent 0 5 EvReady])
                    !! O = Some s ∧
                    isPersistent s = true ∧ lastLinked s = Some 5).
  { eexists. split; [vm_compute; reflexivity|].
    split; [vm_compute; reflexivity|]. by split. }
  revert Hback Hs.
  generalize (run [OpQr 0 Sample.token; OpClientEvent 0 5 EvReady]).
  intros w Hback (s & Hk & Hs & Hper & Hlinked).
  destruct (Hback "acme" O s Hk Hs Hper) as (_ & r' & Hk' & Hs');
    [by rewrite Hlinked|].
  exists r'. eexists. split; [exact Hk'|]. split; [exact Hs'|].
  split; [exact Hlinked|reflexivity].
Defined.

(** ** Timers that find a client in place *)

Lemma initializeClient_result w sessionKey r s :
  sessions w !! sessionKey = Some r → heap w !! r = Some s →
  initializeClient sessionKey w
  = match client s with
    | Some _ => w
    | None =>
        let s1 := set_reconnectAttempts (reconnectAttempts s + 1)
                    (set_status initializing s) in
        if maxReconnectAttempts s <? reconnectAttempts s + 1
        then with_heap (<[r := set_status max_attempts_reached s1]> (heap w)) w
        else
          let c := length (clients w) in
          emit [NewClient c ("./whatsapp-session-firm-" +:+ firmId s);
                ClientInitialize c]
            (with_clients (clients w ++ [(sessionKey, r)])
               (with_heap (<[r := set_client (Some c) s1]> (heap w)) w))
    end.
Proof.
  intros Hr Hs. unfold initializeClient. rewrite Hr, Hs.
  destruct (client s) as [c|]; [done|].
  unfold begin_initialize. simpl.
  destruct (maxReconnectAttempts s <? reconnectAttempts s + 1);
    by rewrite (modify_insert w r _ s Hs).
Qed.

Lemma run_timer_idle t w r s :
  sessions w !! timer_key t = Some r → heap w !! r = Some s →
  is_Some (client s) → run_timer t w = w.
Proof.
  intros Hr Hs [c Hc].
  assert (Hinit : initializeClient (timer_key t) w = w)
    by (by rewrite (initializeClient_result w _ r s Hr Hs), Hc).
  destruct t as [k|k r0]; simpl in *; [done|].
  rewrite Hr. destruct (heap w !! r0) as [s0|]; [|done].
  by case_bool_decide.
Qed.

Lemma fire_timer_idle i t w r s :
  timers w !! i = Some t →
  sessions w !! timer_key t = Some r → heap w !! r = Some s →
  is_Some (client s) →
  fire_timer i w = with_timers (delete i (timers w)) w.
Proof.
  intros Ht Hr Hs Hc. unfold fire_timer. rewrite Ht.
  by apply (run_timer_idle t _ r s).
Qed.

Lemma on_disconnected_session reason s :
  (on_disconnected reason s).1
  = set_qrCode None (set_status disconnected (set_isReady false s)).
Proof. unfold on_disconnected. by repeat case_match. Qed.

Lemma on_disconnected_persistent reason s :
  isPersistent s = true →
  (on_disconnected reason s).2
  = Some (persistent_reconnectDelay (reconnectAttempts s)).
Proof. intros Hp. unfold on_disconnected. simpl. by rewrite Hp. Qed.

Lemma delete_last {A} (l : list A) (x : A) : delete (length l) (l ++ [x]) = l.
Proof. induction l as [|y l IH]; [done|]. simpl. by rewrite IH. Qed.

(** X10.  The [disconnected] handler leaves the client object in the
    session.  So when a client emits [disconnected] while it is the client of
    the registered session of its key, every timer of that key that fires
    next finds the client in place and does nothing but go away: in
    particular the reconnect the handler itself sets for a persistent
    session constructs no client and leaves the session not ready, with
    status [disconnected]. *)
Theorem reconnect_timer_idle (w : World) (c : nat) (now : Z) (reason k : string)
    (r : nat) (s : Session) :
  clients w !! c = Some (k, r) → heap w !! r = Some s →
  sessions w !! k = Some r → is_Some (client s) →
  let w1 := client_event c now (EvDisconnected reason) w in
  let s1 := set_qrCode None (set_status disconnected (set_isReady false s)) in
  heap w1 !! r = Some s1 ∧ client s1 = client s ∧
  (∀ i t, timers w1 !! i = Some t → timer_key t = k →
          fire_timer i w1 = with_timers (delete i (timers w1)) w1) ∧
  (isPersistent s = true →
   timers w1 = timers w ++ [TimerReconnect k r] ∧
   fire_timer (length (timers w)) w1 = with_timers (timers w) w1).
Proof.
  intros Hc Hs Hk Hcl w1 s1.
  assert (Hw1 : sessions w1 = sessions w ∧ heap w1 !! r = Some s1 ∧
                timers w1
                = timers w ++ match (on_disconnected reason s).2 with
                              | Some _ => [TimerReconnect k r]
                              | None => []
                              end).
  { subst w1. rewrite (client_disconnected_result w c k r s reason Hc Hs now).
    cbv zeta. rewrite on_disconnected_session. fold s1.
    assert (Hlt : (r < length (heap w))%nat) by (by eapply lookup_lt_Some).
    destruct (on_disconnected reason s).2 as [d|]; simpl;
      rewrite ?app_nil_r, list_lookup_alter_eq, Hs; done. }
  destruct Hw1 as (Hsess & Hs1 & Htimers).
  assert (Hidle : ∀ i t, timers w1 !! i = Some t → timer_key t = k →
                    fire_timer i w1 = with_timers (delete i (timers w1)) w1).
  { intros i t Ht Hkey. apply (fire_timer_idle i t w1 r s1); try done.
    by rewrite Hkey, Hsess. }
  split; [done|]. split; [done|]. split; [done|].
  intros Hp. rewrite (on_disconnected_persistent reason s Hp) in Htimers.
  split; [done|].
  rewrite (Hidle (length (timers w)) (TimerReconnect k r)); [|
    by rewrite Htimers, lookup_app_r, Nat.sub_diag|done].
  by rewrite Htimers, delete_last.
Qed.

Lemma reconnect_timer_idle_witness :
  let w := run [OpQr 0 Sample.token; OpClientEvent 0 5 EvReady] in
  let w1 := client_event O 6 (EvDisconnected "CONFLICT") w in
  timers w1 = timers w ++ [TimerReconnect "firm_acme" O] ∧
  fire_timer (length (timers w)) w1 = with_timers (timers w) w1.
Proof.
  cbv zeta.
  assert (Hw : ∃ s, clients (run [OpQr 0 Sample.token; OpClientEvent 0 5 EvReady])
                    !! O = Some ("firm_acme", O) ∧
                    heap (run [OpQr 0 Sample.token; OpClientEvent 0 5 EvReady])
                    !! O = Some s ∧
                    sessions (run [OpQr 0 Sample.token; OpClientEvent 0 5 EvReady])
                    !! "firm_acme" = Some O ∧
                    client s = Some O ∧ isPersistent s = true).
  { eexists. split; [vm_compute; reflexivity|].
    split; [vm_compute; reflexivity|]. split; [vm_compute; reflexivity|].
    by split. }
  revert Hw. generalize (run [OpQr 0 Sample.token; OpClientEvent 0 5 EvReady]).
  intros w (s & Hc & Hs & Hk & Hcl & Hp).
  destruct (reconnect_timer_idle w O 6 "CONFLICT" "firm_acme" O s Hc Hs Hk)
    as (_ & _ & _ & Hfire); [by rewrite Hcl|].
  exact (Hfire Hp).
Defined.

(** ** What resolving a token does to the state *)

(** [getSession] in a state whose registry is in order: nothing on a token
    that does not match; the registered session of the tenant with a new
    activity time; or a fresh session, registered under the tenant's key. *)
Lemma getSession_cases w now sessionId :
  registered w →
  match firmMatch sessionId with
  | None => getSession now sessionId w = (None, w)
  | Some f =>
      match sessions w !! session_key f with
      | Some r =>
          ∃ s, heap w !! r = Some s ∧ firmId s = f ∧
               getSession now sessionId w
               = (Some r, with_heap (<[r := set_lastActivity now s]> (heap w)) w)
      | None =>
          getSession now sessionId w
          = (Some (length (heap w)),
             with_sessions (<[session_key f := length (heap w)]> (sessions w))
               (with_heap (heap w ++ [fresh_session f now]) w))
      end
  end.
Proof.
  intros Hreg. unfold getSession.
  destruct (firmMatch sessionId) as [f|] eqn:Hf; [|done].
  apply firmMatch_shape in Hf as (Hne & _).
  destruct (sessions w !! session_key f) as [r|] eqn:Hk.
  - destruct (Hreg _ _ Hk) as (s & Hs & Hkey). apply session_key_inj in Hkey.
    exists s. split; [done|]. split; [done|].
    by apply getOrCreateSession_existing.
  - by apply getOrCreateSession_fresh.
Qed.

(** The session a matching token resolves to, and what else is left as it
    was. *)
Lemma getSession_resolved w now sessionId f :
  registered w → firmMatch sessionId = Some f →
  ∃ r s0 w1,
    getSession now sessionId w = (Some r, w1) ∧
    sessions w1 !! session_key f = Some r ∧ heap w1 !! r = Some s0 ∧
    firmId s0 = f ∧ lastActivity s0 = now ∧
    clients w1 = clients w ∧ timers w1 = timers w ∧ effects w1 = effects w ∧
    (∀ k, k ≠ session_key f → sessions w1 !! k = sessions w !! k) ∧
    (∀ r', r' ≠ r → heap w1 !! r' = heap w !! r') ∧
    match sessions w !! session_key f with
    | Some r0 => r0 = r ∧ ∃ s, heap w !! r = Some s ∧ s0 = set_lastActivity now s
    | None => heap w !! r = None ∧ s0 = fresh_session f now
    end.
Proof.
  intros Hreg Hf. pose proof (getSession_cases w now sessionId Hreg) as Hget.
  rewrite Hf in Hget.
  destruct (sessions w !! session_key f) as [r|] eqn:Hk.
  - destruct Hget as (s & Hs & Hfirm & ->).
    assert (Hlt : (r < length (heap w))%nat) by (by eapply lookup_lt_Some).
    eexists r, (set_lastActivity now s), _. split; [done|]. simpl.
    rewrite list_lookup_insert_eq by done.
    repeat split; try done.
    + intros r' Hne. by rewrite list_lookup_insert_ne.
    + by exists s.
  - rewrite Hget. eexists (length (heap w)), (fresh_session f now), _.
    split; [done|]. simpl. rewrite lookup_insert_eq.
    rewrite lookup_app_r, Nat.sub_diag by done.
    repeat split; try done.
    + intros k Hne. by rewrite lookup_insert_ne.
    + intros r' Hne. destruct (decide (r' < length (heap w))%nat).
      * by rewrite lookup_app_l.
      * rewrite !lookup_ge_None_2; [done|lia|rewrite length_app; simpl; lia].
    + apply lookup_ge_None_2. lia.
Qed.

(** ** The reset route and its timer *)

Lemma emit_nil w : emit [] w = w.
Proof. destruct w. unfold emit, with_effects. simpl. by rewrite app_nil_r. Qed.

Lemma set_client_same s : client s = None → set_client None s = s.
Proof. destruct s. simpl. by intros ->. Qed.

Lemma route_reset_result w now sessionId destroy_throws r s0 w1 :
  getSession now sessionId w = (Some r, w1) → heap w1 !! r = Some s0 →
  let stuck := match client s0 with
               | Some _ => destroy_throws
               | None => false
               end in
  let s1 := if stuck then cleared s0 else set_client None (cleared s0) in
  let destroys := match client s0 with
                  | Some c => [ClientDestroy c]
                  | None => []
                  end in
  route_reset now sessionId destroy_throws w
  = schedule (TimerInitialize (session_key (firmId s0))) 2000
      (emit destroys (with_heap (<[r := s1]> (heap w1)) w1)).
Proof.
  intros Hget Hs0 stuck s1 destroys. unfold route_reset, on_session.
  rewrite Hget. simpl. rewrite Hs0. f_equal.
  rewrite (modify_insert w1 r _ s0 Hs0). fold (cleared s0).
  assert (Hlt : (r < length (heap w1))%nat) by (by eapply lookup_lt_Some).
  subst stuck s1 destroys. destruct (client s0) as [c|] eqn:Hc.
  - unfold destroy_client. destruct destroy_throws; [done|].
    rewrite (modify_insert _ r _ (cleared s0))
      by (simpl; by apply list_lookup_insert_eq).
    simpl. unfold emit, with_effects, with_heap. simpl.
    by rewrite list_insert_insert_eq.
  - by rewrite emit_nil, set_client_same.
Qed.

(** X11.  The reset route, in any run and for a token that resolves:
    it clears the QR payload, the readiness flag and the queue, sets status
    [resetting], destroys the client if there is one and sets a 2000 ms
    initialisation timer; attempts, persistence mark and link time stay.
    When the destroy call throws, the client stays in the session, and the
    timer then does nothing: the session keeps status [resetting].
    Otherwise the timer counts one more attempt and constructs a new client
    if the attempts were below the budget, and parks the session in
    [max_attempts_reached] without a client if they were not: a reset does
    not give an exhausted session its attempts back. *)
Theorem route_reset_then_timer (ops : list Op) (now : Z) (sessionId : string)
    (destroy_throws : bool) (f : string) :
  firmMatch sessionId = Some f →
  let w := run ops in
  let w' := route_reset now sessionId destroy_throws w in
  ∃ r s0,
    (getSession now sessionId w).1 = Some r ∧
    heap (getSession now sessionId w).2 !! r = Some s0 ∧
    let stuck := match client s0 with
                 | Some _ => destroy_throws
                 | None => false
                 end in
    let s1 := if stuck then cleared s0 else set_client None (cleared s0) in
    let destroys := match client s0 with
                    | Some c => [ClientDestroy c]
                    | None => []
                    end in
    let s2 := set_reconnectAttempts (reconnectAttempts s0 + 1)
                (set_status initializing s1) in
    let w'' := fire_timer (length (timers w)) w' in
    sessions w' !! session_key f = Some r ∧
    heap w' !! r = Some s1 ∧
    timers w' = timers w ++ [TimerInitialize (session_key f)] ∧
    effects w'
    = effects w ++ destroys
      ++ [SetTimeout (TimerInitialize (session_key f)) 2000] ∧
    (stuck = true → w'' = with_timers (timers w) w') ∧
    (stuck = false → reconnectAttempts s0 < maxReconnectAttempts s0 →
     heap w'' !! r = Some (set_client (Some (length (clients w))) s2) ∧
     effects w''
     = effects w'
       ++ [NewClient (length (clients w)) ("./whatsapp-session-firm-" +:+ f);
           ClientInitialize (length (clients w))]) ∧
    (stuck = false → maxReconnectAttempts s0 ≤ reconnectAttempts s0 →
     heap w'' !! r = Some (set_status max_attempts_reached s2) ∧
     effects w'' = effects w' ∧ clients w'' = clients w).
Proof.
  intros Hf w w'. destruct (Inv_run ops) as (Hreg & _). fold w in Hreg.
  destruct (getSession_resolved w now sessionId f Hreg Hf)
    as (r & s0 & w1 & Hget & Hk & Hs0 & Hfirm & _ & Hcl & Htm & Heff & _).
  exists r, s0. rewrite Hget. split; [done|]. split; [done|].
  intros stuck s1 destroys s2 w''.
  assert (Hlt : (r < length (heap w1))%nat) by (by eapply lookup_lt_Some).
  assert (Hw' : w' = schedule (TimerInitialize (session_key f)) 2000
                       (emit destroys (with_heap (<[r := s1]> (heap w1)) w1))).
  { subst w'. rewrite (route_reset_result w now sessionId _ r s0 w1 Hget Hs0).
    by rewrite Hfirm. }
  assert (Hk' : sessions w' !! session_key f = Some r) by (by rewrite Hw').
  assert (Hs1 : heap w' !! r = Some s1).
  { rewrite Hw'. simpl. by apply list_lookup_insert_eq. }
  assert (Ht' : timers w' = timers w ++ [TimerInitialize (session_key f)]).
  { rewrite Hw'. simpl. by rewrite Htm. }
  assert (Hfire : w'' = initializeClient (session_key f)
                          (with_timers (timers w) w')).
  { subst w''. unfold fire_timer.
    by rewrite Ht', lookup_app_r, Nat.sub_diag, delete_last. }
  assert (Hinit := initializeClient_result (with_timers (timers w) w')
                     (session_key f) r s1 Hk' Hs1).
  rewrite <- Hfire in Hinit.
  assert (Hfields : firmId s1 = f ∧ reconnectAttempts s1 = reconnectAttempts s0 ∧
                    maxReconnectAttempts s1 = maxReconnectAttempts s0 ∧
                    client s1 = if stuck then client s0 else None).
  { subst s1. by destruct stuck. }
  destruct Hfields as (Hf1 & Ha1 & Hm1 & Hc1).
  rewrite Hc1, Hf1, Ha1, Hm1 in Hinit.
  split; [done|]. split; [done|]. split; [done|]. split.
  { rewrite Hw'. simpl. by rewrite Heff, <- (assoc_L (++)). }
  split; [|split].
  - intros Hstuck. rewrite Hstuck in Hinit.
    subst stuck. destruct (client s0); [|done]. done.
  - intros Hstuck Hbelow. rewrite Hstuck in Hinit.
    destruct (maxReconnectAttempts s0 <? reconnectAttempts s0 + 1) eqn:Hcmp;
      [apply Z.ltb_lt in Hcmp; lia|].
    rewrite Hinit. simpl. rewrite Hw'. simpl. rewrite Hcl.
    split; [|done]. apply list_lookup_insert_eq.
    by rewrite length_insert.
  - intros Hstuck Hspent. rewrite Hstuck in Hinit.
    destruct (maxReconnectAttempts s0 <? reconnectAttempts s0 + 1) eqn:Hcmp;
      [|apply Z.ltb_ge in Hcmp; lia].
    rewrite Hinit. simpl. rewrite Hw'. simpl.
    split; [|done]. apply list_lookup_insert_eq.
    by rewrite length_insert.
Qed.

Lemma route_reset_then_timer_witness :
  let w := run Sample.exhausting in
  let w' := route_reset 0 Sample.token false w in
  ∃ s', heap (fire_timer (length (timers w)) w') !! O = Some s' ∧
        status s' = max_attempts_reached ∧ client s' = None.
Proof.
  cbv zeta.
  destruct (route_reset_then_timer Sample.exhausting 0 Sample.token false "acme")
    as (r & s0 & Hr & Hs0 & Hrest); [vm_compute; reflexivity|].
  cbv zeta in Hrest. destruct Hrest as (_ & _ & _ & _ & _ & _ & Hspent).
  assert (Hfound : (getSession 0 Sample.token (run Sample.exhausting)).1 = Some O ∧
                   heap (getSession 0 Sample.token (run Sample.exhausting)).2 !! O
                   = Some (set_lastActivity 0 Sample.parked)).
  { split; vm_compute; reflexivity. }
  revert Hr Hs0 Hspent Hfound.
  generalize (getSession 0 Sample.token (run Sample.exhausting)).
  generalize (run Sample.exhausting).
  intros w found Hr Hs0 Hspent (Hr' & Hs0').
  rewrite Hr in Hr'. injection Hr' as ->.
  rewrite Hs0 in Hs0'. injection Hs0' as ->.
  destruct Hspent as (Hs' & _); [reflexivity|vm_compute; discriminate|].
  eexists. split; [exact Hs'|]. by split.
Defined.

(** ** Requests of one tenant and the sessions of the others *)

Lemma only_touches_refl r w : only_touches r w w.
Proof. by split. Qed.

Lemma only_touches_trans r w1 w2 w3 :
  only_touches r w1 w2 → only_touches r w2 w3 → only_touches r w1 w3.
Proof.
  intros [Hs1 Hh1] [Hs2 Hh2]. split; [congruence|].
  intros r' Hne. by rewrite Hh2, Hh1.
Qed.

Lemma only_touches_modify r f w : only_touches r w (modify r f w).
Proof. split; [done|]. intros r' Hne. simpl. by rewrite list_lookup_alter_ne. Qed.

Lemma only_touches_insert r s w :
  only_touches r w (with_heap (<[r := s]> (heap w)) w).
Proof. split; [done|]. intros r' Hne. simpl. by rewrite list_lookup_insert_ne. Qed.

Lemma only_touches_emit r l w : only_touches r w (emit l w).
Proof. by split. Qed.

Lemma only_touches_schedule r t ms w : only_touches r w (schedule t ms w).
Proof. by split. Qed.

Lemma only_touches_initializeClient w sessionKey r s :
  sessions w !! sessionKey = Some r → heap w !! r = Some s →
  only_touches r w (initializeClient sessionKey w).
Proof.
  intros Hr Hs. rewrite (initializeClient_result w sessionKey r s Hr Hs).
  destruct (client s); [apply only_touches_refl|]. cbv zeta.
  destruct (_ <? _); split; try done;
    intros r' Hne; simpl; by rewrite list_lookup_insert_ne.
Qed.

Lemma only_touches_processMessageQueue w sessionKey send r s :
  sessions w !! sessionKey = Some r → heap w !! r = Some s →
  only_touches r w (processMessageQueue sessionKey send w).
Proof.
  intros Hr Hs. rewrite (processMessageQueue_result w sessionKey send r s Hr Hs).
  split; [done|]. intros r' Hne. simpl. by rewrite list_lookup_insert_ne.
Qed.

Lemma only_touches_destroy_client r c destroy_throws w :
  only_touches r w (destroy_client r c destroy_throws w).
Proof.
  unfold destroy_client. destruct destroy_throws; [apply only_touches_emit|].
  eapply only_touches_trans; [apply (only_touches_emit r [ClientDestroy c])|].
  apply only_touches_modify.
Qed.

(** The part of a request that follows the resolution of the token touches
    the resolved session object only. *)
Lemma request_only_touches w op sessionId r s0 w1 :
  token_of op = Some sessionId →
  getSession (match op with
              | OpStatus now _ | OpQr now _ | OpReset now _ _
              | OpDisconnect now _ _ _ | OpSend now _ _ _ _
              | OpClearQueue now _ => now
              | _ => 0
              end) sessionId w = (Some r, w1) →
  heap w1 !! r = Some s0 → sessions w1 !! session_key (firmId s0) = Some r →
  step w op = w ∨ only_touches r w1 (step w op).
Proof.
  intros Htok Hget Hs0 Hk.
  destruct op; simpl in Htok; try done; injection Htok as ->; simpl.
  - right. unfold route_status. rewrite Hget. apply only_touches_refl.
  - right. unfold route_qr, on_session. rewrite Hget. simpl. rewrite Hs0.
    destruct (client s0); [apply only_touches_refl|].
    by apply (only_touches_initializeClient w1 _ r s0).
  - right. rewrite (route_reset_result w now sessionId _ r s0 w1 Hget Hs0).
    cbv zeta.
    eapply only_touches_trans; [apply only_touches_insert|].
    eapply only_touches_trans; [apply only_touches_emit|].
    apply only_touches_schedule.
  - right. rewrite (route_disconnect_result w now sessionId _ _ r s0 w1 Hget Hs0).
    eapply only_touches_trans; [|apply only_touches_emit].
    destruct (client s0) as [c|]; [|apply only_touches_insert]. cbv zeta.
    destruct logout_throws.
    + eapply only_touches_trans; [apply only_touches_insert|].
      apply only_touches_emit.
    + eapply only_touches_trans; [apply only_touches_insert|].
      eapply only_touches_trans;
        [apply (only_touches_emit r [ClientLogout c])|].
      apply only_touches_destroy_client.
  - destruct messages as [|m ms]; [by left|]. right.
    rewrite (route_send_result w w1 now sessionId validate m ms send r s0
               Hget Hs0 Hk).
    cbv zeta. destruct (isReady s0); [|apply only_touches_refl].
    eapply only_touches_trans; [apply only_touches_insert|].
    apply only_touches_emit.
  - right. unfold route_clear_queue, on_session. rewrite Hget. simpl.
    rewrite Hs0. apply only_touches_modify.
Qed.

(** X12.  A request, in any run: with a token that does not resolve it
    changes nothing at all; with a token of tenant [f] it leaves every key of
    the registry but the one of [f] as it was, and every session object but
    the registered one of [f]; so the sessions of all other tenants, their
    queues included, are untouched. *)
Theorem request_isolation (ops : list Op) (op : Op) (sessionId : string) :
  token_of op = Some sessionId →
  let w := run ops in
  let w' := step w op in
  (firmMatch sessionId = None → w' = w) ∧
  (∀ f, firmMatch sessionId = Some f →
     (∀ k, k ≠ session_key f → sessions w' !! k = sessions w !! k) ∧
     (∀ r s, heap w !! r = Some s → sessions w !! session_key f ≠ Some r →
             heap w' !! r = Some s) ∧
     (∀ r s, heap w !! r = Some s → firmId s ≠ f → heap w' !! r = Some s)).
Proof.
  intros Htok w w'. destruct (Inv_run ops) as (Hreg & _). fold w in Hreg.
  split.
  - intros Hno. pose proof (getSession_cases w) as Hget.
    subst w'. destruct op; simpl in Htok; try done; injection Htok as ->;
      specialize (Hget now sessionId Hreg); rewrite Hno in Hget; simpl.
    + unfold route_status. by rewrite Hget.
    + unfold route_qr, on_session. by rewrite Hget.
    + unfold route_reset, on_session. by rewrite Hget.
    + unfold route_disconnect, on_session. by rewrite Hget.
    + unfold route_send, on_session. rewrite Hget. by destruct messages.
    + unfold route_clear_queue, on_session. by rewrite Hget.
  - intros f Hf.
    assert (Hother : (∀ k, k ≠ session_key f → sessions w' !! k = sessions w !! k) ∧
                     (∀ r s, heap w !! r = Some s →
                             sessions w !! session_key f ≠ Some r →
                             heap w' !! r = Some s)).
    { set (now := match op with
                  | OpStatus now _ | OpQr now _ | OpReset now _ _
                  | OpDisconnect now _ _ _ | OpSend now _ _ _ _
                  | OpClearQueue now _ => now
                  | _ => 0
                  end).
      destruct (getSession_resolved w now sessionId f Hreg Hf)
        as (r & s0 & w1 & Hget & Hk & Hs0 & Hfirm & _ & _ & _ & _
            & Hkeys & Hobjs & Hwhich).
      rewrite <- Hfirm in Hk.
      destruct (request_only_touches w op sessionId r s0 w1 Htok Hget Hs0 Hk)
        as [Hsame|[Hsess Hheap]]; fold w' in Hsame || fold w' in Hsess, Hheap.
      { rewrite Hsame. by split. }
      split.
      - intros k Hne. by rewrite Hsess, Hkeys.
      - intros r' s Hs Hnot.
        assert (Hne : r' ≠ r).
        { intros ->. destruct (sessions w !! session_key f) as [r0|].
          - destruct Hwhich as [-> _]. done.
          - destruct Hwhich as [Hnone _]. congruence. }
        by rewrite Hheap, Hobjs. }
    destruct Hother as [Hkeys Hobjs]. split; [done|]. split; [done|].
    intros r s Hs Hne. apply (Hobjs r s Hs). intros Hk.
    destruct (Hreg _ _ Hk) as (s' & Hs' & Hkey).
    apply session_key_inj in Hkey. congruence.
Qed.

Lemma request_isolation_witness :
  let w := run [OpQr 0 Sample.token; OpClientEvent 0 5 EvReady] in
  sessions (step w (OpDisconnect 9 "firm_zeta_1_a" false false)) !! "firm_acme"
  = sessions w !! "firm_acme".
Proof.
  cbv zeta.
  destruct (request_isolation [OpQr 0 Sample.token; OpClientEvent 0 5 EvReady]
              (OpDisconnect 9 "firm_zeta_1_a" false false) "firm_zeta_1_a"
              eq_refl) as (_ & Hsome).
  destruct (Hsome "zeta") as (Hkeys & _); [vm_compute; reflexivity|].
  apply Hkeys. vm_compute. discriminate.
Defined.

(** ** Properties that every session object of a run has *)

Section ObjectInvariant.

(** A property of session objects that the constructors of session objects
    establish and every assignment of the code keeps. *)
Variable P : Session → Prop.

Hypothesis P_fresh : ∀ f now, P (fresh_session f now).
Hypothesis P_restored :
  ∀ f sessionData now,
    restorable sessionData = true → P (restored_session f sessionData now).
Hypothesis P_touch : ∀ now s, P s → P (set_lastActivity now s).
Hypothesis P_event : ∀ now ev s, P s → P (handle_event now ev s).
Hypothesis P_begin :
  ∀ s, P s → client s = None →
       P (begin_initialize s).1 ∧
       ((begin_initialize s).2 = true →
        ∀ c, P (set_client (Some c) (begin_initialize s).1)).
Hypothesis P_drain : ∀ send s, P s → P (drain send s).1.
Hypothesis P_queue : ∀ q s, P s → P (set_messageQueue q s).
Hypothesis P_cleared : ∀ s, P s → P (cleared s).
Hypothesis P_unlink : ∀ s, P s → P (unlink s).
Hypothesis P_noclient : ∀ s, P s → P (set_client None s).

Lemma objects_modify r f w :
  (∀ s, heap w !! r = Some s → P s → P (f s)) →
  Forall P (heap w) → Forall P (heap (modify r f w)).
Proof. intros Hf Hall. simpl. by apply Forall_alter. Qed.

Lemma objects_lookup w r s : Forall P (heap w) → heap w !! r = Some s → P s.
Proof. intros Hall Hs. by eapply Forall_lookup_1. Qed.

Lemma objects_getOrCreateSession now f w :
  Forall P (heap w) → Forall P (heap (getOrCreateSession now f w).2).
Proof.
  intros Hall. unfold getOrCreateSession. case_bool_decide; [done|]. cbv zeta.
  destruct (sessions w !! session_key f) as [r|] eqn:Hk.
  - rewrite Hk. simpl. apply objects_modify; [|done]. intros; by apply P_touch.
  - simpl. rewrite lookup_insert_eq. simpl.
    apply Forall_alter; [|intros; by apply P_touch].
    apply Forall_app. split; [done|]. apply Forall_singleton, P_fresh.
Qed.

Lemma objects_getSession now sessionId w :
  Forall P (heap w) → Forall P (heap (getSession now sessionId w).2).
Proof.
  intros Hall. unfold getSession.
  destruct (firmMatch sessionId); [by apply objects_getOrCreateSession|done].
Qed.

Lemma objects_initializeClient sessionKey w :
  Forall P (heap w) → Forall P (heap (initializeClient sessionKey w)).
Proof.
  intros Hall. unfold initializeClient.
  destruct (sessions w !! sessionKey) as [r|]; [|done].
  destruct (heap w !! r) as [s|] eqn:Hs; [|done].
  destruct (client s) eqn:Hc; [done|].
  destruct (P_begin s (objects_lookup w r s Hall Hs) Hc) as [Hpark Hbuild].
  destruct (begin_initialize s) as [s1 construct]. simpl in Hpark, Hbuild.
  destruct construct; simpl; apply Forall_alter; try done.
  intros. by apply Hbuild.
Qed.

Lemma objects_processMessageQueue sessionKey send w :
  Forall P (heap w) → Forall P (heap (processMessageQueue sessionKey send w)).
Proof.
  intros Hall. unfold processMessageQueue.
  destruct (sessions w !! sessionKey) as [r|]; [|done].
  destruct (heap w !! r) as [s|] eqn:Hs; [|done].
  pose proof (P_drain send s (objects_lookup w r s Hall Hs)) as Hd.
  destruct (drain send s) as [s1 l]. simpl in *. by apply Forall_alter.
Qed.

Lemma objects_client_event c now ev w :
  Forall P (heap w) → Forall P (heap (client_event c now ev w)).
Proof.
  intros Hall. unfold client_event.
  destruct (clients w !! c) as [[k r]|]; [|done].
  destruct (heap w !! r) as [s|] eqn:Hs; [|done].
  pose proof (objects_lookup w r s Hall Hs) as Hp.
  destruct ev as [qr rendered| | |msg|reason]; simpl.
  - apply Forall_alter; [done|]. intros. by apply (P_event now (EvQr qr rendered) s).
  - apply Forall_alter; [done|]. intros. by apply (P_event now EvReady s).
  - apply Forall_alter; [done|]. intros. by apply (P_event now EvAuthenticated s).
  - apply Forall_alter; [done|]. intros. by apply (P_event now (EvAuthFailure msg) s).
  - pose proof (P_event now (EvDisconnected reason) s Hp) as Hd. simpl in Hd.
    destruct (on_disconnected reason s) as [s1 [d|]]; simpl in *;
      by apply Forall_alter.
Qed.

Lemma objects_run_timer t w :
  Forall P (heap w) → Forall P (heap (run_timer t w)).
Proof.
  intros Hall. destruct t as [k|k r]; simpl.
  - by apply objects_initializeClient.
  - destruct (sessions w !! k); [|done]. destruct (heap w !! r); [|done].
    case_bool_decide; [done|]. by apply objects_initializeClient.
Qed.

Lemma objects_fire_timer i w :
  Forall P (heap w) → Forall P (heap (fire_timer i w)).
Proof.
  intros Hall. unfold fire_timer. destruct (timers w !! i); [|done].
  by apply objects_run_timer.
Qed.

Lemma objects_sessionHeartbeat now w :
  Forall P (heap w) → Forall P (heap (sessionHeartbeat now w)).
Proof.
  unfold sessionHeartbeat. generalize (map_to_list (sessions w)).
  intros l. revert w. induction l as [|e l IH]; intros w Hall; [done|].
  simpl. apply IH. unfold heartbeat_entry. apply objects_modify; [|done].
  intros s _ Hp. destruct (_ && _); [by apply P_touch|done].
Qed.

Lemma objects_cleanupOldSessions now w :
  Forall P (heap w) → Forall P (heap (cleanupOldSessions now w)).
Proof.
  intros Hall. destruct (cleanupOldSessions_sessions now w) as (Hheap & _).
  by rewrite Hheap.
Qed.

Lemma objects_loadPersistedSessions now file w :
  Forall P (heap w) → Forall P (heap (loadPersistedSessions now file w)).
Proof.
  intros Hall. destruct file as [l|]; [|done]. simpl.
  destruct (restore_fold now l w) as (Hheap & _). cbv zeta in Hheap.
  rewrite Hheap. apply Forall_app. split; [done|].
  apply Forall_fmap, Forall_forall. intros e He.
  apply list_elem_of_filter in He as [Hr _]. by apply P_restored.
Qed.

Lemma objects_on_session res k :
  Forall P (heap res.2) →
  (∀ r session w1, heap w1 !! r = Some session → Forall P (heap w1) →
                   Forall P (heap (k r session w1))) →
  Forall P (heap (on_session res k)).
Proof.
  intros Hall Hk. unfold on_session. destruct res.1 as [r|]; [|done].
  destruct (heap res.2 !! r) as [s|] eqn:Hs; [|done]. by apply Hk.
Qed.

Lemma objects_destroy_client r c destroy_throws w :
  Forall P (heap w) → Forall P (heap (destroy_client r c destroy_throws w)).
Proof.
  intros Hall. unfold destroy_client. destruct destroy_throws; [done|].
  simpl. apply Forall_alter; [done|]. intros. by apply P_noclient.
Qed.

Lemma objects_step w op : Forall P (heap w) → Forall P (heap (step w op)).
Proof.
  intros Hall. destruct op; simpl.
  - by apply objects_loadPersistedSessions.
  - by apply objects_getSession.
  - apply objects_on_session; [by apply objects_getSession|].
    intros r s w1 Hs Hall1. destruct (client s); [done|].
    by apply objects_initializeClient.
  - apply objects_on_session; [by apply objects_getSession|].
    intros r s w1 Hs Hall1. simpl.
    assert (Hc : Forall P (heap (modify r cleared w1)))
      by (apply objects_modify; [intros; by apply P_cleared|done]).
    destruct (client s) as [c|]; [|done].
    by apply objects_destroy_client.
  - apply objects_on_session; [by apply objects_getSession|].
    intros r s w1 Hs Hall1. simpl.
    assert (Hc : Forall P (heap (modify r unlink w1)))
      by (apply objects_modify; [intros; by apply P_unlink|done]).
    destruct (client s) as [c|]; [|done].
    destruct logout_throws; [done|].
    by apply (objects_destroy_client r c _ (emit [ClientLogout c] (modify r unlink w1))).
  - unfold route_send. destruct messages as [|m ms]; [done|].
    apply objects_on_session; [by apply objects_getSession|].
    intros r s w1 Hs Hall1. destruct (isReady s); [|done].
    apply objects_processMessageQueue, objects_modify; [|done].
    intros. by apply P_queue.
  - apply objects_on_session; [by apply objects_getSession|].
    intros r s w1 Hs Hall1. apply objects_modify; [|done].
    intros. by apply P_queue.
  - by apply objects_client_event.
  - by apply objects_fire_timer.
  - by apply objects_processMessageQueue.
  - by apply objects_sessionHeartbeat.
  - by apply objects_cleanupOldSessions.
  - done.
Qed.

Lemma objects_run ops : Forall P (heap (run ops)).
Proof.
  unfold run. assert (Hinit : Forall P (heap init)) by apply Forall_nil_2.
  revert Hinit. generalize init.
  induction ops as [|op ops IH]; intros w Hall; [done|].
  simpl. by apply IH, objects_step.
Qed.

End ObjectInvariant.

Local Ltac solve_sound :=
  unfold sound in *; simpl in *;
  intuition (try done; try lia; try (by match goal with
                                        | H : is_Some None |- _ => destruct H
                                        end)).

Lemma sound_fresh f now : sound (fresh_session f now).
Proof. solve_sound. Qed.

Lemma sound_restored f sessionData now :
  restorable sessionData = true → sound (restored_session f sessionData now).
Proof.
  unfold restorable. intros [_ Hl]%andb_true_iff.
  destruct (pr_lastLinked sessionData) eqn:Hlinked; [|done].
  unfold sound. simpl. rewrite Hlinked. solve_sound.
Qed.

Lemma sound_event now ev s : sound s → sound (handle_event now ev s).
Proof.
  intros Hs. destruct ev as [qr rendered| | |msg|reason]; simpl.
  - unfold on_qr. destruct rendered; solve_sound.
  - solve_sound.
  - solve_sound.
  - solve_sound.
  - rewrite on_disconnected_session. solve_sound.
Qed.

Lemma sound_begin s :
  sound s → client s = None →
  sound (begin_initialize s).1 ∧
  ((begin_initialize s).2 = true →
   ∀ c, sound (set_client (Some c) (begin_initialize s).1)).
Proof.
  intros Hs Hc. assert (Hmax : maxReconnectAttempts s = 5) by apply Hs.
  unfold begin_initialize. simpl. rewrite Hmax.
  destruct (5 <? reconnectAttempts s + 1) eqn:Hcmp; simpl.
  - apply Z.ltb_lt in Hcmp. split; [|done].
    unfold sound in *. simpl in *. rewrite Hc in *. solve_sound.
  - apply Z.ltb_ge in Hcmp. split.
    + unfold sound in *. simpl in *. rewrite Hc in *. solve_sound.
    + intros _ c. solve_sound.
Qed.

Lemma sound_drain send s : sound s → sound (drain send s).1.
Proof.
  intros Hs. destruct (drain_outcome send s) as (k & t & l & -> & _). done.
Qed.

(** In every run, every session object ever allocated is sound. *)
Lemma sound_run ops r s : heap (run ops) !! r = Some s → sound s.
Proof.
  intros Hs.
  assert (Hall : Forall sound (heap (run ops))).
  { apply objects_run.
    - apply sound_fresh.
    - apply sound_restored.
    - intros now s0 Hs0. solve_sound.
    - apply sound_event.
    - apply sound_begin.
    - apply sound_drain.
    - intros q s0 Hs0. solve_sound.
    - intros s0 Hs0. solve_sound.
    - intros s0 Hs0. solve_sound.
    - intros s0 Hs0. solve_sound. }
  by eapply Forall_lookup_1.
Qed.

(** X13.  In every run, every session object ever allocated has a budget
    of five attempts; carries the persistence mark exactly when it has a link
    time; is persistent whenever its readiness flag is set; has a number of
    attempts that is never negative, at most five while it holds a client and
    zero while its status is [ready]; and holds no client, with more than
    five attempts counted, while its status is [max_attempts_reached]. *)
Theorem run_sessions_sound (ops : list Op) (r : nat) (s : Session) :
  heap (run ops) !! r = Some s →
  maxReconnectAttempts s = 5 ∧
  (isPersistent s = true ↔ is_Some (lastLinked s)) ∧
  (isReady s = true → isPersistent s = true) ∧
  0 ≤ reconnectAttempts s ∧
  (is_Some (client s) → reconnectAttempts s ≤ 5) ∧
  (status s = ready → reconnectAttempts s = 0) ∧
  (status s = max_attempts_reached →
   client s = None ∧ 5 < reconnectAttempts s).
Proof. apply sound_run. Qed.

Lemma run_sessions_sound_witness :
  maxReconnectAttempts Sample.parked = 5 ∧
  client Sample.parked = None ∧ 5 < reconnectAttempts Sample.parked.
Proof.
  assert (Hs : heap (run Sample.exhausting) !! O = Some Sample.parked)
    by (vm_compute; reflexivity).
  destruct (run_sessions_sound Sample.exhausting O Sample.parked Hs)
    as (Hmax & _ & _ & _ & _ & _ & Hpark).
  split; [exact Hmax|]. apply Hpark. reflexivity.
Defined.

(** X14.  In every run the reaper keeps every registered session whose
    readiness flag is set, whatever its status, its age and its idle time
    are and whatever the clock shows, and leaves the object as it is: the
    flag implies the persistence mark, and a persistent session is only
    removed when the flag is down. *)
Theorem reaper_keeps_ready_flag (ops : list Op) (now : Z) (k : string)
    (r : nat) (s : Session) :
  let w := run ops in
  let w' := cleanupOldSessions now w in
  sessions w !! k = Some r → heap w !! r = Some s → isReady s = true →
  evicts now s = false ∧ sessions w' !! k = Some r ∧ heap w' !! r = Some s.
Proof.
  intros w w' Hk Hs Hready.
  destruct (cleanupOldSessions_sessions now w) as (Hheap & _ & Hkeep).
  destruct (sound_run ops r s Hs) as (_ & _ & Hper & _).
  assert (Hev : evicts now s = false).
  { unfold evicts. by rewrite (Hper Hready), Hready, andb_false_r. }
  split; [done|]. split; [by apply (Hkeep k r s)|].
  subst w'. by rewrite Hheap.
Qed.

Lemma reaper_keeps_ready_flag_witness :
  let w := run Sample.reauthenticated in
  sessions (cleanupOldSessions (4 * SESSION_TIMEOUT) w) !! "firm_acme" = Some O.
Proof.
  cbv zeta.
  assert (Hw : ∃ s, sessions (run Sample.reauthenticated) !! "firm_acme" = Some O ∧
                    heap (run Sample.reauthenticated) !! O = Some s ∧
                    isReady s = true).
  { eexists. split; [vm_compute; reflexivity|].
    split; [vm_compute; reflexivity|]. reflexivity. }
  destruct Hw as (s & Hk & Hs & Hready).
  destruct (reaper_keeps_ready_flag Sample.reauthenticated (4 * SESSION_TIMEOUT)
              "firm_acme" O s Hk Hs Hready) as (_ & Hkept & _).
  exact Hkept.
Defined.

(** X15.  The snapshot of any run holds, under each tenant, the record of
    the registered session of that tenant if the session carries the
    persistence mark, and nothing otherwise: the test of the link time in
    [savePersistedSessions] never excludes a session.  Every record of the
    snapshot names its tenant and passes the test of the loader. *)
Theorem snapshot_holds_persistent (ops : list Op) (f : string) :
  let w := run ops in
  persistedData w !! f
  = match sessions w !! session_key f with
    | Some r =>
        match heap w !! r with
        | Some s => if isPersistent s then Some (persisted_record s) else None
        | None => None
        end
    | None => None
    end ∧
  ∀ sessionData, persistedData w !! f = Some sessionData →
    pr_firmId sessionData = f ∧ restorable sessionData = true.
Proof.
  intros w. destruct (Inv_run ops) as (Hreg & _). fold w in Hreg. split.
  - rewrite (persistedData_lookup w f Hreg).
    destruct (sessions w !! session_key f) as [r|]; [|done].
    destruct (heap w !! r) as [s|] eqn:Hs; [|done].
    destruct (sound_run ops r s Hs) as (_ & Hlink & _).
    unfold persistable. destruct (isPersistent s); [|done].
    destruct (proj1 Hlink eq_refl) as [t ->]. done.
  - intros sessionData Hrec.
    destruct (persistedData_records w f sessionData Hreg Hrec)
      as (r & s & Hk & Hs & Hp & ->).
    split; [|by apply restorable_persisted_record].
    destruct (Hreg _ _ Hk) as (s' & Hs' & Hkey).
    apply session_key_inj in Hkey. simpl. congruence.
Qed.

Lemma snapshot_holds_persistent_witness :
  ∃ sessionData,
    persistedData (run Sample.reauthenticated) !! "acme" = Some sessionData ∧
    pr_firmId sessionData = "acme" ∧ restorable sessionData = true.
Proof.
  destruct (snapshot_holds_persistent Sample.reauthenticated "acme")
    as (_ & Hrec).
  assert (Hw : ∃ sessionData,
             persistedData (run Sample.reauthenticated) !! "acme"
             = Some sessionData).
  { eexists. vm_compute. reflexivity. }
  destruct Hw as (sessionData & Hdata).
  exists sessionData. split; [exact Hdata|]. exact (Hrec sessionData Hdata).
Defined.

(** ** The delay of a reconnect *)

(** X16.  In every run, let a client emit [disconnected].  If the status of
    its session is [ready], the handler sets the reconnect timer with a
    delay of 0 ms, because the [ready] handler has reset the attempts.  If
    its session holds a client, the attempts are between 0 and 5, so a delay
    the handler computes is 10 s or 5 s times the attempts without the cap,
    and at most 50 s. *)
Theorem reconnect_delay_uncapped (ops : list Op) (c : nat) (now : Z)
    (reason k : string) (r : nat) (s : Session) :
  let w := run ops in
  let w' := client_event c now (EvDisconnected reason) w in
  clients w !! c = Some (k, r) → heap w !! r = Some s →
  (status s = ready →
   timers w' = timers w ++ [TimerReconnect k r] ∧
   effects w' = effects w ++ [SetTimeout (TimerReconnect k r) 0]) ∧
  (is_Some (client s) →
   0 ≤ reconnectAttempts s ≤ 5 ∧
   ∀ d, effects w' = effects w ++ [SetTimeout (TimerReconnect k r) d] →
        d = (if isPersistent s then 10000 else 5000) * reconnectAttempts s ∧
        0 ≤ d ≤ 50000).
Proof.
  intros w w' Hc Hs. subst w'.
  rewrite (client_disconnected_result w c k r s reason Hc Hs now). cbv zeta.
  destruct (sound_run ops r s Hs) as (_ & _ & _ & Hpos & Hcl & Hzero & _).
  destruct (Inv_run ops) as (_ & _ & Hgood).
  split.
  - intros Hst. destruct (Hgood r s Hs) as [Hg _]. destruct (Hg Hst) as [Hp _].
    rewrite (on_disconnected_persistent reason s Hp), (Hzero Hst). done.
  - intros Hclient. specialize (Hcl Hclient). split; [lia|].
    intros d. unfold on_disconnected. simpl.
    unfold persistent_reconnectDelay, temporary_reconnectDelay.
    destruct (isPersistent s); simpl.
    + intros Heff%app_inv_head. injection Heff as <-. lia.
    + destruct (negb (reason =? "NAVIGATION")%string
                && negb (reason =? "LOGOUT")%string); simpl.
      * intros Heff%app_inv_head. injection Heff as <-. lia.
      * intros Heff. rewrite <- (app_nil_r (effects w)) in Heff at 1.
        by apply app_inv_head in Heff.
Qed.

Lemma reconnect_delay_uncapped_witness :
  let w := run [OpQr 0 Sample.token; OpClientEvent 0 5 EvReady] in
  effects (client_event O 6 (EvDisconnected "CONFLICT") w)
  = effects w ++ [SetTimeout (TimerReconnect "firm_acme" O) 0].
Proof.
  cbv zeta.
  assert (Hw : ∃ s, clients (run [OpQr 0 Sample.token; OpClientEvent 0 5 EvReady])
                    !! O = Some ("firm_acme", O) ∧
                    heap (run [OpQr 0 Sample.token; OpClientEvent 0 5 EvReady])
                    !! O = Some s ∧ status s = ready).
  { eexists. split; [vm_compute; reflexivity|].
    split; [vm_compute; reflexivity|]. reflexivity. }
  destruct Hw as (s & Hc & Hs & Hst).
  destruct (reconnect_delay_uncapped
              [OpQr 0 Sample.token; OpClientEvent 0 5 EvReady]
              O 6 "CONFLICT" "firm_acme" O s Hc Hs) as (Hready & _).
  exact (proj2 (Hready Hst)).
Defined.

(** ** Sessions and their clients *)

Lemma quiet_refl w : quiet w w.
Proof.
  split; [|split; [|split]]; try done.
  - intros r s c Hs Hc. by exists s.
  - intros r s Hs. by exists s.
Qed.

Lemma quiet_trans w1 w2 w3 : quiet w1 w2 → quiet w2 w3 → quiet w1 w3.
Proof.
  intros (Hc1 & Hf1 & Hcl1 & He1) (Hc2 & Hf2 & Hcl2 & He2).
  split; [|split; [|split]].
  - intros r s3 c Hs3 Hc. destruct (Hc2 r s3 c Hs3 Hc) as (s2 & Hs2 & Hc').
    by apply (Hc1 r s2 c).
  - intros r s Hs. destruct (Hf1 r s Hs) as (s2 & Hs2 & Hfirm2).
    destruct (Hf2 r s2 Hs2) as (s3 & Hs3 & Hfirm3).
    exists s3. split; [done|]. congruence.
  - congruence.
  - intros e He. by apply He2, He1.
Qed.

Lemma quiet_owned w w' : quiet w w' → owned w → owned w'.
Proof.
  intros (Hc & Hf & Hcl & He) (Hown & Hbuilt). split.
  - intros r s' c Hs' Hclient.
    destruct (Hc r s' c Hs' Hclient) as (s & Hs & Hclient0).
    destruct (Hf r s Hs) as (s'' & Hs'' & Hfirm).
    rewrite Hs' in Hs''. injection Hs'' as <-.
    rewrite Hcl, Hfirm. by apply Hown.
  - intros c k r Hclosure. rewrite Hcl in Hclosure.
    destruct (Hbuilt c k r Hclosure) as (s & Hs & Hk & Hnew).
    destruct (Hf r s Hs) as (s' & Hs' & Hfirm).
    exists s'. rewrite Hfirm. split; [done|]. split; [done|]. by apply He.
Qed.

Lemma quiet_modify r f w :
  (∀ s, heap w !! r = Some s →
        firmId (f s) = firmId s ∧
        (client (f s) = client s ∨ client (f s) = None)) →
  quiet w (modify r f w).
Proof.
  intros Hf. split; [|split; [|split]]; try done.
  - intros r' s' c Hs' Hc. simpl in Hs'.
    destruct (decide (r' = r)) as [->|Hne].
    + rewrite list_lookup_alter_eq in Hs'.
      destruct (heap w !! r) as [s|] eqn:Hs; [|done].
      injection Hs' as <-. exists s. split; [done|].
      destruct (Hf s eq_refl) as [_ [Heq|Heq]]; congruence.
    + rewrite list_lookup_alter_ne in Hs' by done. by exists s'.
  - intros r' s Hs. simpl. destruct (decide (r' = r)) as [->|Hne].
    + rewrite list_lookup_alter_eq, Hs. simpl. exists (f s).
      split; [done|]. by apply Hf.
    + rewrite list_lookup_alter_ne by done. by exists s.
Qed.

Lemma quiet_emit l w : quiet w (emit l w).
Proof.
  split; [|split; [|split]]; try done.
  - intros r s c Hs Hc. by exists s.
  - intros r s Hs. by exists s.
  - intros e He. simpl. apply elem_of_app. by left.
Qed.

Lemma quiet_with_timers ts w : quiet w (with_timers ts w).
Proof.
  split; [|split; [|split]]; try done.
  - intros r s c Hs Hc. by exists s.
  - intros r s Hs. by exists s.
Qed.

Lemma quiet_with_sessions m w : quiet w (with_sessions m w).
Proof.
  split; [|split; [|split]]; try done.
  - intros r s c Hs Hc. by exists s.
  - intros r s Hs. by exists s.
Qed.

Lemma quiet_schedule t ms w : quiet w (schedule t ms w).
Proof.
  unfold schedule.
  eapply quiet_trans; [apply (quiet_with_timers (timers w ++ [t]))|].
  apply quiet_emit.
Qed.

Lemma quiet_alloc l w :
  Forall (λ s, client s = None) l → quiet w (with_heap (heap w ++ l) w).
Proof.
  intros Hl. split; [|split; [|split]]; try done.
  - intros r s' c Hs' Hc. simpl in Hs'.
    apply lookup_app_Some in Hs' as [Hs'|[_ Hs']]; [by exists s'|].
    apply (Forall_lookup_1 _ _ _ _ Hl) in Hs'. congruence.
  - intros r s Hs. exists s. split; [|done]. simpl. by apply lookup_app_l_Some.
Qed.

Lemma quiet_getOrCreateSession now f w :
  quiet w (getOrCreateSession now f w).2.
Proof.
  unfold getOrCreateSession. case_bool_decide; [apply quiet_refl|]. cbv zeta.
  assert (Htouch : ∀ r w0, quiet w0 (modify r (set_lastActivity now) w0)).
  { intros r w0. apply quiet_modify. intros s _. split; [done|by left]. }
  destruct (sessions w !! session_key f) as [r|] eqn:Hk.
  - rewrite Hk. simpl. apply Htouch.
  - simpl. rewrite lookup_insert_eq. simpl.
    eapply quiet_trans; [|apply Htouch].
    eapply quiet_trans; [apply (quiet_alloc [fresh_session f now])|].
    + by apply Forall_singleton.
    + apply quiet_with_sessions.
Qed.

Lemma quiet_getSession now sessionId w : quiet w (getSession now sessionId w).2.
Proof.
  unfold getSession.
  destruct (firmMatch sessionId);
    [apply quiet_getOrCreateSession|apply quiet_refl].
Qed.

Lemma quiet_processMessageQueue sessionKey send w :
  quiet w (processMessageQueue sessionKey send w).
Proof.
  unfold processMessageQueue.
  destruct (sessions w !! sessionKey) as [r|]; [|apply quiet_refl].
  destruct (heap w !! r) as [s|] eqn:Hs; [|apply quiet_refl].
  destruct (drain_outcome send s) as (k & t & l & Hd & _). rewrite Hd.
  eapply quiet_trans; [|apply quiet_emit].
  apply quiet_modify. intros s0 Hs0. rewrite Hs in Hs0. injection Hs0 as <-.
  split; [done|by left].
Qed.

Lemma handle_event_fields now ev s :
  firmId (handle_event now ev s) = firmId s ∧
  client (handle_event now ev s) = client s.
Proof.
  destruct ev as [qr rendered| | |msg|reason]; simpl; try done.
  - unfold on_qr. by destruct rendered.
  - by rewrite on_disconnected_session.
Qed.

Lemma quiet_client_event c now ev w : quiet w (client_event c now ev w).
Proof.
  unfold client_event.
  destruct (clients w !! c) as [[k r]|]; [|apply quiet_refl].
  destruct (heap w !! r) as [s|] eqn:Hs; [|apply quiet_refl].
  assert (Hset : ∀ ev', quiet w (modify r (λ _, handle_event now ev' s) w)).
  { intros ev'. apply quiet_modify. intros s0 Hs0.
    rewrite Hs in Hs0. injection Hs0 as <-.
    destruct (handle_event_fields now ev' s) as [-> ->]. split; [done|by left]. }
  destruct ev as [qr rendered| | |msg|reason].
  - apply (Hset (EvQr qr rendered)).
  - eapply quiet_trans; [apply (Hset EvReady)|apply quiet_emit].
  - apply (Hset EvAuthenticated).
  - apply (Hset (EvAuthFailure msg)).
  - pose proof (Hset (EvDisconnected reason)) as Hd. simpl in Hd.
    destruct (on_disconnected reason s) as [s1 [d|]]; simpl in *; [|done].
    eapply quiet_trans; [exact Hd|apply quiet_schedule].
Qed.

Lemma quiet_sessionHeartbeat now w : quiet w (sessionHeartbeat now w).
Proof.
  unfold sessionHeartbeat. generalize (map_to_list (sessions w)).
  intros l. revert w. induction l as [|e l IH]; intros w; [apply quiet_refl|].
  simpl. eapply quiet_trans; [|apply IH].
  unfold heartbeat_entry. apply quiet_modify. intros s _.
  destruct (_ && _); split; try done; by left.
Qed.

Lemma quiet_cleanupOldSessions now w : quiet w (cleanupOldSessions now w).
Proof.
  unfold cleanupOldSessions.
  destruct (cleanup_fold_effects now (map_to_list (sessions w)) w O)
    as (ds & Heff & Hcl & _).
  pose proof (cleanup_fold_sessions now (map_to_list (sessions w)) (w, O))
    as (Hheap & _).
  cbv zeta in Heff, Hcl, Hheap.
  destruct (foldl _ _ _) as [w1 n]. simpl in Heff, Hcl, Hheap.
  assert (Hq : quiet w w1).
  { split; [|split; [|split]]; try done.
    - intros r s c Hs Hc. rewrite Hheap in Hs. by exists s.
    - intros r s Hs. exists s. by rewrite Hheap.
    - intros e He. rewrite Heff. apply elem_of_app. by left. }
  destruct (0 <? n)%nat; [|done].
  eapply quiet_trans; [exact Hq|apply quiet_emit].
Qed.

Lemma quiet_loadPersistedSessions now file w :
  quiet w (loadPersistedSessions now file w).
Proof.
  destruct file as [l|]; [|apply quiet_refl]. simpl.
  destruct (restore_fold now l w) as (Hheap & _ & Heff & Hcl & _).
  cbv zeta in Hheap, Heff, Hcl.
  split; [|split; [|split]]; try done.
  - intros r s' c Hs' Hc. rewrite Hheap in Hs'.
    apply lookup_app_Some in Hs' as [Hs'|[_ Hs']]; [by exists s'|].
    rewrite list_lookup_fmap in Hs'.
    destruct (_ !! _) as [e|]; [|done]. injection Hs' as <-. done.
  - intros r s Hs. exists s. split; [|done]. rewrite Hheap.
    by apply lookup_app_l_Some.
  - intros e He. rewrite Heff. apply elem_of_app. by left.
Qed.

Lemma quiet_destroy_client r c destroy_throws w :
  quiet w (destroy_client r c destroy_throws w).
Proof.
  unfold destroy_client. destruct destroy_throws; [apply quiet_emit|].
  eapply quiet_trans; [apply (quiet_emit [ClientDestroy c])|].
  apply quiet_modify. intros s _. split; [done|by right].
Qed.

Lemma owned_initializeClient sessionKey w :
  registered w → owned w → owned (initializeClient sessionKey w).
Proof.
  intros Hreg [Hown Hbuilt].
  destruct (sessions w !! sessionKey) as [r|] eqn:Hr;
    [|by unfold initializeClient; rewrite Hr].
  destruct (Hreg _ _ Hr) as (s & Hs & Hkey).
  rewrite (initializeClient_result w sessionKey r s Hr Hs).
  destruct (client s) as [c0|] eqn:Hc; [done|]. cbv zeta.
  assert (Hlt : (r < length (heap w))%nat) by (by eapply lookup_lt_Some).
  destruct (maxReconnectAttempts s <? reconnectAttempts s + 1).
  - apply (quiet_owned w); [|done].
    rewrite <- (modify_insert w r (λ _, _) s Hs).
    apply quiet_modify. intros s0 Hs0. rewrite Hs in Hs0. injection Hs0 as <-.
    split; [done|]. left. simpl. done.
  - split.
    + intros r' s' c Hs' Hclient. simpl in Hs' |- *.
      destruct (decide (r' = r)) as [->|Hne].
      * rewrite list_lookup_insert_eq in Hs' by done. injection Hs' as <-.
        simpl in Hclient. injection Hclient as <-. simpl.
        by rewrite lookup_app_r, Nat.sub_diag, Hkey.
      * rewrite list_lookup_insert_ne in Hs' by done.
        apply lookup_app_l_Some. by apply Hown.
    + intros c k r' Hclosure. simpl in Hclosure |- *.
      apply lookup_app_Some in Hclosure as [Hold|[Hge Hnew]].
      * destruct (Hbuilt c k r' Hold) as (s0 & Hs0 & Hk & Hin).
        destruct (decide (r' = r)) as [->|Hne].
        -- rewrite Hs in Hs0. injection Hs0 as <-.
           eexists. rewrite list_lookup_insert_eq by done.
           split; [done|]. simpl. split; [done|]. apply elem_of_app. by left.
        -- exists s0. rewrite list_lookup_insert_ne by done.
           split; [done|]. split; [done|]. apply elem_of_app. by left.
      * destruct (c - length (clients w))%nat as [|n] eqn:Hidx; [|done].
        injection Hnew as <- <-.
        assert (c = length (clients w)) as -> by lia.
        eexists. rewrite list_lookup_insert_eq by done.
        split; [done|]. simpl. split; [done|].
        apply elem_of_app. right. left.
Qed.

Lemma owned_run_timer t w :
  registered w → owned w → owned (run_timer t w).
Proof.
  intros Hreg Hown. destruct t as [k|k r]; simpl.
  - by apply owned_initializeClient.
  - destruct (sessions w !! k); [|done]. destruct (heap w !! r); [|done].
    case_bool_decide; [done|]. by apply owned_initializeClient.
Qed.

Lemma owned_step w op : Inv w → owned w → owned (step w op).
Proof.
  intros Hinv Hown.
  assert (Hquiet : ∀ w', quiet w w' → owned w') by (intros; by eapply quiet_owned).
  destruct op; simpl.
  - apply Hquiet, quiet_loadPersistedSessions.
  - apply Hquiet, quiet_getSession.
  - pose proof (evolves_Inv _ _ _ Hinv (getSession_evolves now sessionId w))
      as (Hreg1 & _).
    pose proof (Hquiet _ (quiet_getSession now sessionId w)) as Hown1.
    unfold route_qr, on_session.
    destruct (getSession now sessionId w) as [[r|] w1]; simpl in *; [|done].
    destruct (heap w1 !! r) as [s|]; [|done].
    destruct (client s); [done|]. by apply owned_initializeClient.
  - apply Hquiet. unfold route_reset, on_session.
    pose proof (quiet_getSession now sessionId w) as Hq.
    destruct (getSession now sessionId w) as [[r|] w1]; simpl in *; [|done].
    destruct (heap w1 !! r) as [s|]; [|done].
    eapply quiet_trans; [exact Hq|].
    eapply quiet_trans; [|apply quiet_schedule].
    assert (Hc : quiet w1 (modify r cleared w1)).
    { apply quiet_modify. intros s0 _. split; [done|by left]. }
    destruct (client s) as [c|]; [|exact Hc].
    eapply quiet_trans; [exact Hc|apply quiet_destroy_client].
  - apply Hquiet. unfold route_disconnect, on_session.
    pose proof (quiet_getSession now sessionId w) as Hq.
    destruct (getSession now sessionId w) as [[r|] w1]; simpl in *; [|done].
    destruct (heap w1 !! r) as [s|]; [|done].
    eapply quiet_trans; [exact Hq|].
    eapply quiet_trans; [|apply quiet_emit].
    assert (Hc : quiet w1 (modify r unlink w1)).
    { apply quiet_modify. intros s0 _. split; [done|by left]. }
    destruct (client s) as [c|]; [|exact Hc].
    eapply quiet_trans; [exact Hc|].
    destruct logout_throws; [apply quiet_emit|].
    eapply quiet_trans; [apply (quiet_emit [ClientLogout c])|].
    apply quiet_destroy_client.
  - apply Hquiet. unfold route_send.
    destruct messages as [|m ms]; [apply quiet_refl|]. unfold on_session.
    pose proof (quiet_getSession now sessionId w) as Hq.
    destruct (getSession now sessionId w) as [[r|] w1]; simpl in *; [|done].
    destruct (heap w1 !! r) as [s|]; [|done].
    destruct (isReady s); [|done].
    eapply quiet_trans; [exact Hq|].
    eapply quiet_trans; [|apply quiet_processMessageQueue].
    apply quiet_modify. intros s0 _. split; [done|by left].
  - apply Hquiet. unfold route_clear_queue, on_session.
    pose proof (quiet_getSession now sessionId w) as Hq.
    destruct (getSession now sessionId w) as [[r|] w1]; simpl in *; [|done].
    destruct (heap w1 !! r) as [s|]; [|done].
    eapply quiet_trans; [exact Hq|].
    apply quiet_modify. intros s0 _. split; [done|by left].
  - apply Hquiet, quiet_client_event.
  - unfold fire_timer. destruct (timers w !! i) as [t|]; [|done].
    apply owned_run_timer; [apply Hinv|].
    apply Hquiet, quiet_with_timers.
  - apply Hquiet, quiet_processMessageQueue.
  - apply Hquiet, quiet_sessionHeartbeat.
  - apply Hquiet, quiet_cleanupOldSessions.
  - apply Hquiet, quiet_emit.
Qed.

Lemma owned_run ops : owned (run ops).
Proof.
  unfold run.
  assert (Hinit : owned init) by (split; intros ???; by simpl).
  pose proof Inv_init as Hinv. revert Hinit Hinv. generalize init.
  induction ops as [|op ops IH]; intros w Hown Hinv; [done|].
  simpl. apply IH; [by apply owned_step|].
  eapply evolves_Inv; [exact Hinv|by apply step_evolves].
Qed.

(** X17.  In every run, a session object that holds client [c] is the
    object the handlers of [c] closed over, filed under the key of its own
    tenant, and [c] was constructed on the credential path of that tenant;
    no two session objects hold the same client; and every client ever
    constructed was constructed for an existing session object, under the
    key and on the credential path of its tenant. *)
Theorem client_ownership (ops : list Op) :
  let w := run ops in
  (∀ r s c, heap w !! r = Some s → client s = Some c →
     clients w !! c = Some (session_key (firmId s), r) ∧
     NewClient c ("./whatsapp-session-firm-" +:+ firmId s) ∈ effects w) ∧
  (∀ r r' s s' c, heap w !! r = Some s → heap w !! r' = Some s' →
     client s = Some c → client s' = Some c → r = r') ∧
  (∀ c k r, clients w !! c = Some (k, r) →
     ∃ s, heap w !! r = Some s ∧ k = session_key (firmId s) ∧
          NewClient c ("./whatsapp-session-firm-" +:+ firmId s) ∈ effects w).
Proof.
  intros w. destruct (owned_run ops) as [Hown Hbuilt]. fold w in Hown, Hbuilt.
  split; [|split; [|done]].
  - intros r s c Hs Hc. pose proof (Hown r s c Hs Hc) as Hclosure.
    split; [done|].
    destruct (Hbuilt _ _ _ Hclosure) as (s0 & Hs0 & _ & Hnew). congruence.
  - intros r r' s s' c Hs Hs' Hc Hc'.
    pose proof (Hown r s c Hs Hc) as H1. pose proof (Hown r' s' c Hs' Hc') as H2.
    congruence.
Qed.

Lemma client_ownership_witness :
  clients (run Sample.reauthenticated) !! O = Some ("firm_acme", O) ∧
  NewClient O "./whatsapp-session-firm-acme"
  ∈ effects (run Sample.reauthenticated).
Proof.
  assert (Hs : heap (run Sample.reauthenticated) !! O = Some Sample.leftover)
    by (vm_compute; reflexivity).
  destruct (client_ownership Sample.reauthenticated) as (Hown & _).
  exact (Hown O Sample.leftover O Hs eq_refl).
Defined.

(** ** Where the messages of a drain go *)

Lemma drain_loop_effects send n :
  ∀ i s e, e ∈ (drain_loop n i send s).1.2 →
    (∃ ms, e = Sleep ms) ∨
    ∃ j m, m ∈ messageQueue s ∧ e = attempt_effect send (client s) j m.
Proof.
  induction n as [|n IH]; intros i s e; simpl; [by intros ?%elem_of_nil|].
  destruct (isReady s); [|by intros ?%elem_of_nil].
  destruct (messageQueue s) as [|m rest] eqn:Hq; [by intros ?%elem_of_nil|].
  assert (Hrest : ∀ e0,
             e0 ∈ (drain_loop n (S i) send (set_messageQueue rest s)).1.2 →
             (∃ ms, e0 = Sleep ms) ∨
             ∃ j m0, m0 ∈ m :: rest ∧ e0 = attempt_effect send (client s) j m0).
  { intros e0 He0. destruct (IH _ _ _ He0) as [?|(j & m0 & Hin & ->)]; [by left|].
    right. exists j, m0. split; [by right|done]. }
  assert (Hhere : ∀ res, sendMessage send i (client s) = res →
             ClientSendMessage (client s)
               (formatPhoneNumber (number m) +:+ "@c.us") (message m) res
             = attempt_effect send (client s) i m)
    by (by intros res <-).
  destruct (sendMessage send i (client s)) as [|err] eqn:Hres.
  - destruct (drain_loop n (S i) send (set_messageQueue rest s))
      as [[s2 l] ok]. simpl in *.
    intros [->|[->|Hin]%elem_of_cons]%elem_of_cons.
    + right. exists i, m. split; [left|by apply Hhere].
    + left. by eexists.
    + by apply Hrest.
  - destruct (is_rate_limited err).
    + simpl. intros [->|[->|Hin%elem_of_nil]%elem_of_cons]%elem_of_cons;
        [|left; by eexists|done].
      right. exists i, m. split; [left|by apply Hhere].
    + destruct (drain_loop n (S i) send (set_messageQueue rest s))
        as [[s2 l] ok]. simpl in *.
      intros [->|Hin]%elem_of_cons; [|by apply Hrest].
      right. exists i, m. split; [left|by apply Hhere].
Qed.

Lemma drain_effects send s e :
  e ∈ (drain send s).2 →
  (∃ ms, e = Sleep ms) ∨
  ∃ j m, m ∈ messageQueue s ∧ e = attempt_effect send (client s) j m.
Proof.
  unfold drain, drain_enter. destruct (drain_blocked s); [by intros ?%elem_of_nil|].
  cbv zeta.
  pose proof (drain_loop_effects send
                (Nat.min 5 (length (messageQueue (set_isProcessingQueue true s))))
                O (set_isProcessingQueue true s) e) as Hloop.
  destruct (drain_loop _ _ _ _) as [[s1 l] ok]. simpl in *. exact Hloop.
Qed.

(** X18.  In every run, every message a drain of a session key sends is
    a message from the queue of the session registered under that key, goes
    to the chat id built from the normalised number of that message, and
    goes through the client this session holds; that client was constructed
    for this very session, on the credential path of its tenant.  A drain
    has no effect on the outside but these attempts and the pauses between
    them. *)
Theorem drain_sends_isolated (ops : list Op) (sessionKey : string)
    (send : nat -> SendResult) :
  let w := run ops in
  let w' := processMessageQueue sessionKey send w in
  ∃ l, effects w' = effects w ++ l ∧
    ∀ e, e ∈ l →
      (∃ ms, e = Sleep ms) ∨
      ∃ r s m res,
        sessions w !! sessionKey = Some r ∧ heap w !! r = Some s ∧
        sessionKey = session_key (firmId s) ∧ m ∈ messageQueue s ∧
        e = ClientSendMessage (client s)
              (formatPhoneNumber (number m) +:+ "@c.us") (message m) res ∧
        (∀ c, client s = Some c →
           clients w !! c = Some (sessionKey, r) ∧
           NewClient c ("./whatsapp-session-firm-" +:+ firmId s) ∈ effects w).
Proof.
  intros w w'. destruct (Inv_run ops) as (Hreg & _). fold w in Hreg.
  destruct (owned_run ops) as [Hown Hbuilt]. fold w in Hown, Hbuilt.
  destruct (sessions w !! sessionKey) as [r|] eqn:Hr.
  2: { exists []. subst w'. unfold processMessageQueue. rewrite Hr.
       rewrite app_nil_r. split; [done|]. by intros e ?%elem_of_nil. }
  destruct (Hreg _ _ Hr) as (s & Hs & Hkey).
  exists (drain send s).2. split.
  { subst w'. by rewrite (processMessageQueue_result w sessionKey send r s Hr Hs). }
  intros e He. destruct (drain_effects send s e He) as [?|(j & m & Hin & ->)];
    [by left|].
  right. exists r, s, m, (sendMessage send j (client s)).
  split; [done|]. split; [done|]. split; [done|]. split; [done|].
  split; [done|]. intros c Hc. pose proof (Hown r s c Hs Hc) as Hclosure.
  rewrite <- Hkey in Hclosure. split; [done|].
  destruct (Hbuilt _ _ _ Hclosure) as (s0 & Hs0 & _ & Hnew). congruence.
Qed.

Lemma drain_sends_isolated_witness :
  let w := run Sample.reauthenticated in
  ∃ s, heap w !! O = Some s ∧
       NewClient O ("./whatsapp-session-firm-" +:+ firmId s) ∈ effects w.
Proof.
  cbv zeta.
  destruct (drain_sends_isolated Sample.reauthenticated "firm_acme"
              Sample.always_sent) as (l & Heff & Hsend).
  assert (Hl : l = [ClientSendMessage (Some O) "919876543210@c.us" "hello f" Sent;
                    Sleep 3000]).
  { apply (app_inv_head (effects (run Sample.reauthenticated))).
    rewrite <- Heff. vm_compute. reflexivity. }
  destruct (Hsend (ClientSendMessage (Some O) "919876543210@c.us" "hello f" Sent))
    as [[ms Hms]|(r & s & m & res & Hr & Hs & _ & _ & He & Hnew)];
    [rewrite Hl; left|discriminate|].
  assert (Hr0 : sessions (run Sample.reauthenticated) !! "firm_acme" = Some O)
    by (vm_compute; reflexivity).
  rewrite Hr0 in Hr. injection Hr as <-.
  injection He as Hc _ _ _. exists s. split; [exact Hs|].
  apply (Hnew O). by symmetry.
Defined.

(** ** The heartbeat and the reaper *)

(** X19.  In every run the heartbeat never decides what the reaper does:
    a sweep after a heartbeat leaves the same registry as the sweep without
    it, at any two clocks.  The sessions the heartbeat touches have the
    readiness flag, hence the persistence mark, and the idle time of a
    persistent session is not looked at. *)
Theorem heartbeat_never_rescues (ops : list Op) (now now' : Z) :
  let w := run ops in
  sessions (cleanupOldSessions now' (sessionHeartbeat now w))
  = sessions (cleanupOldSessions now' w) ∧
  ∀ r s, heap w !! r = Some s → isReady s = true →
         ∀ t, evicts now' (set_lastActivity t s) = false.
Proof.
  intros w.
  assert (Hflag : ∀ r s, heap w !! r = Some s → isReady s = true →
                    ∀ t, evicts now' (set_lastActivity t s) = false).
  { intros r s Hs Hready t.
    destruct (sound_run ops r s Hs) as (_ & _ & Hper & _).
    unfold evicts. simpl. by rewrite (Hper Hready), Hready, andb_false_r. }
  split; [|done]. apply map_eq. intros k.
  rewrite !cleanupOldSessions_lookup.
  assert (Hsess : sessions (sessionHeartbeat now w) = sessions w).
  { unfold sessionHeartbeat. generalize (map_to_list (sessions w)) as l.
    intros l. generalize w as w0.
    induction l as [|e l IH]; intros w0; [done|]. simpl. by rewrite IH. }
  rewrite Hsess. destruct (sessions w !! k) as [r|] eqn:Hk; [|done].
  destruct (heap w !! r) as [s|] eqn:Hs.
  - destruct (heartbeat_fold now r (map_to_list (sessions w)) w s Hs)
      as (Hheap & _).
    cbv zeta in Hheap. fold (sessionHeartbeat now w) in Hheap. rewrite Hheap.
    destruct (bool_decide _ && _) eqn:Hlive; [|done].
    apply andb_true_iff in Hlive as [_ [Hready _]%andb_true_iff].
    rewrite (Hflag r s Hs Hready now).
    destruct (sound_run ops r s Hs) as (_ & _ & Hper & _).
    unfold evicts. by rewrite (Hper Hready), Hready, andb_false_r.
  - assert (Hnone : heap (sessionHeartbeat now w) !! r = None).
    { apply lookup_ge_None. apply lookup_ge_None in Hs.
      assert (Hlen : length (heap (sessionHeartbeat now w)) = length (heap w)).
      { unfold sessionHeartbeat. generalize (map_to_list (sessions w)) as l.
        intros l. generalize w as w0.
        induction l as [|e l IH]; intros w0; [done|]. simpl.
        rewrite IH. unfold heartbeat_entry. simpl. by rewrite length_alter. }
      lia. }
    by rewrite Hnone.
Qed.

Lemma heartbeat_never_rescues_witness :
  evicts (4 * SESSION_TIMEOUT) (set_lastActivity 0 Sample.leftover) = false.
Proof.
  assert (Hs : heap (run Sample.reauthenticated) !! O = Some Sample.leftover)
    by (vm_compute; reflexivity).
  destruct (heartbeat_never_rescues Sample.reauthenticated 0 (4 * SESSION_TIMEOUT))
    as (_ & Hflag).
  exact (Hflag O Sample.leftover Hs eq_refl 0).
Defined.

(** ** A restart *)

(** X20.  After a process has loaded a sessions file with distinct tenants,
    the timer of every restored session, when it fires, constructs a client
    for that session on the credential path of its tenant and initialises
    it: the session then holds the client, with status [initializing] and
    one attempt counted. *)
Theorem restart_reinitializes (now : Z) (l : list (string * PersistedRecord))
    (i : nat) (e : string * PersistedRecord) :
  NoDup l.*1 →
  filter (λ e, restorable e.2 = true) l !! i = Some e →
  let w' := loadPersistedSessions now (Some l) init in
  let w'' := fire_timer i w' in
  timers w' !! i = Some (TimerInitialize (session_key e.1)) ∧
  sessions w'' !! session_key e.1 = Some i ∧
  heap w'' !! i
  = Some (set_client (Some O)
            (set_reconnectAttempts 1
               (set_status initializing (restored_session e.1 e.2 now)))) ∧
  clients w'' = [(session_key e.1, i)] ∧
  effects w''
  = effects w' ++ [NewClient O ("./whatsapp-session-firm-" +:+ e.1);
                   ClientInitialize O].
Proof.
  intros Hnd Hi w' w''.
  destruct (restore_fold now l init) as (Hh & Ht & _ & Hc & _ & Hin).
  cbv zeta in Hh, Ht, Hc, Hin.
  change (foldl (restore_entry now) init l) with w' in Hh, Ht, Hc, Hin.
  simpl in Hh, Ht, Hc, Hin.
  assert (Htimer : timers w' !! i = Some (TimerInitialize (session_key e.1)))
    by (by rewrite Ht, list_lookup_fmap, Hi).
  assert (Hk : sessions w' !! session_key e.1 = Some i) by exact (Hin Hnd i e Hi).
  assert (Hs : heap w' !! i = Some (restored_session e.1 e.2 now))
    by (by rewrite Hh, list_lookup_fmap, Hi).
  assert (Hlt : (i < length (heap w'))%nat) by (by eapply lookup_lt_Some).
  assert (Hfire : w'' = initializeClient (session_key e.1)
                          (with_timers (delete i (timers w')) w'))
    by (subst w''; unfold fire_timer; by rewrite Htimer).
  rewrite (initializeClient_result (with_timers (delete i (timers w')) w')
             _ i _ Hk Hs) in Hfire.
  simpl in Hfire. rewrite Hc in Hfire. rewrite Hfire. simpl.
  split; [done|]. split; [done|]. split; [|done].
  by apply list_lookup_insert_eq.
Qed.

Lemma restart_reinitializes_witness :
  let w' := loadPersistedSessions 9 (Some [("acme", Sample.linked_record)]) init in
  clients (fire_timer O w') = [("firm_acme", O)].
Proof.
  cbv zeta.
  destruct (restart_reinitializes 9 [("acme", Sample.linked_record)] O
              ("acme", Sample.linked_record) (NoDup_singleton "acme") eq_refl)
    as (_ & _ & _ & Hclients & _).
  exact Hclients.
Defined.

(** ** Clearing the queue *)

(** X21.  In every run, the clear-queue route for a token that resolves
    empties the queue of the session and does nothing else to it; no message
    is sent, nothing is scheduled or constructed; and a drain of that session
    right afterwards changes nothing. *)
Theorem clear_queue_silences (ops : list Op) (now : Z) (sessionId f : string)
    (send : nat -> SendResult) :
  firmMatch sessionId = Some f →
  let w := run ops in
  let w' := route_clear_queue now sessionId w in
  ∃ r s0,
    (getSession now sessionId w).1 = Some r ∧
    heap (getSession now sessionId w).2 !! r = Some s0 ∧
    sessions w' !! session_key f = Some r ∧
    heap w' !! r = Some (set_messageQueue [] s0) ∧
    effects w' = effects w ∧ timers w' = timers w ∧ clients w' = clients w ∧
    processMessageQueue (session_key f) send w' = w'.
Proof.
  intros Hf w w'. destruct (Inv_run ops) as (Hreg & _). fold w in Hreg.
  destruct (getSession_resolved w now sessionId f Hreg Hf)
    as (r & s0 & w1 & Hget & Hk & Hs0 & _ & _ & Hcl & Htm & Heff & _).
  exists r, s0. rewrite Hget. split; [done|]. split; [done|].
  assert (Hw' : w' = with_heap (<[r := set_messageQueue [] s0]> (heap w1)) w1).
  { subst w'. unfold route_clear_queue, on_session. rewrite Hget. simpl.
    by rewrite Hs0, (modify_insert w1 r _ s0 Hs0). }
  assert (Hlt : (r < length (heap w1))%nat) by (by eapply lookup_lt_Some).
  assert (Hs' : heap w' !! r = Some (set_messageQueue [] s0))
    by (rewrite Hw'; by apply list_lookup_insert_eq).
  assert (Hk' : sessions w' !! session_key f = Some r) by (by rewrite Hw').
  split; [done|]. split; [done|].
  split; [by rewrite Hw'|]. split; [by rewrite Hw'|]. split; [by rewrite Hw'|].
  rewrite (processMessageQueue_result w' _ send r _ Hk' Hs').
  assert (Hd : drain send (set_messageQueue [] s0) = (set_messageQueue [] s0, [])).
  { unfold drain, drain_enter, drain_blocked. simpl. by rewrite orb_true_r. }
  rewrite Hd. simpl. rewrite emit_nil, list_insert_id by done. by destruct w'.
Qed.

Lemma clear_queue_silences_witness :
  let w := run Sample.reauthenticated in
  let w' := route_clear_queue 8 Sample.token w in
  processMessageQueue "firm_acme" Sample.always_sent w' = w'.
Proof.
  cbv zeta.
  destruct (clear_queue_silences Sample.reauthenticated 8 Sample.token "acme"
              Sample.always_sent) as (r & s0 & _ & _ & _ & _ & _ & _ & _ & Hidle).
  - vm_compute. reflexivity.
  - exact Hidle.
Defined.

(** ** Clients are not dropped without [destroy] *)

Lemma tidy_refl w : tidy w w.
Proof.
  split; [|split]; try done.
  - intros r s c Hs Hc. left. by exists s.
  - intros c k r Hc. by left.
Qed.

Lemma tidy_trans w1 w2 w3 : tidy w1 w2 → tidy w2 w3 → tidy w1 w3.
Proof.
  intros (Hh1 & He1 & Hc1) (Hh2 & He2 & Hc2). split; [|split].
  - intros r s c Hs Hc.
    destruct (Hh1 r s c Hs Hc) as [(s2 & Hs2 & Hc')|Hd];
      [by apply (Hh2 r s2 c)|right; by apply He2].
  - intros e He. by apply He2, He1.
  - intros c k r Hclosure.
    destruct (Hc2 c k r Hclosure) as [Hold|[Hheld|Hd]]; [|by right; left|by right; right].
    destruct (Hc1 c k r Hold) as [?|[(s2 & Hs2 & Hc')|Hd]]; [by left|right..].
    + by apply (Hh2 r s2 c).
    + right. by apply He2.
Qed.

Lemma tidy_leakfree w w' : tidy w w' → leakfree w → leakfree w'.
Proof.
  intros (Hh & He & Hc) Hfree c k r Hclosure.
  destruct (Hc c k r Hclosure) as [Hold|Hnew]; [|done].
  destruct (Hfree c k r Hold) as [(s & Hs & Hheld)|Hd];
    [by apply (Hh r s c)|right; by apply He].
Qed.

Lemma tidy_modify r f w :
  (∀ s, heap w !! r = Some s → client (f s) = client s) →
  tidy w (modify r f w).
Proof.
  intros Hf. split; [|split]; try done; [|by left].
  intros r' s c Hs Hc. left. simpl. destruct (decide (r' = r)) as [->|Hne].
  - rewrite list_lookup_alter_eq, Hs. simpl. exists (f s).
    split; [done|]. by rewrite Hf.
  - rewrite list_lookup_alter_ne by done. by exists s.
Qed.

Lemma tidy_emit l w : tidy w (emit l w).
Proof.
  split; [|split]; [| |by left].
  - intros r s c Hs Hc. left. by exists s.
  - intros e He. simpl. apply elem_of_app. by left.
Qed.

Lemma tidy_with_timers ts w : tidy w (with_timers ts w).
Proof.
  split; [|split]; [|done|by left]. intros r s c Hs Hc. left. by exists s.
Qed.

Lemma tidy_with_sessions m w : tidy w (with_sessions m w).
Proof.
  split; [|split]; [|done|by left]. intros r s c Hs Hc. left. by exists s.
Qed.

Lemma tidy_schedule t ms w : tidy w (schedule t ms w).
Proof.
  unfold schedule.
  eapply tidy_trans; [apply (tidy_with_timers (timers w ++ [t]))|].
  apply tidy_emit.
Qed.

Lemma tidy_alloc l w : tidy w (with_heap (heap w ++ l) w).
Proof.
  split; [|split]; [|done|by left].
  intros r s c Hs Hc. left. exists s. split; [|done]. simpl.
  by apply lookup_app_l_Some.
Qed.

Lemma tidy_getOrCreateSession now f w : tidy w (getOrCreateSession now f w).2.
Proof.
  unfold getOrCreateSession. case_bool_decide; [apply tidy_refl|]. cbv zeta.
  assert (Htouch : ∀ r w0, tidy w0 (modify r (set_lastActivity now) w0))
    by (intros r w0; by apply tidy_modify).
  destruct (sessions w !! session_key f) as [r|] eqn:Hk.
  - rewrite Hk. simpl. apply Htouch.
  - simpl. rewrite lookup_insert_eq. simpl.
    eapply tidy_trans; [|apply Htouch].
    eapply tidy_trans; [apply (tidy_alloc [fresh_session f now])|].
    apply tidy_with_sessions.
Qed.

Lemma tidy_getSession now sessionId w : tidy w (getSession now sessionId w).2.
Proof.
  unfold getSession.
  destruct (firmMatch sessionId);
    [apply tidy_getOrCreateSession|apply tidy_refl].
Qed.

Lemma tidy_processMessageQueue sessionKey send w :
  tidy w (processMessageQueue sessionKey send w).
Proof.
  unfold processMessageQueue.
  destruct (sessions w !! sessionKey) as [r|]; [|apply tidy_refl].
  destruct (heap w !! r) as [s|] eqn:Hs; [|apply tidy_refl].
  destruct (drain_outcome send s) as (k & t & l & Hd & _). rewrite Hd.
  eapply tidy_trans; [|apply tidy_emit].
  apply tidy_modify. intros s0 Hs0. rewrite Hs in Hs0. by injection Hs0 as <-.
Qed.

Lemma tidy_client_event c now ev w : tidy w (client_event c now ev w).
Proof.
  unfold client_event.
  destruct (clients w !! c) as [[k r]|]; [|apply tidy_refl].
  destruct (heap w !! r) as [s|] eqn:Hs; [|apply tidy_refl].
  assert (Hset : ∀ ev', tidy w (modify r (λ _, handle_event now ev' s) w)).
  { intros ev'. apply tidy_modify. intros s0 Hs0.
    rewrite Hs in Hs0. injection Hs0 as <-. apply handle_event_fields. }
  destruct ev as [qr rendered| | |msg|reason].
  - apply (Hset (EvQr qr rendered)).
  - eapply tidy_trans; [apply (Hset EvReady)|apply tidy_emit].
  - apply (Hset EvAuthenticated).
  - apply (Hset (EvAuthFailure msg)).
  - pose proof (Hset (EvDisconnected reason)) as Hd. simpl in Hd.
    destruct (on_disconnected reason s) as [s1 [d|]]; simpl in *; [|done].
    eapply tidy_trans; [exact Hd|apply tidy_schedule].
Qed.

Lemma tidy_sessionHeartbeat now w : tidy w (sessionHeartbeat now w).
Proof.
  unfold sessionHeartbeat. generalize (map_to_list (sessions w)).
  intros l. revert w. induction l as [|e l IH]; intros w; [apply tidy_refl|].
  simpl. eapply tidy_trans; [|apply IH].
  unfold heartbeat_entry. apply tidy_modify. intros s _. by destruct (_ && _).
Qed.

Lemma tidy_cleanupOldSessions now w : tidy w (cleanupOldSessions now w).
Proof.
  unfold cleanupOldSessions.
  destruct (cleanup_fold_effects now (map_to_list (sessions w)) w O)
    as (ds & Heff & Hcl & _).
  pose proof (cleanup_fold_sessions now (map_to_list (sessions w)) (w, O))
    as (Hheap & _).
  cbv zeta in Heff, Hcl, Hheap.
  destruct (foldl _ _ _) as [w1 n]. simpl in Heff, Hcl, Hheap.
  assert (Hq : tidy w w1).
  { split; [|split].
    - intros r s c Hs Hc. left. exists s. by rewrite Hheap.
    - intros e He. rewrite Heff. apply elem_of_app. by left.
    - intros c k r Hc. left. by rewrite <- Hcl. }
  destruct (0 <? n)%nat; [|done].
  eapply tidy_trans; [exact Hq|apply tidy_emit].
Qed.

Lemma tidy_loadPersistedSessions now file w :
  tidy w (loadPersistedSessions now file w).
Proof.
  destruct file as [l|]; [|apply tidy_refl]. simpl.
  destruct (restore_fold now l w) as (Hheap & _ & Heff & Hcl & _).
  cbv zeta in Hheap, Heff, Hcl. split; [|split].
  - intros r s c Hs Hc. left. exists s. split; [|done]. rewrite Hheap.
    by apply lookup_app_l_Some.
  - intros e He. rewrite Heff. apply elem_of_app. by left.
  - intros c k r Hc. left. by rewrite <- Hcl.
Qed.

(** [destroy] on the client the session object holds. *)
Lemma tidy_destroy_client r c destroy_throws w :
  (∀ s, heap w !! r = Some s → client s = Some c) →
  tidy w (destroy_client r c destroy_throws w).
Proof.
  intros Hheld. unfold destroy_client.
  destruct destroy_throws; [apply tidy_emit|].
  split; [|split]; [| |by left].
  - intros r' s c' Hs Hc'. simpl. destruct (decide (r' = r)) as [->|Hne].
    + right. rewrite (Hheld s Hs) in Hc'. injection Hc' as <-.
      apply elem_of_app. right. left.
    + left. exists s. by rewrite list_lookup_alter_ne.
  - intros e He. simpl. apply elem_of_app. by left.
Qed.

Lemma tidy_initializeClient sessionKey w :
  tidy w (initializeClient sessionKey w).
Proof.
  unfold initializeClient.
  destruct (sessions w !! sessionKey) as [r|]; [|apply tidy_refl].
  destruct (heap w !! r) as [s|] eqn:Hs; [|apply tidy_refl].
  destruct (client s) as [c0|] eqn:Hc; [apply tidy_refl|].
  destruct (begin_initialize s) as [s1 construct].
  assert (Hlt : (r < length (heap w))%nat) by (by eapply lookup_lt_Some).
  destruct construct.
  - split; [|split].
    + intros r' s' c Hs' Hc'. left. simpl.
      destruct (decide (r' = r)) as [->|Hne]; [congruence|].
      exists s'. by rewrite list_lookup_alter_ne.
    + intros e He. simpl. apply elem_of_app. by left.
    + intros c k r' Hclosure. simpl in Hclosure.
      apply lookup_app_Some in Hclosure as [Hold|[Hge Hnew]]; [by left|].
      right. left.
      destruct (c - length (clients w))%nat as [|n] eqn:Hidx; [|done].
      injection Hnew as <- <-.
      assert (c = length (clients w)) as -> by lia.
      eexists. simpl. by rewrite list_lookup_alter_eq, Hs.
  - split; [|split]; [|done|by left].
    intros r' s' c Hs' Hc'. left. simpl.
    destruct (decide (r' = r)) as [->|Hne]; [congruence|].
    exists s'. by rewrite list_lookup_alter_ne.
Qed.

Lemma tidy_run_timer t w : tidy w (run_timer t w).
Proof.
  destruct t as [k|k r]; simpl; [apply tidy_initializeClient|].
  destruct (sessions w !! k); [|apply tidy_refl].
  destruct (heap w !! r); [|apply tidy_refl].
  case_bool_decide; [apply tidy_refl|apply tidy_initializeClient].
Qed.

Lemma tidy_step w op : tidy w (step w op).
Proof.
  destruct op; simpl.
  - apply tidy_loadPersistedSessions.
  - apply tidy_getSession.
  - unfold route_qr, on_session.
    pose proof (tidy_getSession now sessionId w) as Hq.
    destruct (getSession now sessionId w) as [[r|] w1]; simpl in *; [|done].
    destruct (heap w1 !! r) as [s|]; [|done].
    destruct (client s); [done|].
    eapply tidy_trans; [exact Hq|apply tidy_initializeClient].
  - unfold route_reset, on_session.
    pose proof (tidy_getSession now sessionId w) as Hq.
    destruct (getSession now sessionId w) as [[r|] w1]; simpl in *; [|done].
    destruct (heap w1 !! r) as [s|] eqn:Hs; [|done].
    eapply tidy_trans; [exact Hq|].
    eapply tidy_trans; [|apply tidy_schedule].
    assert (Hc : tidy w1 (modify r cleared w1)) by (by apply tidy_modify).
    destruct (client s) as [c|] eqn:Hclient; [|exact Hc].
    eapply tidy_trans; [exact Hc|apply tidy_destroy_client].
    intros s0. simpl. rewrite list_lookup_alter_eq, Hs. by intros [= <-].
  - unfold route_disconnect, on_session.
    pose proof (tidy_getSession now sessionId w) as Hq.
    destruct (getSession now sessionId w) as [[r|] w1]; simpl in *; [|done].
    destruct (heap w1 !! r) as [s|] eqn:Hs; [|done].
    eapply tidy_trans; [exact Hq|].
    eapply tidy_trans; [|apply tidy_emit].
    assert (Hc : tidy w1 (modify r unlink w1)) by (by apply tidy_modify).
    destruct (client s) as [c|] eqn:Hclient; [|exact Hc].
    eapply tidy_trans; [exact Hc|].
    destruct logout_throws; [apply tidy_emit|].
    eapply tidy_trans; [apply (tidy_emit [ClientLogout c])|].
    apply tidy_destroy_client.
    intros s0. simpl. rewrite list_lookup_alter_eq, Hs. by intros [= <-].
  - unfold route_send.
    destruct messages as [|m ms]; [apply tidy_refl|]. unfold on_session.
    pose proof (tidy_getSession now sessionId w) as Hq.
    destruct (getSession now sessionId w) as [[r|] w1]; simpl in *; [|done].
    destruct (heap w1 !! r) as [s|]; [|done].
    destruct (isReady s); [|done].
    eapply tidy_trans; [exact Hq|].
    eapply tidy_trans; [|apply tidy_processMessageQueue].
    by apply tidy_modify.
  - unfold route_clear_queue, on_session.
    pose proof (tidy_getSession now sessionId w) as Hq.
    destruct (getSession now sessionId w) as [[r|] w1]; simpl in *; [|done].
    destruct (heap w1 !! r) as [s|]; [|done].
    eapply tidy_trans; [exact Hq|]. by apply tidy_modify.
  - apply tidy_client_event.
  - unfold fire_timer. destruct (timers w !! i) as [t|]; [|apply tidy_refl].
    eapply tidy_trans; [apply (tidy_with_timers (delete i (timers w)))|].
    apply tidy_run_timer.
  - apply tidy_processMessageQueue.
  - apply tidy_sessionHeartbeat.
  - apply tidy_cleanupOldSessions.
  - apply tidy_emit.
Qed.

Lemma leakfree_run ops : leakfree (run ops).
Proof.
  unfold run. assert (Hinit : leakfree init) by (by intros ???).
  revert Hinit. generalize init.
  induction ops as [|op ops IH]; intros w Hfree; [done|].
  simpl. apply IH. eapply tidy_leakfree; [apply tidy_step|done].
Qed.

(** X22.  In every run, every client ever constructed is still the client
    of the session object it was constructed for, or its [destroy] was
    called: the code never clears or replaces the client of a session
    without calling [destroy] on it.  Step by step: a client that a session
    object holds before a step is held by the same object after it, or its
    [destroy] was called by then. *)
Theorem clients_never_leak (ops : list Op) (op : Op) :
  let w := run ops in
  (∀ c k r, clients w !! c = Some (k, r) →
     (∃ s, heap w !! r = Some s ∧ client s = Some c) ∨
     ClientDestroy c ∈ effects w) ∧
  (∀ r s c, heap w !! r = Some s → client s = Some c →
     (∃ s', heap (step w op) !! r = Some s' ∧ client s' = Some c) ∨
     ClientDestroy c ∈ effects (step w op)).
Proof.
  intros w. split; [apply leakfree_run|].
  by destruct (tidy_step w op) as (Hheld & _).
Qed.

Lemma clients_never_leak_witness :
  let w := run (Sample.reauthenticated ++ [OpReset 8 Sample.token false]) in
  (∃ s, heap w !! O = Some s ∧ client s = Some O) ∨
  ClientDestroy O ∈ effects w.
Proof.
  cbv zeta.
  destruct (clients_never_leak
              (Sample.reauthenticated ++ [OpReset 8 Sample.token false])
              OpSave) as (Hfree & _).
  apply (Hfree O "firm_acme" O). vm_compute. reflexivity.
Defined.

(** ** A backlog *)

Lemma set_messageQueue_twice q q' s :
  set_messageQueue q (set_messageQueue q' s) = set_messageQueue q s.
Proof. done. Qed.

(** X23.  On a session that is ready and not being drained, [n] drains in a
    row, none of whose attempts is rate limited, leave the queue without its
    first [5 n] messages and the rest of the session as it was: a backlog of
    [q] messages is gone after [q / 5] drains, rounded up, and not before. *)
Theorem drains_clear_backlog (send : nat -> SendResult) (s : Session) (n : nat) :
  isReady s = true → isProcessingQueue s = false →
  (∀ i, rate_limited (sendMessage send i (client s)) = false) →
  Nat.iter n (λ s0, (drain send s0).1) s
  = set_messageQueue (drop (5 * n) (messageQueue s)) s ∧
  (length (messageQueue (Nat.iter n (λ s0, (drain send s0).1) s))
   = length (messageQueue s) - 5 * n)%nat.
Proof.
  intros Hready Hidle Hsend.
  assert (Hiter : Nat.iter n (λ s0, (drain send s0).1) s
                  = set_messageQueue (drop (5 * n) (messageQueue s)) s).
  { induction n as [|n IH]; [symmetry; apply set_messageQueue_same|].
    change (Nat.iter (S n) (λ s0, (drain send s0).1) s)
      with ((drain send (Nat.iter n (λ s0, (drain send s0).1) s)).1).
    rewrite IH.
    set (s1 := set_messageQueue (drop (5 * n) (messageQueue s)) s).
    assert (Hq1 : messageQueue s1 = drop (5 * n) (messageQueue s)) by done.
    assert (Hr1 : isReady s1 = true) by exact Hready.
    assert (Hp1 : isProcessingQueue s1 = false) by exact Hidle.
    destruct (drain_blocked s1) eqn:Hb.
    - unfold drain, drain_enter. rewrite Hb. cbn [fst]. subst s1. f_equal.
      unfold drain_blocked in Hb. rewrite Hp1, Hr1, Hq1 in Hb.
      change (negb true) with false in Hb.
      rewrite orb_false_l, orb_false_r in Hb. apply Nat.eqb_eq in Hb.
      rewrite length_drop in Hb. rewrite !drop_ge; [done|lia..].
    - destruct (drain_whole_batch send s1 Hb Hsend) as (l & Hd & _).
      rewrite Hd. cbn [fst]. rewrite Hq1. subst s1.
      rewrite set_messageQueue_twice. f_equal.
      rewrite drop_drop, length_drop.
      destruct (decide (5 ≤ length (messageQueue s) - 5 * n)%nat).
      + f_equal. lia.
      + rewrite !drop_ge; [done|lia..]. }
  split; [done|]. rewrite Hiter. cbn [messageQueue set_messageQueue].
  by rewrite length_drop.
Qed.

Lemma drains_clear_backlog_witness :
  messageQueue (Nat.iter 1 (λ s0, (drain Sample.always_sent s0).1) Sample.busy)
  = [].
Proof.
  destruct (drains_clear_backlog Sample.always_sent Sample.busy 1) as (Hiter & _);
    [reflexivity|reflexivity|by intros i|].
  rewrite Hiter. reflexivity.
Defined.
